(** * vector-ai: capture, selection and speech-control core of [electron/main.ts]

    A shallow embedding of the parts of the Electron main process (and of the
    selection overlay page) that decide the behaviour of

    - the hold-to-record speech controller ([handleSpeechShortcutPress],
      [createSpeechPopupWindow], the [close-popup], [should-stop-speech] and
      [type-speech-result] IPC handlers),
    - the selection overlay ([SelectionOverlay.tsx]),
    - the crop mapping of [captureScreenshot] / [cropStoredScreenshot],
    - the capture-source matching chain of [captureScreenshot],
    - the prompt analyzer ([analyzeScreenshotWithVision] and the
      [analyze-prompt] handler).

    Module-level [let] variables of main.ts become fields of a state record
    that every handler takes and returns; calls into Electron become effects
    that the handler emits next to its new state.  An [async] handler that
    is suspended at an [await] is split at that point, so that other
    handlers can run in between.  The quotients, products and differences
    of the crop mapping and of the aspect-ratio comparison are computed on
    IEEE binary64 doubles, as JavaScript numbers are. *)

From Stdlib Require Import ZArith QArith Qround Qabs Qminmax Qpower Lqa.
From Stdlib Require Import List String Ascii DecimalString Bool Lia.
From Stdlib Require Import SpecFloat.
Import ListNotations.

Set Warnings "-register-all".

Local Open Scope Z_scope.

(* ================================================================== *)
(** ** Speech capture controller *)
(* ================================================================== *)

Module Speech.

(** The ['closed'] listener a popup was created with.  Analyzer popups
    ([createPopupWindow], [createImagePopupWindow],
    [createTextGrabPopupWindow]) register a listener that only clears
    [popupWindow]; a speech popup registers one that has captured [gen]. *)
Inductive ClosedHandler : Type :=
| PlainPopupClosed
| SpeechPopupClosed (gen : Z).

(** A [BrowserWindow] as far as main.ts looks at it: what [isDestroyed()]
    answers, and the listener registered on ['closed']. *)
Record Win : Type := mkWin {
  destroyed : bool;
  onClosed : ClosedHandler
}.

(** The module-level variables of main.ts that the speech controller reads
    or writes. *)
Record MainState : Type := mkState {
  popupWindow : option Win;
  pickerWindow : option Win;
  isSpeechRecording : bool;
  speechShouldStop : bool;
  speechPopupGen : Z
}.

(** Values at program start: [let isSpeechRecording = false],
    [let speechShouldStop = false], [let speechPopupGen = 0], no windows. *)
Definition initial : MainState :=
  mkState None None false false 0.

(** Calls into Electron / the OS that a handler makes. *)
Inductive Effect : Type :=
| CloseWindow (w : Win)
| NewSpeechPopup (gen : Z)
| NewAnalyzerPopup
| ShowModelMissingDialog
| SpawnKeyWatcher
| WriteClipboard
| SchedulePaste.

Definition set_popupWindow (w : option Win) (st : MainState) : MainState :=
  mkState w (pickerWindow st) (isSpeechRecording st) (speechShouldStop st)
          (speechPopupGen st).

Definition set_pickerWindow (w : option Win) (st : MainState) : MainState :=
  mkState (popupWindow st) w (isSpeechRecording st) (speechShouldStop st)
          (speechPopupGen st).

Definition set_isSpeechRecording (b : bool) (st : MainState) : MainState :=
  mkState (popupWindow st) (pickerWindow st) b (speechShouldStop st)
          (speechPopupGen st).

Definition set_speechShouldStop (b : bool) (st : MainState) : MainState :=
  mkState (popupWindow st) (pickerWindow st) (isSpeechRecording st) b
          (speechPopupGen st).

Definition set_speechPopupGen (g : Z) (st : MainState) : MainState :=
  mkState (popupWindow st) (pickerWindow st) (isSpeechRecording st)
          (speechShouldStop st) g.

(** [w && !w.isDestroyed()] *)
Definition alive (w : option Win) : bool :=
  match w with
  | Some x => negb (destroyed x)
  | None => false
  end.

(** [!popupWindow || popupWindow?.isDestroyed()] *)
Definition popupGone (st : MainState) : bool :=
  match popupWindow st with
  | None => true
  | Some x => destroyed x
  end.

(** The guard every [create*PopupWindow] starts with:
<<
  if (popupWindow && !popupWindow.isDestroyed()) {
    popupWindow.close()
    popupWindow = null
  }
>> *)
Definition closeExistingPopup (st : MainState) : MainState * list Effect :=
  match popupWindow st with
  | Some w =>
      if negb (destroyed w)
      then (set_popupWindow None st, [CloseWindow w])
      else (st, [])
  | None => (st, [])
  end.

(** [createSpeechPopupWindow]: close the old popup, [const gen =
    ++speechPopupGen], create the window and register the ['closed']
    listener that captured [gen]. *)
Definition createSpeechPopupWindow (st : MainState) : MainState * list Effect :=
  let '(st1, eff) := closeExistingPopup st in
  let gen := speechPopupGen st1 + 1 in
  let st2 := set_speechPopupGen gen st1 in
  let st3 := set_popupWindow (Some (mkWin false (SpeechPopupClosed gen))) st2 in
  (st3, eff ++ [NewSpeechPopup gen]).

(** [createPopupWindow] and its image / text-grab siblings, as far as the
    shared popup slot is concerned. *)
Definition createPopupWindow (st : MainState) : MainState * list Effect :=
  let '(st1, eff) := closeExistingPopup st in
  (set_popupWindow (Some (mkWin false PlainPopupClosed)) st1,
   eff ++ [NewAnalyzerPopup]).

(** What the press handler reads from outside the state:
    [isWhisperModelDownloaded()] and whether
    [vk !== null && process.platform === 'win32']. *)
Record PressEnv : Type := mkEnv {
  modelDownloaded : bool;
  canWatchKey : bool
}.

(** [handleSpeechShortcutPress], statement by statement. *)
Definition handleSpeechShortcutPress (env : PressEnv) (st : MainState)
  : MainState * list Effect :=
  (* if (isSpeechRecording) return *)
  if isSpeechRecording st then (st, [])
  else
    (* if (!popupWindow || popupWindow?.isDestroyed()) { reset both flags } *)
    let st1 :=
      if popupGone st
      then set_speechShouldStop false (set_isSpeechRecording false st)
      else st in
    (* if (!isWhisperModelDownloaded()) { dialog.showMessageBox(..); return } *)
    if negb (modelDownloaded env) then (st1, [ShowModelMissingDialog])
    else
      let st2 := set_speechShouldStop false (set_isSpeechRecording true st1) in
      let '(st3, eff) := createSpeechPopupWindow st2 in
      (st3, eff ++ (if canWatchKey env then [SpawnKeyWatcher] else [])).

(** The continuation of [waitForKeyRelease(vk).then(...)]. *)
Definition onKeyReleased (st : MainState) : MainState :=
  if isSpeechRecording st && negb (speechShouldStop st)
  then set_speechShouldStop true st
  else st.

(** The ['closed'] listeners. *)
Definition runClosedHandler (h : ClosedHandler) (st : MainState) : MainState :=
  match h with
  | PlainPopupClosed => set_popupWindow None st
  | SpeechPopupClosed gen =>
      let st1 := set_popupWindow None st in
      if gen =? speechPopupGen st1
      then set_speechShouldStop false (set_isSpeechRecording false st1)
      else st1
  end.

(** [ipcMain.handle('close-popup', ...)] *)
Definition closePopup (st : MainState) : MainState * list Effect :=
  let '(st1, e1) := closeExistingPopup st in
  let '(st2, e2) :=
    match pickerWindow st1 with
    | Some w =>
        if negb (destroyed w)
        then (set_pickerWindow None st1, [CloseWindow w])
        else (st1, [])
    | None => (st1, [])
    end in
  (set_speechShouldStop false (set_isSpeechRecording false st2), e1 ++ e2).

(** [ipcMain.handle('should-stop-speech', ...)]: the returned boolean and
    the state after the call. *)
Definition shouldStopSpeech (st : MainState) : bool * MainState :=
  if speechShouldStop st
  then (true, set_speechShouldStop false st)
  else (false, st).

(** [ipcMain.handle('type-speech-result', ...)]: clipboard write, flag
    reset, [popupWindow.close()] without clearing the variable, delayed
    paste. *)
Definition typeSpeechResult (st : MainState) : MainState * list Effect :=
  let st1 := set_speechShouldStop false (set_isSpeechRecording false st) in
  (st1,
   [WriteClipboard]
   ++ match popupWindow st1 with
      | Some w => if negb (destroyed w) then [CloseWindow w] else []
      | None => []
      end
   ++ [SchedulePaste]).

(** [ipcMain.handle('unregister-speech-shortcut', ...)] on the flags. *)
Definition unregisterSpeechShortcut (st : MainState) : MainState :=
  set_isSpeechRecording false st.

(** The window referenced by [popupWindow] got destroyed by the platform
    (its [isDestroyed()] now answers [true]). *)
Definition popupDestroyed (st : MainState) : MainState :=
  match popupWindow st with
  | Some w => set_popupWindow (Some (mkWin true (onClosed w))) st
  | None => st
  end.

(** Everything the event loop can deliver to the controller. *)
Inductive Event : Type :=
| SpeechHotkey (env : PressEnv)
| KeyReleased
| WindowClosed (h : ClosedHandler)
| PopupDestroyed
| AnalyzerPopupOpened
| IpcClosePopup
| IpcShouldStopSpeech
| IpcTypeSpeechResult
| IpcUnregisterSpeechShortcut.

Definition step (st : MainState) (e : Event) : MainState :=
  match e with
  | SpeechHotkey env => fst (handleSpeechShortcutPress env st)
  | KeyReleased => onKeyReleased st
  | WindowClosed h => runClosedHandler h st
  | PopupDestroyed => popupDestroyed st
  | AnalyzerPopupOpened => fst (createPopupWindow st)
  | IpcClosePopup => fst (closePopup st)
  | IpcShouldStopSpeech => snd (shouldStopSpeech st)
  | IpcTypeSpeechResult => fst (typeSpeechResult st)
  | IpcUnregisterSpeechShortcut => unregisterSpeechShortcut st
  end.

(** Handlers run to completion one after the other. *)
Definition run (st : MainState) (tr : list Event) : MainState :=
  fold_left step tr st.

(** *** Sample runs *)

(** Model downloaded, key watcher available. *)
Definition ready : PressEnv := mkEnv true true.

(** One press from the start: generation 1 is recording. *)
Definition firstSession : MainState :=
  run initial [SpeechHotkey ready].

(** A first recording delivered its text, a second press followed:
    generation 2 is recording. *)
Definition secondSession : MainState :=
  run initial [SpeechHotkey ready; IpcTypeSpeechResult; SpeechHotkey ready].

(** An analyzer popup is open, the speech hotkey replaces it, and then the
    replaced popup's ['closed'] listener runs and clears [popupWindow]. *)
Definition desynced : MainState :=
  run initial [AnalyzerPopupOpened; SpeechHotkey ready;
               WindowClosed PlainPopupClosed].

End Speech.

(* ================================================================== *)
(** ** JavaScript numbers and rectangles *)
(* ================================================================== *)

(** Mouse coordinates, window positions and scores are integers, whose
    sums, differences and halves are exact in doubles: there a JS
    [number] is modelled as the rational it stands for.  The quotients
    and products of the crop mapping and of the aspect-ratio heuristic
    are computed on doubles, by the module [JsNumber] below. *)
Definition number : Type := Q.

(** [{ x, y, width, height }] in CSS pixels. *)
Record Bounds : Type := mkBounds {
  x : number;
  y : number;
  width : number;
  height : number
}.

(** [Math.round]: nearest integer, ties towards +infinity. *)
Definition Math_round (q : number) : Z := Qfloor (q + (1 # 2))%Q.

(** [a >= b] on numbers. *)
Definition geb (a b : number) : bool := Qle_bool b a.

(* ================================================================== *)
(** ** Selection overlay ([src/pages/SelectionOverlay.tsx]) *)
(* ================================================================== *)

Module Overlay.

Record Point : Type := mkPoint { clientX : number; clientY : number }.

(** The three [useState] cells of the component. *)
Record State : Type := mkState {
  isSelecting : bool;
  startPoint : Point;
  currentPoint : Point
}.

Definition origin : Point := mkPoint 0%Q 0%Q.

Definition initial : State := mkState false origin origin.

(** [getSelectionBounds] *)
Definition getSelectionBounds (st : State) : Bounds :=
  mkBounds
    (Qmin (clientX (startPoint st)) (clientX (currentPoint st)))
    (Qmin (clientY (startPoint st)) (clientY (currentPoint st)))
    (Qabs (clientX (currentPoint st) - clientX (startPoint st))%Q)
    (Qabs (clientY (currentPoint st) - clientY (startPoint st))%Q).

(** [handleMouseDown] *)
Definition handleMouseDown (e : Point) (st : State) : State :=
  mkState true e e.

(** [handleMouseMove] *)
Definition handleMouseMove (e : Point) (st : State) : State :=
  if isSelecting st then mkState (isSelecting st) (startPoint st) e else st.

(** [handleMouseUp] (also bound to [onMouseLeave]): the new component state
    and the rectangle passed to [window.electronAPI.selectionMade], if that
    call is made.  The preload script always installs [electronAPI] in the
    overlay window, so the optional call is modelled as a call. *)
Definition handleMouseUp (st : State) : State * option Bounds :=
  if isSelecting st then
    let bounds := getSelectionBounds st in
    if geb (width bounds) 10%Q && geb (height bounds) 10%Q
    then (mkState false (startPoint st) (currentPoint st), Some bounds)
    else (mkState false origin origin, None)
  else (st, None).

(** A complete drag: button down at [p], pointer moved through [moves],
    button released.  React re-renders between the events, so each handler
    sees the state left by the previous one. *)
Definition drag (st : State) (p : Point) (moves : list Point)
  : State * option Bounds :=
  handleMouseUp
    (fold_left (fun s e => handleMouseMove e s) moves (handleMouseDown p st)).

End Overlay.

(* ================================================================== *)
(** ** JavaScript numbers as IEEE 754 doubles *)
(* ================================================================== *)

(** Where the code divides and multiplies (the scale factors of the crop
    mapping, the aspect ratios of the matching chain) the result depends
    on the rounding of each operation.  There a JS [number] is a binary64
    value of the Standard Library's [SpecFloat], with its operations. *)
Module JsNumber.

Definition prec : Z := 53.
Definition emax : Z := 1024.

Definition double : Type := spec_float.

(** The Number value of an integer. *)
Definition ofZ (z : Z) : double := binary_normalize prec emax z 0 false.

(** [a / b], [a * b], [a - b], [Math.abs(a)], [a < b] *)
Definition div : double -> double -> double := SFdiv prec emax.
Definition mul : double -> double -> double := SFmul prec emax.
Definition sub : double -> double -> double := SFsub prec emax.
Definition abs : double -> double := SFabs.
Definition ltb : double -> double -> bool := SFltb.

(** [Infinity] and the literal [0.1], the double nearest to one tenth. *)
Definition Infinity : double := S754_infinity false.
Definition oneTenth : double := S754_finite false 7205759403792794 (-56).

(** The Number value of a rational: numerator over denominator, rounded
    once ([SFdiv] takes mantissas of any size).  Every finite double is
    the Number value of the rational it stands for. *)
Definition ofQ (q : Q) : double :=
  match Qnum q with
  | Z0 => S754_zero false
  | Zpos n => div (S754_finite false n 0) (S754_finite false (Qden q) 0)
  | Zneg n => div (S754_finite true n 0) (S754_finite false (Qden q) 0)
  end.

(** [2 ^ e] for any integer [e]. *)
Definition pow2 (e : Z) : Q := (2 ^ e)%Q.

(** The rational a finite double stands for (0 for the others). *)
Definition toQ (d : double) : Q :=
  match d with
  | S754_finite s m e =>
      if s then (- (inject_Z (Zpos m) * pow2 e))%Q
      else (inject_Z (Zpos m) * pow2 e)%Q
  | _ => 0%Q
  end.

(** The values of the integer-valued expressions of the crop mapping:
    an integer, [Infinity], [-Infinity] or [NaN]. *)
Inductive rounded : Type :=
| Integer (z : Z)
| PosInfinity
| NegInfinity
| NotANumber.

(** [Math.round(d)]: the integer nearest to [d], the upper one of two;
    infinities and [NaN] are returned as they are. *)
Definition round (d : double) : rounded :=
  match d with
  | S754_nan => NotANumber
  | S754_infinity false => PosInfinity
  | S754_infinity true => NegInfinity
  | S754_zero _ => Integer 0
  | S754_finite _ _ _ => Integer (Qfloor (toQ d + (1 # 2))%Q)
  end.

(** [a <= b] and [a < b]: false as soon as one side is [NaN]. *)
Definition leb (a b : rounded) : bool :=
  match a, b with
  | NotANumber, _ | _, NotANumber => false
  | NegInfinity, _ => true
  | _, PosInfinity => true
  | Integer m, Integer n => m <=? n
  | _, _ => false
  end.

Definition lt (a b : rounded) : bool :=
  match a, b with
  | NotANumber, _ | _, NotANumber => false
  | PosInfinity, _ => false
  | _, NegInfinity => false
  | Integer m, Integer n => m <? n
  | _, _ => true
  end.

(** [Math.min(a, b)] and [Math.max(a, b)]: [NaN] as soon as one argument
    is. *)
Definition min (a b : rounded) : rounded :=
  match a, b with
  | NotANumber, _ | _, NotANumber => NotANumber
  | _, _ => if leb a b then a else b
  end.

Definition max (a b : rounded) : rounded :=
  match a, b with
  | NotANumber, _ | _, NotANumber => NotANumber
  | _, _ => if leb a b then b else a
  end.

(** [a - b] *)
Definition minus (a b : rounded) : rounded :=
  match a, b with
  | NotANumber, _ | _, NotANumber => NotANumber
  | Integer m, Integer n => Integer (m - n)
  | PosInfinity, PosInfinity | NegInfinity, NegInfinity => NotANumber
  | PosInfinity, _ => PosInfinity
  | NegInfinity, _ => NegInfinity
  | Integer _, PosInfinity => NegInfinity
  | Integer _, NegInfinity => PosInfinity
  end.

(** The largest integer up to which every integer is a double
    ([Number.MAX_SAFE_INTEGER]). *)
Definition MAX_SAFE_INTEGER : Z := 2 ^ 53 - 1.

(** *** Reading the rounding of [SpecFloat] *)

(** The record [(m, r, s)] that [SpecFloat] shifts to the right says
    where a rational lies in [[m, m + 1)]: on [m], below the middle, on
    it, or above it. *)
Definition located (mrs : shr_record) (v : Q) : Prop :=
  match shr_r mrs, shr_s mrs with
  | false, false => (v == inject_Z (shr_m mrs))%Q
  | false, true =>
      (inject_Z (shr_m mrs) < v /\ v < inject_Z (shr_m mrs) + (1 # 2))%Q
  | true, false => (v == inject_Z (shr_m mrs) + (1 # 2))%Q
  | true, true =>
      (inject_Z (shr_m mrs) + (1 # 2) < v /\ v < inject_Z (shr_m mrs) + 1)%Q
  end.

(** [d] is what the magnitude [R] with the sign [s] is rounded to: a
    canonical double within half a unit in the last place of [R], a zero
    when [R] is at most half the smallest double, an infinity when [R] is
    beyond the doubles. *)
Definition rounds (R : Q) (s : bool) (d : double) : Prop :=
  match d with
  | S754_nan => False
  | S754_zero s' => s' = s /\ (R <= pow2 (-1075))%Q
  | S754_finite s' m e =>
      s' = s /\ canonical_mantissa prec emax m e = true /\ e <= 971 /\
      (inject_Z (Zpos m) * pow2 e - pow2 (e - 1) <= R /\
       R <= inject_Z (Zpos m) * pow2 e + pow2 (e - 1))%Q
  | S754_infinity s' => s' = s /\ (pow2 1023 <= R)%Q
  end.

(** The magnitude of a double. *)
Definition mag (d : double) : Q :=
  match d with
  | S754_finite _ m e => (inject_Z (Zpos m) * pow2 e)%Q
  | _ => 0%Q
  end.

(** [M] is within the relative error [2 ^ -53] of [R], up to the
    absolute error [eta] of the smallest doubles. *)
Definition approx (eta R M : Q) : Prop :=
  (M - R <= (1 # 9007199254740992) * M + eta /\
   R - M <= (1 # 9007199254740992) * M + eta)%Q.

End JsNumber.

(* ================================================================== *)
(** ** Crop mapping ([captureScreenshot], [cropStoredScreenshot]) *)
(* ================================================================== *)

Module Crop.

Import JsNumber.

(** [{ width, height }] as returned by [NativeImage.getSize()] or stored
    in [selectionDisplayInfo.size]: integers. *)
Record Size : Type := mkSize { sw : Z; sh : Z }.

(** [selectionDisplayInfo] *)
Record DisplayInfo : Type := mkDisplayInfo {
  scaleFactor : number;
  boundsX : Z;
  boundsY : Z;
  size : Size;
  displayId : Z
}.

(** The argument of [NativeImage.crop]. *)
Record PixelRect : Type := mkPixelRect {
  safeX : rounded;
  safeY : rounded;
  safeWidth : rounded;
  safeHeight : rounded
}.

(** The scale / round / clamp block, textually the same in
    [captureScreenshot] and [cropStoredScreenshot]:
<<
  const scaleX = imageSize.width / displaySize.width
  const cropX = Math.round(bounds.x * scaleX)
  const cropWidth = Math.round(bounds.width * scaleX)
  const safeX = Math.max(0, Math.min(cropX, imageSize.width - 1))
  const safeWidth = Math.min(cropWidth, imageSize.width - safeX)
>>
    The quotient and the products are operations on doubles; what
    follows [Math.round] works on integers, where the doubles are exact
    (image dimensions are far below [2 ^ 53]). *)
Definition mapRect (bounds : Bounds) (displaySize imageSize : Size) : PixelRect :=
  let scaleX := div (ofZ (sw imageSize)) (ofZ (sw displaySize)) in
  let scaleY := div (ofZ (sh imageSize)) (ofZ (sh displaySize)) in
  let cropX := round (mul (ofQ (x bounds)) scaleX) in
  let cropY := round (mul (ofQ (y bounds)) scaleY) in
  let cropWidth := round (mul (ofQ (width bounds)) scaleX) in
  let cropHeight := round (mul (ofQ (height bounds)) scaleY) in
  let sX := max (Integer 0) (min cropX (Integer (sw imageSize - 1))) in
  let sY := max (Integer 0) (min cropY (Integer (sh imageSize - 1))) in
  let sWidth := min cropWidth (minus (Integer (sw imageSize)) sX) in
  let sHeight := min cropHeight (minus (Integer (sh imageSize)) sY) in
  mkPixelRect sX sY sWidth sHeight.

(** What ends up encoded: the whole thumbnail, or the thumbnail cropped to
    a rectangle. *)
Inductive Cropped : Type :=
| FullImage
| CropTo (r : PixelRect).

(** The crop step of [captureScreenshot]:
    [if (cropBounds && selectionDisplayInfo) { ... if (safeWidth > 0 &&
    safeHeight > 0) thumbnail = thumbnail.crop(...) }]. *)
Definition captureScreenshot_crop (cropBounds : option Bounds)
    (selectionDisplayInfo : option DisplayInfo) (imageSize : Size) : Cropped :=
  match cropBounds, selectionDisplayInfo with
  | Some b, Some info =>
      let r := mapRect b (size info) imageSize in
      if lt (Integer 0) (safeWidth r) && lt (Integer 0) (safeHeight r)
      then CropTo r else FullImage
  | _, _ => FullImage
  end.

(** [cropStoredScreenshot], with its three early returns of the stored
    full screenshot. *)
Definition cropStoredScreenshot (selectionDisplayInfo : option DisplayInfo)
    (imageSize : Size) (bounds : Bounds) : Cropped :=
  match selectionDisplayInfo with
  | None => FullImage
  | Some info =>
      if (sw imageSize =? 0) || (sh imageSize =? 0) then FullImage
      else
        let r := mapRect bounds (size info) imageSize in
        if leb (safeWidth r) (Integer 0) || leb (safeHeight r) (Integer 0)
        then FullImage
        else CropTo r
  end.

(** *** The mapping as the specification words it *)

(** A dimension of a display or of an image: a positive integer that a
    double holds exactly. *)
Definition dimension (n : Z) : Prop := 0 < n <= MAX_SAFE_INTEGER.

(** The double product of a field [v] of the rectangle with the double
    quotient of the image dimension by the display dimension. *)
Definition scaled (v : number) (imageDim displayDim : Z) : double :=
  SFmul 53 1024 (ofQ v) (SFdiv 53 1024 (ofZ imageDim) (ofZ displayDim)).

(** [n] is the integer nearest to [v], the upper one of two. *)
Definition nearestInteger (v : Q) (n : Z) : Prop :=
  (inject_Z n - (1 # 2) <= v /\ v < inject_Z n + (1 # 2))%Q.

(** [c] is the double [p] rounded to whole pixels; a product too large
    for a double is an infinity and stays one. *)
Definition roundedTo (p : double) (c : rounded) : Prop :=
  match p with
  | S754_nan => False
  | S754_infinity false => c = PosInfinity
  | S754_infinity true => c = NegInfinity
  | _ => exists n, c = Integer n /\ nearestInteger (toQ p) n
  end.

(** [c] is the field [v] multiplied by [imageDim / displayDim] and
    rounded to whole pixels: it is the double product rounded, and when
    it is an integer it is within a half, and the relative error
    [2 ^ -50] of the three roundings of doubles, of the exact product. *)
Definition scaledAndRounded (v : number) (imageDim displayDim : Z)
    (c : rounded) : Prop :=
  roundedTo (scaled v imageDim displayDim) c /\
  forall n, c = Integer n ->
    (Qabs (inject_Z n - v * (inject_Z imageDim / inject_Z displayDim))
     <= (1 # 2)
        + (1 # 1125899906842624)
          * Qabs (v * (inject_Z imageDim / inject_Z displayDim))
        + pow2 (-1019))%Q.

(** [o] is [c] clamped into [[0, d - 1]]. *)
Definition clampedOrigin (c : rounded) (d : Z) (o : Z) : Prop :=
  match c with
  | Integer n =>
      (n < 0 /\ o = 0) \/ (0 <= n <= d - 1 /\ o = n) \/ (d - 1 < n /\ o = d - 1)
  | PosInfinity => o = d - 1
  | NegInfinity => o = 0
  | NotANumber => False
  end.

(** [w] is [c] cut back to [room], what is left of the image after the
    origin. *)
Definition clampedSize (c : rounded) (room : Z) (w : rounded) : Prop :=
  match c with
  | Integer n => (n <= room /\ w = Integer n) \/ (room < n /\ w = Integer room)
  | PosInfinity => w = Integer room
  | NegInfinity => w = NegInfinity
  | NotANumber => False
  end.

(** A pixel rectangle lies inside the image [[0,0] x [w,h]]: its origin
    is a pixel of the image and its right and lower edges do not pass
    those of the image. *)
Definition inside (r : PixelRect) (imageSize : Size) : Prop :=
  exists px py,
    safeX r = Integer px /\ safeY r = Integer py /\
    0 <= px /\ 0 <= py /\
    leb (safeWidth r) (Integer (sw imageSize - px)) = true /\
    leb (safeHeight r) (Integer (sh imageSize - py)) = true.

(** The rectangle [{px, py, pw, ph}] of whole pixels. *)
Definition pixels (px py pw ph : Z) : PixelRect :=
  mkPixelRect (Integer px) (Integer py) (Integer pw) (Integer ph).

(** *** Sample inputs: a 1920x1080 display captured at scale factor 2 *)

Definition fullHD : DisplayInfo :=
  mkDisplayInfo 2%Q 0 0 (mkSize 1920 1080) 1.

Definition bitmap4K : Size := mkSize 3840 2160.

Definition regionRect : Bounds := mkBounds 100%Q 100%Q 200%Q 150%Q.

Definition overhangRect : Bounds := mkBounds 1900%Q 1000%Q 500%Q 500%Q.

(** *** Sample inputs: a 1920x1080 display whose thumbnail is 4096x2305,
    where the scaled [y] falls just below a half *)

Definition thumb4096 : Size := mkSize 4096 2305.

Definition tieRect : Bounds := mkBounds 100%Q 108%Q 200%Q 150%Q.

End Crop.

(* ================================================================== *)
(** ** JavaScript strings *)
(* ================================================================== *)

(** Strings are modelled over 8-bit characters, read as the code points
    U+0000 to U+00FF; the source ids, display names and patterns the code
    looks for are ASCII. *)
Module JsString.

Local Open Scope string_scope.

(** [s.includes(sub)] *)
Fixpoint includes (sub s : string) : bool :=
  prefix sub s ||
  match s with
  | EmptyString => false
  | String _ s' => includes sub s'
  end.

(** Lower case of one character: the letters [A] to [Z], and the capital
    letters U+00C0 to U+00DE of the Latin-1 block, among which U+00D7 is
    the multiplication sign and stays. *)
Definition lowerChar (c : ascii) : ascii :=
  let n := nat_of_ascii c in
  if ((Nat.leb 65 n && Nat.leb n 90)
      || (Nat.leb 192 n && Nat.leb n 222 && negb (Nat.eqb n 215)))%bool
  then ascii_of_nat (n + 32) else c.

(** [s.toLowerCase()] *)
Fixpoint toLowerCase (s : string) : string :=
  match s with
  | EmptyString => EmptyString
  | String c s' => String (lowerChar c) (toLowerCase s')
  end.

(** [n.toString()] / template interpolation of an integer-valued number. *)
Definition toString (n : Z) : string :=
  DecimalString.NilZero.string_of_int (Z.to_int n).

(** Value of a decimal digit, if the character is one ([\d]). *)
Definition digit (c : ascii) : option Z :=
  let n := nat_of_ascii c in
  if (Nat.leb 48 n && Nat.leb n 57)%bool then Some (Z.of_nat n - 48) else None.

(** The longest run of digits at the head of [s], read in base 10 on top
    of the accumulator [acc], and what follows it. *)
Fixpoint digitsFrom (acc : Z) (s : string) : Z * string :=
  match s with
  | EmptyString => (acc, s)
  | String c s' =>
      match digit c with
      | Some d => digitsFrom (10 * acc + d) s'
      | None => (acc, s)
      end
  end.

(** [\d+] at the head of [s]; [None] when [s] does not start with a digit. *)
Definition leadingNumber (s : string) : option (Z * string) :=
  match s with
  | EmptyString => None
  | String c _ =>
      match digit c with
      | Some _ => Some (digitsFrom 0 s)
      | None => None
      end
  end.

(** Strip [p] from the head of [s]. *)
Fixpoint stripPrefix (p s : string) : option string :=
  match p with
  | EmptyString => Some s
  | String a p' =>
      match s with
      | EmptyString => None
      | String b s' => if Ascii.eqb a b then stripPrefix p' s' else None
      end
  end.

(** The regular expression [/screen:(\d+):/] anchored at the head of [s]:
    [parseInt] of the captured group.  The digit run is taken maximal: a
    shorter run would be followed by a digit, not by [':']. *)
Definition screenNumberAt (s : string) : option Z :=
  match stripPrefix "screen:" s with
  | None => None
  | Some rest =>
      match leadingNumber rest with
      | Some (n, String c _) => if Ascii.eqb c ":" then Some n else None
      | _ => None
      end
  end.

(** [const match = s.match(/screen:(\d+):/)] followed by
    [parseInt(match[1], 10)]: the leftmost position where the expression
    matches. *)
Fixpoint screenNumber (s : string) : option Z :=
  match screenNumberAt s with
  | Some n => Some n
  | None =>
      match s with
      | EmptyString => None
      | String _ s' => screenNumber s'
      end
  end.

End JsString.

(* ================================================================== *)
(** ** Capture-source matching ([captureScreenshot]) *)
(* ================================================================== *)

Module Capture.

Import Crop.

(** [DesktopCapturerSource]: [display_id] is the empty string when the
    platform gives no correlation hint; [thumbnail] stands for
    [thumbnail.getSize()]. *)
Record Source : Type := mkSource {
  id : string;
  name : string;
  display_id : string;
  thumbnail : Size
}.

(** [Electron.Display], the fields the matcher reads. *)
Record Display : Type := mkDisplay {
  d_id : Z;
  d_size : Size
}.

(** [arr.findIndex(p)] *)
Fixpoint findIndex {A : Type} (p : A -> bool) (l : list A) : Z :=
  match l with
  | [] => -1
  | a :: l' =>
      if p a then 0
      else let r := findIndex p l' in if r <? 0 then -1 else r + 1
  end.

(** [arr[i]] for an integer [i]; [None] is [undefined]. *)
Definition item {A : Type} (l : list A) (i : Z) : option A :=
  if i <? 0 then None else nth_error l (Z.to_nat i).

(** The values [matchMethod] takes. *)
Inductive MatchMethod : Type :=
| DefaultFirstSource
| DisplayIdMatch
| SourceIdScreenNumber
| ArrayIndexSameCount
| PrimaryDisplayHeuristic
| ScreenName (displayNum : Z)
| AspectRatioMatch.

(** [matchMethod.startsWith('default')] *)
Definition startsWithDefault (m : MatchMethod) : bool :=
  match m with
  | DefaultFirstSource => true
  | _ => false
  end.

(** The two locals the matching code assigns. *)
Record Sel : Type := mkSel {
  targetSource : option Source;
  matchMethod : MatchMethod
}.

Definition nonEmpty (s : string) : bool := negb (String.eqb s EmptyString).

(** Method 1 predicate:
    [source.display_id && source.display_id.toString() === activeDisplay.id.toString()] *)
Definition displayIdMatches (activeDisplay : Display) (source : Source) : bool :=
  nonEmpty (display_id source) &&
  String.eqb (display_id source) (JsString.toString (d_id activeDisplay)).

(** Method 2 predicate. *)
Definition screenNumberMatches (activeDisplayIndex : Z) (source : Source) : bool :=
  match JsString.screenNumber (id source) with
  | Some screenNum => screenNum =? activeDisplayIndex
  | None => false
  end.

(** Method 4 predicates. *)
Definition primaryName (s : Source) : bool :=
  JsString.includes "Screen 1"%string (name s) ||
  JsString.includes "Entire Screen"%string (name s) ||
  JsString.includes "primary"%string (JsString.toLowerCase (name s)).

Definition secondaryName (displayNum : Z) (s : Source) : bool :=
  JsString.includes ("Screen " ++ JsString.toString displayNum)%string (name s).

(** [width / height], a quotient of doubles: [Infinity] for a height of
    0, [NaN] for [0 / 0]. *)
Definition aspect (s : Size) : JsNumber.double :=
  JsNumber.div (JsNumber.ofZ (sw s)) (JsNumber.ofZ (sh s)).

(** [Math.abs(thumbAspect - displayAspect)] *)
Definition aspectDiff (thumbAspect displayAspect : JsNumber.double)
  : JsNumber.double :=
  JsNumber.abs (JsNumber.sub thumbAspect displayAspect).

(** Body of the [for (const source of sources)] loop of method 5, on the
    pair [(bestMatch, bestDiff)].  A [diff] that is [NaN] is never
    [< bestDiff]. *)
Definition aspectStep (displayAspect : JsNumber.double)
    (acc : Source * JsNumber.double) (source : Source)
  : Source * JsNumber.double :=
  let thumbAspect := aspect (thumbnail source) in
  let diff := aspectDiff thumbAspect displayAspect in
  if JsNumber.ltb diff (snd acc) then (source, diff) else acc.

(** The loop, started on [sources[0]] and [Infinity]. *)
Definition aspectLoop (activeDisplay : Display) (first : Source)
    (sources : list Source) : Source * JsNumber.double :=
  fold_left (aspectStep (aspect (d_size activeDisplay))) sources
            (first, JsNumber.Infinity).

(** [bestDiff < 0.1] *)
Definition withinTolerance (bestDiff : JsNumber.double) : bool :=
  JsNumber.ltb bestDiff JsNumber.oneTenth.

(** How far the aspect ratio of a source's thumbnail is from that of the
    active display. *)
Definition aspectDistance (activeDisplay : Display) (source : Source)
  : JsNumber.double :=
  aspectDiff (aspect (thumbnail source)) (aspect (d_size activeDisplay)).

(** [d] is the distance of the aspect ratios of [thumb] and [display] as
    doubles give it: each quotient of width by height rounded to a
    double, and the absolute difference of these two doubles rounded to
    a double ([+0] when they are equal). *)
Definition distanceOfRatios (thumb display : Size) (d : JsNumber.double) : Prop :=
  exists a b : JsNumber.double,
    JsNumber.rounds (inject_Z (sw thumb) / inject_Z (sh thumb)) false a /\
    JsNumber.rounds (inject_Z (sw display) / inject_Z (sh display)) false b /\
    ((JsNumber.toQ a == JsNumber.toQ b)%Q /\ d = S754_zero false \/
     JsNumber.rounds (Qabs (JsNumber.toQ a - JsNumber.toQ b)) false d).

(** The aspect-ratio step as the specification words it: the source
    chosen is one of the sources, its aspect ratio is less than
    [tolerance] from the display's, and no source is nearer; no source
    is chosen only when none is less than [tolerance] away. *)
Definition nearestWithinTolerance (sources : list Source)
    (activeDisplay : Display) (tolerance : JsNumber.double)
    (chosen : option Source) : Prop :=
  match chosen with
  | Some s =>
      In s sources /\
      JsNumber.ltb (aspectDistance activeDisplay s) tolerance = true /\
      forall s', In s' sources ->
        JsNumber.ltb (aspectDistance activeDisplay s')
                     (aspectDistance activeDisplay s) = false
  | None =>
      forall s', In s' sources ->
        JsNumber.ltb (aspectDistance activeDisplay s') tolerance = false
  end.

Section Matching.

Variable sources : list Source.
Variable allDisplays : list Display.
Variable activeDisplay : Display.
Variable primaryDisplayId : Z.

(** [allDisplays.findIndex(d => d.id === activeDisplay.id)] *)
Definition activeDisplayIndex : Z :=
  findIndex (fun d => d_id d =? d_id activeDisplay) allDisplays.

(** Method 1 (unguarded: it runs first). *)
Definition method1 (sel : Sel) : Sel :=
  match find (displayIdMatches activeDisplay) sources with
  | Some source => mkSel (Some source) DisplayIdMatch
  | None => sel
  end.

(** Method 2 *)
Definition method2 (sel : Sel) : Sel :=
  if startsWithDefault (matchMethod sel) then
    match find (screenNumberMatches activeDisplayIndex) sources with
    | Some source => mkSel (Some source) SourceIdScreenNumber
    | None => sel
    end
  else sel.

(** Method 3 *)
Definition method3 (sel : Sel) : Sel :=
  if startsWithDefault (matchMethod sel)
     && (Z.of_nat (List.length sources) =? Z.of_nat (List.length allDisplays))
     && (0 <=? activeDisplayIndex)
  then mkSel (item sources activeDisplayIndex) ArrayIndexSameCount
  else sel.

(** Method 4.  For the primary display the branch always assigns:
    [sources.find(...) || sources[0]]. *)
Definition method4 (sel : Sel) : Sel :=
  if startsWithDefault (matchMethod sel) then
    if d_id activeDisplay =? primaryDisplayId then
      match find primaryName sources with
      | Some s => mkSel (Some s) PrimaryDisplayHeuristic
      | None => mkSel (item sources 0) PrimaryDisplayHeuristic
      end
    else
      let displayNum := activeDisplayIndex + 1 in
      match find (secondaryName displayNum) sources with
      | Some s => mkSel (Some s) (ScreenName displayNum)
      | None => sel
      end
  else sel.

(** Method 5 *)
Definition method5 (sel : Sel) : Sel :=
  if startsWithDefault (matchMethod sel) && (1 <? Z.of_nat (List.length sources)) then
    match item sources 0 with
    | Some first =>
        let '(bestMatch, bestDiff) := aspectLoop activeDisplay first sources in
        if withinTolerance bestDiff
        then mkSel (Some bestMatch) AspectRatioMatch
        else sel
    | None => sel
    end
  else sel.

(** The matching part of [captureScreenshot], from
    [if (sources.length === 0) throw ...] to the use of [targetSource].
    [None] stands for an exception (no sources, or [targetSource]
    undefined when it is dereferenced). *)
Definition captureScreenshot_targetSource : option Source :=
  if Z.of_nat (List.length sources) =? 0 then None
  else
    let sel := mkSel (item sources 0) DefaultFirstSource in
    let sel := method1 sel in
    let sel := method2 sel in
    let sel := method3 sel in
    let sel := method4 sel in
    let sel := method5 sel in
    targetSource sel.

(** *** The chain as the specification words it

    An ordered list of heuristics, each of which either names a source or
    fails; the first success wins, and the first enumerated source is the
    fallback. *)

Definition byDisplayId : option Source :=
  find (displayIdMatches activeDisplay) sources.

Definition byEmbeddedOrdinal : option Source :=
  find (screenNumberMatches activeDisplayIndex) sources.

Definition byPosition : option Source :=
  if (Z.of_nat (List.length sources) =? Z.of_nat (List.length allDisplays))
     && (0 <=? activeDisplayIndex)
  then item sources activeDisplayIndex
  else None.

(** The positional step as the specification words it: the source at the
    active display's index when the counts are equal. *)
Definition byEqualCount : option Source :=
  if Z.of_nat (List.length sources) =? Z.of_nat (List.length allDisplays)
  then item sources activeDisplayIndex
  else None.

(** Name matching proper: succeeds only when some source name matches. *)
Definition byNameOnly : option Source :=
  if d_id activeDisplay =? primaryDisplayId
  then find primaryName sources
  else find (secondaryName (activeDisplayIndex + 1)) sources.

(** Name matching as main.ts has it: on the primary display a missing name
    match is replaced by the first source, so the step never fails there. *)
Definition byNameOrFirst : option Source :=
  if d_id activeDisplay =? primaryDisplayId
  then match find primaryName sources with
       | Some s => Some s
       | None => item sources 0
       end
  else find (secondaryName (activeDisplayIndex + 1)) sources.

Definition byAspectRatio : option Source :=
  match item sources 0 with
  | Some first =>
      let '(bestMatch, bestDiff) := aspectLoop activeDisplay first sources in
      if withinTolerance bestDiff then Some bestMatch else None
  | None => None
  end.

Fixpoint firstSuccess (hs : list (option Source)) (fallback : option Source)
  : option Source :=
  match hs with
  | [] => fallback
  | Some s :: _ => Some s
  | None :: hs' => firstSuccess hs' fallback
  end.

(** The six-step chain of the specification. *)
Definition specChain : option Source :=
  firstSuccess
    [byDisplayId; byEmbeddedOrdinal; byPosition; byNameOnly; byAspectRatio]
    (item sources 0).

(** The chain main.ts implements. *)
Definition codeChain : option Source :=
  firstSuccess
    [byDisplayId; byEmbeddedOrdinal; byPosition; byNameOrFirst; byAspectRatio]
    (item sources 0).

End Matching.

(** *** Sample input: one (primary) 16:9 display, two capture sources

    Neither source carries a [display_id], neither id embeds ordinal 0,
    the counts differ, and neither name follows a primary-display pattern.
    Only the second thumbnail has the display's aspect ratio. *)

Definition onlyDisplay : Display := mkDisplay 1 (mkSize 1920 1080).

Definition sourceA : Source :=
  mkSource "screen:724:0" "Virtual Display" EmptyString (mkSize 1024 768).

Definition sourceB : Source :=
  mkSource "screen:725:0" "Monitor" EmptyString (mkSize 4096 2304).

(** *** Sample input: three displays, two capture sources

    The 1360x800 display is the active one and is not the primary one;
    the counts differ, and no display id, ordinal or name matches.  The
    second thumbnail, 4096x2560, has aspect ratio 1.6 against the
    display's 1.7: the difference of the two doubles is a little below
    [0.1]. *)

Definition mainDisplay : Display := mkDisplay 1 (mkSize 1920 1080).

Definition sideDisplay : Display := mkDisplay 2 (mkSize 1360 800).

Definition thirdDisplay : Display := mkDisplay 3 (mkSize 1280 1024).

Definition sourceC : Source :=
  mkSource "screen:724:0" "Virtual Display" EmptyString (mkSize 4096 3072).

Definition sourceD : Source :=
  mkSource "screen:725:0" "Monitor" EmptyString (mkSize 4096 2560).

(** *** Sample input: two displays, sources enumerated in the opposite
    order *)

Definition leftDisplay : Display := mkDisplay 2528732444 (mkSize 1920 1080).

Definition rightDisplay : Display := mkDisplay 2779098405 (mkSize 2560 1440).

(** With correlation hints. *)
Definition hintedRight : Source :=
  mkSource "screen:0:0" "Screen 1" "2779098405" (mkSize 4096 2304).

Definition hintedLeft : Source :=
  mkSource "screen:1:0" "Screen 2" "2528732444" (mkSize 4096 2304).

(** Without hints: only the ordinal in the id is left to go by. *)
Definition plainRight : Source :=
  mkSource "screen:1:0" "Screen 1" EmptyString (mkSize 4096 2304).

Definition plainLeft : Source :=
  mkSource "screen:0:0" "Screen 2" EmptyString (mkSize 4096 2304).

End Capture.

(* ================================================================== *)
(** ** Prompt analyzer ([analyzeScreenshotWithVision], [analyze-prompt]) *)
(* ================================================================== *)

Module Analyzer.

Local Open Scope string_scope.

(** JavaScript values that can flow through the analyzer: whatever
    [JSON.parse] builds, plus [undefined]. *)
Inductive jsval : Type :=
| VUndefined
| VNull
| VBool (b : bool)
| VNum (n : number)
| VStr (s : string)
| VArr (items : list jsval)
| VObj (props : list (string * jsval)).

(** Thrown values.  All three are instances of [Error] and carry a
    [message]; the wording of engine-raised messages is the engine's and is
    represented by a fixed text. *)
Inductive JsError : Type :=
| Error (msg : string)
| TypeError (msg : string)
| SyntaxError (msg : string).

Definition message (e : JsError) : string :=
  match e with
  | Error m | TypeError m | SyntaxError m => m
  end.

(** A computation that returns or throws. *)
Inductive Result (A : Type) : Type :=
| Ok (a : A)
| Throw (e : JsError).

Arguments Ok {A} a.
Arguments Throw {A} e.

Definition bind {A B : Type} (r : Result A) (k : A -> Result B) : Result B :=
  match r with
  | Ok a => k a
  | Throw e => Throw e
  end.

Notation "x <- r ;; k" := (bind r (fun x => k))
  (at level 61, r at next level, right associativity).

(** Own property [k] of an object built by [JSON.parse]. *)
Definition lookup (k : string) (props : list (string * jsval)) : jsval :=
  match find (fun kv => String.eqb (fst kv) k) props with
  | Some kv => snd kv
  | None => VUndefined
  end.

(** [v.k] for a name [k] that the built-in prototypes do not define
    ([choices], [message], [content], [prompt]). *)
Definition getProp (v : jsval) (k : string) : Result jsval :=
  match v with
  | VUndefined => Throw (TypeError "Cannot read properties of undefined")
  | VNull => Throw (TypeError "Cannot read properties of null")
  | VObj props => Ok (lookup k props)
  | _ => Ok VUndefined
  end.

(** [v[i]] *)
Definition getIndex (v : jsval) (i : nat) : Result jsval :=
  match v with
  | VUndefined => Throw (TypeError "Cannot read properties of undefined")
  | VNull => Throw (TypeError "Cannot read properties of null")
  | VArr items => Ok (nth i items VUndefined)
  | VStr s =>
      Ok match String.get i s with
         | Some c => VStr (String c EmptyString)
         | None => VUndefined
         end
  | VObj props => Ok (lookup (JsString.toString (Z.of_nat i)) props)
  | _ => Ok VUndefined
  end.

(** [v?.k] *)
Definition optProp (v : jsval) (k : string) : Result jsval :=
  match v with
  | VUndefined | VNull => Ok VUndefined
  | _ => getProp v k
  end.

(** Truthiness, as tested by [!content]. *)
Definition truthy (v : jsval) : bool :=
  match v with
  | VUndefined | VNull => false
  | VBool b => b
  | VNum n => negb (Qeq_bool n 0%Q)
  | VStr s => negb (String.eqb s EmptyString)
  | VArr _ | VObj _ => true
  end.

(** [data.choices[0]?.message?.content] *)
Definition contentOf (data : jsval) : Result jsval :=
  choices <- getProp data "choices" ;;
  first <- getIndex choices 0 ;;
  msg <- optProp first "message" ;;
  optProp msg "content".

(** Suffix of [s] that starts at its first ['{']. *)
Fixpoint fromFirstBrace (s : string) : option string :=
  match s with
  | EmptyString => None
  | String c s' => if Ascii.eqb c "{" then Some s else fromFirstBrace s'
  end.

(** Prefix of [s] that ends at its last ['}']. *)
Fixpoint toLastBrace (s : string) : option string :=
  match s with
  | EmptyString => None
  | String c s' =>
      match toLastBrace s' with
      | Some p => Some (String c p)
      | None => if Ascii.eqb c "}" then Some (String c EmptyString) else None
      end
  end.

(** [content.match(/\{[\s\S]*\}/)]: from the first ['{'] to the last ['}']
    after it (the star is greedy and [[\s\S]] matches every character). *)
Definition jsonMatch (content : string) : option string :=
  match fromFirstBrace content with
  | Some (String c rest) =>
      match toLastBrace rest with
      | Some p => Some (String c p)
      | None => None
      end
  | _ => None
  end.

(** The outcome of [fetch]: a rejection, or a response with [ok],
    [status] and its body text. *)
Inductive FetchOutcome : Type :=
| FetchRejected (e : JsError)
| Response (ok : bool) (status : Z) (body : string).

(** [pendingSelectionBounds], [selectionDisplayInfo],
    [selectionScreenshot], [selectionNativeImage]. *)
Record SelectionState : Type := mkSelection {
  pendingSelectionBounds : option Bounds;
  selectionDisplayInfo : option Crop.DisplayInfo;
  selectionScreenshot : option string;
  selectionNativeImage : option Crop.Size
}.

Definition cleared : SelectionState := mkSelection None None None None.

(** The envelope returned over IPC: [{ success: true, data }] or
    [{ success: false, error }]. *)
Inductive Envelope : Type :=
| Success (data : jsval)
| Failure (error : string).

(** Own enumerable properties, as copied by an object spread. *)
Definition indexed (vs : list jsval) : list (string * jsval) :=
  combine (map (fun i => JsString.toString (Z.of_nat i)) (seq 0 (List.length vs))) vs.

Definition chars (s : string) : list jsval :=
  map (fun c => VStr (String c EmptyString)) (list_ascii_of_string s).

Definition ownProps (v : jsval) : list (string * jsval) :=
  match v with
  | VObj props => props
  | VArr items => indexed items
  | VStr s => indexed (chars s)
  | _ => []
  end.

(** Assign property [k]: in place when the key exists, at the end otherwise. *)
Fixpoint setProp (k : string) (v : jsval) (props : list (string * jsval))
  : list (string * jsval) :=
  match props with
  | [] => [(k, v)]
  | (k', v') :: rest =>
      if String.eqb k' k then (k, v) :: rest else (k', v') :: setProp k v rest
  end.

(** The object returned by the [catch] block for string [content]. *)
Definition fallbackAnalysis (content : string) : jsval :=
  VObj [ ("prompt", VStr "Could not identify prompt");
         ("score", VNum 50%Q);
         ("feedback", VStr (substring 0 200 content));
         ("improvedPrompt", VStr EmptyString);
         ("refinedScore", VNum 50%Q) ].

Section Backend.

(** [JSON.parse]: [None] when it throws a [SyntaxError]. *)
Variable JSON_parse : string -> option jsval.

(** [DEFAULT_OPENROUTER_API_KEY] *)
Variable DEFAULT_OPENROUTER_API_KEY : string.

Definition parseJSON (s : string) : Result jsval :=
  match JSON_parse s with
  | Some v => Ok v
  | None => Throw (SyntaxError "Unexpected token in JSON")
  end.

(** Body of the [try] block:
<<
  const jsonMatch = content.match(/\{[\s\S]*\}/)
  if (jsonMatch) { return JSON.parse(jsonMatch[0]) }
  throw new Error('Could not parse AI response')
>> *)
Definition tryParse (content : jsval) : Result jsval :=
  match content with
  | VStr s =>
      match jsonMatch s with
      | Some m => parseJSON m
      | None => Throw (Error "Could not parse AI response")
      end
  | _ => Throw (TypeError "content.match is not a function")
  end.

(** Body of the [catch (e)] block: [content.substring(0, 200)] throws in
    turn when [content] is not a string. *)
Definition catchParse (content : jsval) : Result jsval :=
  match content with
  | VStr s => Ok (fallbackAnalysis s)
  | _ => Throw (TypeError "content.substring is not a function")
  end.

(** [analyzeScreenshotWithVision], from the resolution of [fetch] on. *)
Definition analyzeScreenshotWithVision (resp : FetchOutcome) : Result jsval :=
  match resp with
  | FetchRejected e => Throw e
  | Response ok status body =>
      if negb ok then
        Throw (Error ("OpenRouter API error: " ++ JsString.toString status
                        ++ " - " ++ body))
      else
        data <- parseJSON body ;;
        content <- contentOf data ;;
        if negb (truthy content) then Throw (Error "No response from AI")
        else
          match tryParse content with
          | Ok v => Ok v
          | Throw _ => catchParse content
          end
  end.

(** [customApiKey || DEFAULT_OPENROUTER_API_KEY] *)
Definition apiKey (customApiKey : option string) : string :=
  match customApiKey with
  | Some k => if String.eqb k EmptyString then DEFAULT_OPENROUTER_API_KEY else k
  | None => DEFAULT_OPENROUTER_API_KEY
  end.

(** [!apiKey || apiKey === 'YOUR_DEFAULT_API_KEY_HERE'] *)
Definition noApiKey (key : string) : bool :=
  String.eqb key EmptyString || String.eqb key "YOUR_DEFAULT_API_KEY_HERE".

(** [{ ...analysis, screenText: analysis.prompt }] *)
Definition withScreenText (analysis : jsval) : Result jsval :=
  prompt <- getProp analysis "prompt" ;;
  Ok (VObj (setProp "screenText" prompt (ownProps analysis))).

(** The [analyze-prompt] handler.  [screenshot] is the outcome of
    whichever of [cropStoredScreenshot] / [captureScreenshot] the handler
    calls; [resp] is consulted only when a screenshot was obtained. *)
Definition analyzePrompt (customApiKey : option string) (st : SelectionState)
    (screenshot : Result string) (resp : FetchOutcome)
  : Envelope * SelectionState :=
  if noApiKey (apiKey customApiKey) then
    (Failure "No API key configured. Please contact the developer or set your own OpenRouter API key.",
     st)
  else
    let body :=
      _ <- screenshot ;;
      analysis <- analyzeScreenshotWithVision resp ;;
      withScreenText analysis in
    match body with
    | Ok data => (Success data, cleared)
    | Throw e => (Failure (message e), cleared)
    end.

(** The backend answered with valid JSON in which
    [choices[0].message.content] is missing. *)
Definition missingContent (data : jsval) : Prop :=
  forall v, contentOf data = Ok v -> v = VUndefined.

(** The three malformed answers of the specification: an HTTP error
    status, a body that is not JSON, a JSON body without the expected
    fields. *)
Definition malformed (resp : FetchOutcome) : Prop :=
  match resp with
  | FetchRejected _ => False
  | Response ok status body =>
      ok = false \/
      JSON_parse body = None \/
      (exists data, JSON_parse body = Some data /\ missingContent data)
  end.

(** No substring of [text] parses as JSON: the text contains no parsable
    JSON object. *)
Definition noParsableJSON (text : string) : Prop :=
  forall i n, JSON_parse (substring i n text) = None.

(** What the code can observe of that: the span its regular expression
    extracts, if any, does not parse. *)
Definition spanUnparsable (text : string) : Prop :=
  forall m, jsonMatch text = Some m -> JSON_parse m = None.

End Backend.

(** *** Sample backend answers *)

Definition quoted (s : string) : string :=
  String (ascii_of_nat 34) (s ++ String (ascii_of_nat 34) EmptyString).

(** A chat completion whose message content is plain prose. *)
Definition proseAnswer : string := "Looks fine to me".

Definition proseBody : string :=
  "{" ++ quoted "choices" ++ ":[{" ++ quoted "message" ++ ":{"
      ++ quoted "content" ++ ":" ++ quoted proseAnswer ++ "}}]}".

Definition proseData : jsval :=
  VObj [("choices",
         VArr [VObj [("message", VObj [("content", VStr proseAnswer)])]])].

(** A JSON body without [choices]. *)
Definition emptyObjectBody : string := "{}".

(** [JSON.parse] restricted to the sample bodies; everything else here is
    text that is not JSON. *)
Definition sampleParse (s : string) : option jsval :=
  if String.eqb s proseBody then Some proseData
  else if String.eqb s emptyObjectBody then Some (VObj [])
  else None.

End Analyzer.

(* ================================================================== *)
(** ** Runs of the speech controller *)
(* ================================================================== *)

Module SpeechRun.

Import Speech.

(** A speech popup referenced by [popupWindow] carries the current value
    of [speechPopupGen] in its ['closed'] listener. *)
Definition currentPopupIsLatest (st : MainState) : Prop :=
  forall w g,
    popupWindow st = Some w ->
    onClosed w = SpeechPopupClosed g ->
    g = speechPopupGen st.

(** The speech hotkey replaces the open popup [w], and then the ['closed']
    event of [w] is delivered. *)
Definition replacedThenClosed (env : PressEnv) (w : Win) (st : MainState)
  : MainState :=
  runClosedHandler (onClosed w) (fst (handleSpeechShortcutPress env st)).

(** The IPC calls and events after which [isSpeechRecording] is [false]
    whatever it was before. *)
Definition endsRecording (e : Event) : bool :=
  match e with
  | IpcTypeSpeechResult | IpcClosePopup | IpcUnregisterSpeechShortcut => true
  | _ => false
  end.

End SpeechRun.

(* ================================================================== *)
(** ** More JavaScript string operations *)
(* ================================================================== *)

Module JsText.

(** White space removed by [trim], among 8-bit characters: tab, line
    feed, vertical tab, form feed, carriage return, space and the
    no-break space U+00A0. *)
Definition isWhiteSpace (c : ascii) : bool :=
  let n := nat_of_ascii c in
  (Nat.leb 9 n && Nat.leb n 13) || Nat.eqb n 32 || Nat.eqb n 160.

(** [s.trimStart()] *)
Fixpoint trimStart (s : string) : string :=
  match s with
  | EmptyString => EmptyString
  | String c s' => if isWhiteSpace c then trimStart s' else s
  end.

(** [s.trimEnd()] *)
Fixpoint trimEnd (s : string) : string :=
  match s with
  | EmptyString => EmptyString
  | String c s' =>
      match trimEnd s' with
      | EmptyString => if isWhiteSpace c then EmptyString else String c EmptyString
      | t => String c t
      end
  end.

(** [s.trim()] *)
Definition trim (s : string) : string := trimEnd (trimStart s).

(** [s.split(sep)] for a one-character separator. *)
Fixpoint split (sep : ascii) (s : string) : list string :=
  match s with
  | EmptyString => [EmptyString]
  | String c s' =>
      if Ascii.eqb c sep then EmptyString :: split sep s'
      else match split sep s' with
           | h :: t => String c h :: t
           | [] => [String c EmptyString]
           end
  end.

(** [parts.join(sep)] for a one-character separator. *)
Fixpoint join (sep : ascii) (parts : list string) : string :=
  match parts with
  | [] => EmptyString
  | [a] => a
  | a :: rest => (a ++ String sep (join sep rest))%string
  end.

(** [c] does not occur in [s]. *)
Fixpoint lacks (c : ascii) (s : string) : bool :=
  match s with
  | EmptyString => true
  | String a s' => negb (Ascii.eqb a c) && lacks c s'
  end.

End JsText.

(* ================================================================== *)
(** ** Key of a shortcut ([VK], [MODIFIER_NAMES], [shortcutMainVK]) *)
(* ================================================================== *)

Module Keys.

Local Open Scope string_scope.

(** [String.fromCharCode(n)] for an 8-bit code. *)
Definition fromCharCode (n : nat) : string := String (ascii_of_nat n) EmptyString.

(** The three generated ranges of [VK]: [a]-[z], [0]-[9], [f1]-[f24]. *)
Definition letterKeys : list (string * Z) :=
  map (fun i => (fromCharCode (97 + i), 0x41 + Z.of_nat i)%Z) (seq 0 26).

Definition digitKeys : list (string * Z) :=
  map (fun i => (JsString.toString (Z.of_nat i), 0x30 + Z.of_nat i)%Z) (seq 0 10).

Definition functionKeys : list (string * Z) :=
  map (fun i => ("f" ++ JsString.toString (Z.of_nat i + 1), 0x70 + Z.of_nat i)%Z)
      (seq 0 24).

(** The literal entries of [VK]. *)
Definition namedKeys : list (string * Z) :=
  [ ("space", 0x20); ("enter", 0x0D); ("return", 0x0D); ("tab", 0x09);
    ("escape", 0x1B); ("backspace", 0x08);
    ("delete", 0x2E); ("insert", 0x2D); ("home", 0x24); ("end", 0x23);
    ("pageup", 0x21); ("pagedown", 0x22);
    ("up", 0x26); ("down", 0x28); ("left", 0x25); ("right", 0x27);
    (",", 0xBC); (".", 0xBE); ("/", 0xBF); (";", 0xBA); ("'", 0xDE);
    ("[", 0xDB); ("]", 0xDD);
    ("\", 0xDC); ("-", 0xBD); ("=", 0xBB); ("`", 0xC0);
    ("numpad0", 0x60); ("numpad1", 0x61); ("numpad2", 0x62); ("numpad3", 0x63);
    ("numpad4", 0x64); ("numpad5", 0x65); ("numpad6", 0x66); ("numpad7", 0x67);
    ("numpad8", 0x68); ("numpad9", 0x69);
    ("numpadadd", 0x6B); ("numpadsubtract", 0x6D); ("numpadmultiply", 0x6A);
    ("numpaddivide", 0x6F); ("numpaddecimal", 0x6E) ]%Z.

(** [VK]: the own properties of the object literal. *)
Definition VK : list (string * Z) :=
  letterKeys ++ digitKeys ++ functionKeys ++ namedKeys.

Definition ownVK (k : string) : option Z :=
  match find (fun kv => String.eqb (fst kv) k) VK with
  | Some kv => Some (snd kv)
  | None => None
  end.

(** Lower-case names that [VK] inherits from [Object.prototype]: looking
    them up yields a function or an object, not [undefined]. *)
Definition inheritedName (k : string) : bool :=
  String.eqb k "constructor" || String.eqb k "__proto__".

(** [MODIFIER_NAMES] *)
Definition MODIFIER_NAMES : list string :=
  [ "ctrl"; "control"; "alt"; "shift"; "super"; "meta"; "command";
    "commandorcontrol"; "cmdorctrl" ].

(** [MODIFIER_NAMES.has(p)] *)
Definition isModifier (p : string) : bool :=
  existsb (String.eqb p) MODIFIER_NAMES.

(** What [shortcutMainVK] returns: a key code, [null], or (for an
    inherited name) a value that is neither. *)
Inductive MainVK : Type :=
| Code (vk : Z)
| Null
| Inherited.

(** [VK[main] ?? null] *)
Definition lookupVK (main : string) : MainVK :=
  match ownVK main with
  | Some vk => Code vk
  | None => if inheritedName main then Inherited else Null
  end.

(** [shortcut.toLowerCase().split('+').map(s => s.trim())] *)
Definition shortcutParts (shortcut : string) : list string :=
  map JsText.trim (JsText.split "+" (JsString.toLowerCase shortcut)).

(** [shortcutMainVK]:
<<
  const main = parts.find(p => !MODIFIER_NAMES.has(p))
  return main ? VK[main] ?? null : null
>> *)
Definition shortcutMainVK (shortcut : string) : MainVK :=
  match find (fun p => negb (isModifier p)) (shortcutParts shortcut) with
  | Some main => if String.eqb main EmptyString then Null else lookupVK main
  | None => Null
  end.

(** What [handleSpeechShortcutPress] reads from its surroundings:
    [isWhisperModelDownloaded()], and
    [vk !== null && process.platform === 'win32'] for
    [vk = shortcutMainVK(currentSpeechShortcut || '')]. *)
Definition pressEnv (downloaded win32 : bool) (currentSpeechShortcut : option string)
  : Speech.PressEnv :=
  let shortcut := match currentSpeechShortcut with
                  | Some s => s
                  | None => EmptyString
                  end in
  Speech.mkEnv downloaded
    (match shortcutMainVK shortcut with Null => false | _ => true end && win32).

(** A part of a shortcut as the parser sees it. *)
Definition normalized (part : string) : string :=
  JsText.trim (JsString.toLowerCase part).

End Keys.

(* ================================================================== *)
(** ** Where popups are placed ([create*PopupWindow],
       [createAnalyzerPickerWindow], [resize-speech-popup]) *)
(* ================================================================== *)

Module Placement.

(** [Electron.Point] and [Electron.Rectangle]: integer screen
    coordinates. *)
Record Point : Type := mkPoint { px : Z; py : Z }.

Record Rectangle : Type := mkRect { rx : Z; ry : Z; rwidth : Z; rheight : Z }.

(** The two corrections applied on each axis:
<<
  if (x < bounds.x) x = bounds.x + 10
  if (x + popupWidth > bounds.x + bounds.width)
    x = bounds.x + bounds.width - popupWidth - 10
>> *)
Definition keepOnAxis (lo extent size v : Z) : Z :=
  let v1 := if v <? lo then lo + 10 else v in
  if lo + extent <? v1 + size then lo + extent - size - 10 else v1.

(** A popup of the given size, horizontally centred on the cursor and
    with its top [above] pixels above it, then corrected on both axes. *)
Definition nearCursor (popupWidth popupHeight : Z) (above : number)
    (cursorPoint : Point) (bounds : Rectangle) : Point :=
  let x := Math_round (inject_Z (px cursorPoint) - inject_Z popupWidth / 2)%Q in
  let y := Math_round (inject_Z (py cursorPoint) - above)%Q in
  mkPoint (keepOnAxis (rx bounds) (rwidth bounds) popupWidth x)
          (keepOnAxis (ry bounds) (rheight bounds) popupHeight y).

(** [createPopupWindow]: 450 x 520, [y = Math.round(cursorPoint.y - 20)]. *)
Definition createPopupWindow_position : Point -> Rectangle -> Point :=
  nearCursor 450 520 20%Q.

(** [createImagePopupWindow]: 520 x 580. *)
Definition createImagePopupWindow_position : Point -> Rectangle -> Point :=
  nearCursor 520 580 20%Q.

(** [createTextGrabPopupWindow]: 480 x 520. *)
Definition createTextGrabPopupWindow_position : Point -> Rectangle -> Point :=
  nearCursor 480 520 20%Q.

(** [createAnalyzerPickerWindow]: 340 x 300,
    [y = Math.round(cursorPoint.y - popupHeight / 2)]. *)
Definition createAnalyzerPickerWindow_position : Point -> Rectangle -> Point :=
  nearCursor 340 300 (inject_Z 300 / 2)%Q.

(** [Math.round(bounds.x + (bounds.width - width) / 2)] *)
Definition centredX (bounds : Rectangle) (width : Z) : Z :=
  Math_round (inject_Z (rx bounds) + (inject_Z (rwidth bounds) - inject_Z width) / 2)%Q.

(** [createSpeechPopupWindow]: 200 x 28, centred at the bottom of the
    display, [y = workArea.y + workArea.height - popupHeight - 28]. *)
Definition createSpeechPopupWindow_position (bounds workArea : Rectangle) : Point :=
  mkPoint (centredX bounds 200) (ry workArea + rheight workArea - 28 - 28).

(** [resize-speech-popup]: the bounds passed to [setBounds]. *)
Definition resizeSpeechPopup_bounds (bounds workArea : Rectangle)
    (width height : Z) : Rectangle :=
  mkRect (centredX bounds width) (ry workArea + rheight workArea - height - 40)
         width height.

(** The window [{x, y}] of the given size lies on the display. *)
Definition onDisplay (p : Point) (width height : Z) (bounds : Rectangle) : Prop :=
  rx bounds <= px p /\ px p + width <= rx bounds + rwidth bounds /\
  ry bounds <= py p /\ py p + height <= ry bounds + rheight bounds.

End Placement.

(* ================================================================== *)
(** ** Score history ([loadScores], [saveScore], [save-score]) *)
(* ================================================================== *)

Module Scores.

(** One element of [prompt-scores.json]. *)
Record ScoreEntry : Type := mkEntry {
  timestamp : string;
  userScore : number;
  refinedScore : number
}.

(** What [loadScores] can find on disk: no file, a file that cannot be
    read or parsed, JSON that is not an array, or an array of entries. *)
Inductive ScoresFile : Type :=
| Missing
| Unreadable
| NotAnArray
| Stored (scores : list ScoreEntry).

(** [loadScores]: the array in the file, and [[]] in every other case. *)
Definition loadScores (file : ScoresFile) : list ScoreEntry :=
  match file with
  | Stored scores => scores
  | _ => []
  end.

(** [l.slice(-n)] *)
Definition sliceLast {A : Type} (n : nat) (l : list A) : list A :=
  skipn (List.length l - n) l.

(** How [fs.writeFileSync] ends: the file holds the data it was given, or
    the call throws.  The file is truncated when it is opened, so after a
    failed write it holds whatever the failure left there: the old
    content, nothing, or a part of the new content that does not parse. *)
Inductive WriteOutcome : Type :=
| Written
| WriteFailed (leftOnDisk : ScoresFile).

(** [saveScore]: the file afterwards.  [now] is
    [new Date().toISOString()]; an exception of [fs.writeFileSync] is
    logged and goes no further. *)
Definition saveScore (write : WriteOutcome) (now : string) (file : ScoresFile)
    (userScore refinedScore : number) : ScoresFile :=
  let scores := loadScores file ++ [mkEntry now userScore refinedScore] in
  let trimmedScores := sliceLast 1000 scores in
  match write with
  | Written => Stored trimmedScores
  | WriteFailed leftOnDisk => leftOnDisk
  end.

(** [ipcMain.handle('save-score', ...)]:
    [saveScore(Math.round(userScore), Math.round(refinedScore))]. *)
Definition save_score (write : WriteOutcome) (now : string) (file : ScoresFile)
    (userScore refinedScore : number) : ScoresFile :=
  saveScore write now file
    (inject_Z (Math_round userScore)) (inject_Z (Math_round refinedScore)).

End Scores.

(* ================================================================== *)
(** ** Blocked hosts ([buildHostEntries]) *)
(* ================================================================== *)

Module Vibe.

Local Open Scope string_scope.

(** Remove [p] from the head of [s] when it is there. *)
Definition stripOptional (p s : string) : string :=
  match JsString.stripPrefix p s with
  | Some rest => rest
  | None => s
  end.

(** [site.replace(/^(https?:\/\/)?(www\.)?/, '')] *)
Definition stripSchemeAndWww (site : string) : string :=
  let afterScheme :=
    match JsString.stripPrefix "https://" site with
    | Some rest => rest
    | None => stripOptional "http://" site
    end in
  stripOptional "www." afterScheme.

(** Line terminators, which [.] does not match: line feed and carriage
    return among 8-bit characters. *)
Definition isLineTerminator (c : ascii) : bool :=
  let n := nat_of_ascii c in Nat.eqb n 10 || Nat.eqb n 13.

Fixpoint singleLine (s : string) : bool :=
  match s with
  | EmptyString => true
  | String c s' => negb (isLineTerminator c) && singleLine s'
  end.

(** [s.replace(/\/.*$/, '')]: cut at the leftmost ['/'] that is followed
    by no line terminator up to the end of the string. *)
Fixpoint cutPath (s : string) : string :=
  match s with
  | EmptyString => EmptyString
  | String c s' =>
      if Ascii.eqb c "/" && singleLine s' then EmptyString
      else String c (cutPath s')
  end.

(** The [domain] computed for one site. *)
Definition domainOf (site : string) : string :=
  JsString.toLowerCase (JsText.trim (cutPath (stripSchemeAndWww site))).

(** The entries pushed for one site. *)
Definition entriesFor (site : string) : list string :=
  let domain := domainOf site in
  if String.eqb domain EmptyString then []
  else ("0.0.0.0 " ++ domain)
         :: (if prefix "www." domain then [] else ["0.0.0.0 www." ++ domain]).

(** [buildHostEntries] *)
Definition buildHostEntries (sites : list string) : list string :=
  flat_map entriesFor sites.

(** A domain as a user would type it: not blank, no path, no surrounding
    white space, in lower case, without the [www.] prefix. *)
Definition plainDomain (d : string) : Prop :=
  d <> EmptyString /\
  JsText.lacks "/" d = true /\
  JsText.trim d = d /\
  JsString.toLowerCase d = d /\
  prefix "www." d = false.

End Vibe.

(* ================================================================== *)
(** ** API key, OCR and chat-completion handlers *)
(* ================================================================== *)

Module Handlers.

Import Analyzer.
Local Open Scope string_scope.

(** [ipcMain.handle('set-api-key', ...)]: the new [customApiKey],
    [apiKey.trim() || null]. *)
Definition set_api_key (apiKey : string) : option string :=
  let t := JsText.trim apiKey in
  if String.eqb t EmptyString then None else Some t.

(** [ipcMain.handle('get-api-key', ...)]: [customApiKey || '']. *)
Definition get_api_key (customApiKey : option string) : string :=
  match customApiKey with
  | Some k => k
  | None => EmptyString
  end.

(** [extractTextFromImage]; [ocr] is the outcome of decoding the image
    and running [recognize] on it ([data.text], or an exception). *)
Definition extractTextFromImage (ocr : Result string) : Result jsval :=
  recognized <- ocr ;;
  let text := JsText.trim recognized in
  if String.eqb text EmptyString
  then Ok (VObj [("text", VStr "[No text found]")])
  else Ok (VObj [("text", VStr text)]).

(** The [extract-text] handler; [screenshot] as in [analyzePrompt]. *)
Definition extract_text (st : SelectionState) (screenshot : Result string)
    (ocr : Result string) : Envelope * SelectionState :=
  let body := _ <- screenshot ;; extractTextFromImage ocr in
  match body with
  | Ok data => (Success data, cleared)
  | Throw e => (Failure (message e), cleared)
  end.

(** The [cancel-selection] handler, on the selection fields. *)
Definition cancel_selection (st : SelectionState) : SelectionState := cleared.

(** Where an analysis handler takes its image from. *)
Inductive ScreenshotSource : Type :=
| CropStored (stored : string) (bounds : Bounds)
| FreshCapture (bounds : option Bounds) (displayId : option Z).

(** The choice made by [analyze-prompt], [analyze-image-with-selection]
    and [extract-text]:
<<
  if (selectionScreenshot && bounds) cropStoredScreenshot(selectionScreenshot, bounds)
  else captureScreenshot(bounds || undefined, selectionDisplayInfo?.displayId)
>> *)
Definition screenshotSource (st : SelectionState) : ScreenshotSource :=
  let displayId := option_map Crop.displayId (selectionDisplayInfo st) in
  match selectionScreenshot st, pendingSelectionBounds st with
  | Some stored, Some bounds =>
      if String.eqb stored EmptyString
      then FreshCapture (Some bounds) displayId
      else CropStored stored bounds
  | _, bounds => FreshCapture bounds displayId
  end.

Section Completions.

Variable JSON_parse : string -> option jsval.
Variable DEFAULT_OPENROUTER_API_KEY : string.

(** The part that [refine-image-description] and [generate-ai-context]
    have in common, from the resolution of [fetch] to the test of
    [content]. *)
Definition completionContent (resp : FetchOutcome) : Result jsval :=
  match resp with
  | FetchRejected e => Throw e
  | Response ok status body =>
      if negb ok then
        Throw (Error ("API error: " ++ JsString.toString status ++ " - " ++ body))
      else
        data <- parseJSON JSON_parse body ;;
        content <- contentOf data ;;
        if negb (truthy content) then Throw (Error "No response from AI")
        else Ok content
  end.

(** The [refine-image-description] handler. *)
Definition refine_image_description (customApiKey : option string)
    (resp : FetchOutcome) : Envelope :=
  if noApiKey (apiKey DEFAULT_OPENROUTER_API_KEY customApiKey)
  then Failure "No API key configured."
  else match completionContent resp with
       | Ok content => Success (VObj [("description", content)])
       | Throw e => Failure (message e)
       end.

(** The [generate-ai-context] handler; [prompts] stands for the array it
    is given ([None] for a missing one), of which only the length
    matters for the outcome. *)
Definition generate_ai_context (customApiKey : option string)
    (prompts : option nat) (resp : FetchOutcome) : Envelope :=
  if noApiKey (apiKey DEFAULT_OPENROUTER_API_KEY customApiKey)
  then Failure "No API key configured."
  else match prompts with
       | None | Some O => Failure "No prompts in this session."
       | Some (S _) =>
           match completionContent resp with
           | Ok content => Success content
           | Throw e => Failure (message e)
           end
       end.

(** The backend answered with status ok and a JSON body whose
    [choices[0].message.content] is the truthy value [content]. *)
Definition answers (resp : FetchOutcome) (content : jsval) : Prop :=
  exists status body data,
    resp = Response true status body /\
    JSON_parse body = Some data /\
    contentOf data = Ok content /\
    truthy content = true.

End Completions.

End Handlers.

(* ================================================================== *)
(** ** The display a capture is taken from ([captureScreenshot]) *)
(* ================================================================== *)

Module ActiveDisplay.

Import Capture.

(** The choice of [activeDisplay]:
<<
  if (targetDisplayId !== undefined)
    activeDisplay = allDisplays.find(d => d.id === targetDisplayId) || allDisplays[0]
  else
    activeDisplay = screen.getDisplayNearestPoint(cursorPoint)
>>
    [nearest] is what [getDisplayNearestPoint] answers; [None] is
    [undefined] (no display enumerated). *)
Definition resolveActiveDisplay (targetDisplayId : option Z)
    (allDisplays : list Display) (nearest : Display) : option Display :=
  match targetDisplayId with
  | Some wanted =>
      match find (fun d => d_id d =? wanted) allDisplays with
      | Some d => Some d
      | None => item allDisplays 0
      end
  | None => Some nearest
  end.

End ActiveDisplay.

(* ================================================================== *)
(** ** Opening the overlay ([createSelectionOverlay], [selection-made]) *)
(* ================================================================== *)

Module Session.

Import Analyzer Handlers.

(** [Electron.Display] as [createSelectionOverlay] reads it. *)
Record ElectronDisplay : Type := mkElectronDisplay {
  id : Z;
  bounds : Placement.Rectangle;
  scaleFactor : number
}.

(** How the call [captureScreenshot(undefined, activeDisplay.id)] made by
    [createSelectionOverlay] ends: with an exception raised before
    [selectionNativeImage] is assigned, or with the data URL, the
    thumbnail having been stored in [selectionNativeImage] on the way. *)
Inductive PreCapture : Type :=
| CaptureThrew
| Captured (dataUrl : string) (thumbnail : Crop.Size).

(** [activeDisplay.scaleFactor || 1] *)
Definition scaleFactorOr1 (f : number) : number :=
  if Qeq_bool f 0%Q then 1%Q else f.

(** The selection fields after [createSelectionOverlay]. *)
Definition createSelectionOverlay (activeDisplay : ElectronDisplay)
    (capture : PreCapture) (st : SelectionState) : SelectionState :=
  let info :=
    Crop.mkDisplayInfo (scaleFactorOr1 (scaleFactor activeDisplay))
      (Placement.rx (bounds activeDisplay)) (Placement.ry (bounds activeDisplay))
      (Crop.mkSize (Placement.rwidth (bounds activeDisplay))
                   (Placement.rheight (bounds activeDisplay)))
      (id activeDisplay) in
  match capture with
  | Captured screenshot thumbnail =>
      if Nat.ltb 100 (String.length screenshot)
      then mkSelection (pendingSelectionBounds st) (Some info)
                       (Some screenshot) (Some thumbnail)
      else mkSelection (pendingSelectionBounds st) (Some info) None None
  | CaptureThrew =>
      mkSelection (pendingSelectionBounds st) (Some info) None None
  end.

(** The [selection-made] handler, on the selection fields:
    [pendingSelectionBounds = bounds]. *)
Definition selection_made (bounds : Bounds) (st : SelectionState) : SelectionState :=
  mkSelection (Some bounds) (selectionDisplayInfo st)
              (selectionScreenshot st) (selectionNativeImage st).

(** *** A reply that wraps an empty object in prose *)

Definition wrappedAnswer : string := "Sure: {} done".

Definition wrappedBody : string :=
  ("{" ++ quoted "choices" ++ ":[{" ++ quoted "message" ++ ":{"
       ++ quoted "content" ++ ":" ++ quoted wrappedAnswer ++ "}}]}")%string.

Definition wrappedData : jsval :=
  VObj [("choices"%string,
         VArr [VObj [("message"%string,
                      VObj [("content"%string, VStr wrappedAnswer)])]])].

(** [JSON.parse] restricted to this body and to the text [{}]. *)
Definition wrappedParse (s : string) : option jsval :=
  if String.eqb s wrappedBody then Some wrappedData
  else if String.eqb s "{}" then Some (VObj [])
  else None.

End Session.

(* ================================================================== *)
(** ** [analyze-prompt] around its [await]s *)
(* ================================================================== *)

(** [analyze-prompt] is an [async] handler: between its first [await] and
    the return of [analyzeScreenshotWithVision] the main process runs
    whatever else is due.  Here the handler is cut at its [await]s into
    the part that runs first and the part that runs last, with the other
    writers of the selection fields in between. *)
Module Awaits.

Import Analyzer Handlers Session.

(** From the key test to the first [await]:
    [const bounds = pendingSelectionBounds; pendingSelectionBounds = null]
    and the choice of where the screenshot comes from. *)
Definition analyzePrompt_begin (st : SelectionState)
  : ScreenshotSource * SelectionState :=
  (screenshotSource st,
   mkSelection None (selectionDisplayInfo st) (selectionScreenshot st)
               (selectionNativeImage st)).

(** What can write the selection fields while the handler waits: the
    [selection-made] and [cancel-selection] handlers,
    [createSelectionOverlay], and the assignment
    [selectionNativeImage = thumbnail] of the [captureScreenshot] that the
    handler itself may be waiting for. *)
Inductive Meanwhile : Type :=
| SelectionMade (bounds : Bounds)
| OverlayCreated (activeDisplay : ElectronDisplay) (capture : PreCapture)
| SelectionCancelled
| ThumbnailStored (thumbnail : Crop.Size).

Definition meanwhile (st : SelectionState) (ev : Meanwhile) : SelectionState :=
  match ev with
  | SelectionMade bounds => selection_made bounds st
  | OverlayCreated activeDisplay capture =>
      createSelectionOverlay activeDisplay capture st
  | SelectionCancelled => cancel_selection st
  | ThumbnailStored thumbnail =>
      mkSelection (pendingSelectionBounds st) (selectionDisplayInfo st)
                  (selectionScreenshot st) (Some thumbnail)
  end.

(** From the return of [analyzeScreenshotWithVision] on: three of the
    four fields are cleared, not [pendingSelectionBounds]; the [catch]
    block clears all four.  [body] is the outcome of the screenshot and
    of the analysis. *)
Definition analyzePrompt_end (body : Result jsval) (st : SelectionState)
  : Envelope * SelectionState :=
  match body with
  | Ok analysis =>
      match withScreenText analysis with
      | Ok data =>
          (Success data, mkSelection (pendingSelectionBounds st) None None None)
      | Throw e => (Failure (message e), cleared)
      end
  | Throw e => (Failure (message e), cleared)
  end.

(** The handler with [events] running while it waits. *)
Definition analyzePrompt_interleaved (events : list Meanwhile)
    (body : Result jsval) (st : SelectionState) : Envelope * SelectionState :=
  analyzePrompt_end body
    (fold_left meanwhile events (snd (analyzePrompt_begin st))).

(** The bounds left by a run of writers: those of the last
    [selection-made] that no [cancel-selection] follows, else the ones
    there were before. *)
Fixpoint boundsAfter (events : list Meanwhile) (before : option Bounds)
  : option Bounds :=
  match events with
  | [] => before
  | SelectionMade bounds :: events' => boundsAfter events' (Some bounds)
  | SelectionCancelled :: events' => boundsAfter events' None
  | _ :: events' => boundsAfter events' before
  end.

End Awaits.

(* ================================================================== *)
(** ** Image analyzer ([analyzeImageWithAI],
       [analyze-image-with-selection]) *)
(* ================================================================== *)

Module ImageAnalyzer.

Import Analyzer.
Local Open Scope string_scope.

Section Backend.

Variable JSON_parse : string -> option jsval.
Variable DEFAULT_OPENROUTER_API_KEY : string.

(** [analyzeImageWithAI], from the resolution of [fetch] on. *)
Definition analyzeImageWithAI (resp : FetchOutcome) : Result jsval :=
  match resp with
  | FetchRejected e => Throw e
  | Response ok status body =>
      if negb ok then
        Throw (Error ("OpenRouter API error: " ++ JsString.toString status
                        ++ " - " ++ body))
      else
        data <- parseJSON JSON_parse body ;;
        content <- contentOf data ;;
        if negb (truthy content) then Throw (Error "No response from AI")
        else Ok (VObj [("description", content)])
  end.

(** The [analyze-image-with-selection] handler; [screenshot] as in
    [analyzePrompt]. *)
Definition analyze_image_with_selection (customApiKey : option string)
    (st : SelectionState) (screenshot : Result string) (resp : FetchOutcome)
  : Envelope * SelectionState :=
  if noApiKey (apiKey DEFAULT_OPENROUTER_API_KEY customApiKey) then
    (Failure "No API key configured. Please contact the developer or set your own OpenRouter API key.",
     st)
  else
    let body := _ <- screenshot ;; analyzeImageWithAI resp in
    match body with
    | Ok data => (Success data, cleared)
    | Throw e => (Failure (message e), cleared)
    end.

End Backend.

(** A data URL as [captureScreenshot] returns it, longer than 100
    characters. *)
Definition sampleDataUrl : string :=
  "data:image/jpeg;base64,/9j/4AAQSkZJRgABAQAAAQABAAD/2wBDAAgGBgcGBQgHBwcJCQgKDBQNDAsLDBkSEw8UHRofHh0aHBwgJC4nICIsIxwcKDcpLDAxNDQ0Hyc5PTgyPC4zNDL/".

End ImageAnalyzer.

(* ================================================================== *)
(** * Properties of the speech controller *)
(* ================================================================== *)

Section SpeechFacts.

Import Speech.

(** Closing the existing popup touches neither flag nor the counter. *)
Lemma closeExistingPopup_frame (st : MainState) :
  isSpeechRecording (fst (closeExistingPopup st)) = isSpeechRecording st /\
  speechShouldStop (fst (closeExistingPopup st)) = speechShouldStop st /\
  speechPopupGen (fst (closeExistingPopup st)) = speechPopupGen st.
Proof.
  unfold closeExistingPopup.
  destruct (popupWindow st) as [w|]; [destruct (destroyed w)|]; simpl; auto.
Qed.

(** A new speech popup carries the counter value it has just produced. *)
Lemma createSpeechPopupWindow_gen (st : MainState) :
  speechPopupGen (fst (createSpeechPopupWindow st)) = speechPopupGen st + 1 /\
  popupWindow (fst (createSpeechPopupWindow st))
    = Some (mkWin false (SpeechPopupClosed (speechPopupGen st + 1))).
Proof.
  unfold createSpeechPopupWindow.
  pose proof (closeExistingPopup_frame st) as (_ & _ & Hg).
  destruct (closeExistingPopup st) as [st1 eff]; simpl in *.
  rewrite Hg; auto.
Qed.

(** The generation counter never decreases, whatever the event. *)
Lemma step_gen_mono (st : MainState) (e : Event) :
  speechPopupGen st <= speechPopupGen (step st e).
Proof.
  destruct e; simpl.
  - unfold handleSpeechShortcutPress.
    destruct (isSpeechRecording st); [simpl; lia|].
    destruct (modelDownloaded env); simpl.
    + match goal with
      | |- _ <= speechPopupGen (fst (let '(a, b) := createSpeechPopupWindow ?s in _)) =>
          pose proof (createSpeechPopupWindow_gen s) as [Hg _];
          destruct (createSpeechPopupWindow s) as [st3 eff]
      end.
      simpl in *. rewrite Hg.
      destruct (popupGone st); simpl; lia.
    + destruct (popupGone st); simpl; lia.
  - unfold onKeyReleased.
    destruct (isSpeechRecording st && negb (speechShouldStop st)); simpl; lia.
  - destruct h as [|gen]; simpl; [lia|].
    destruct (gen =? speechPopupGen st); simpl; lia.
  - unfold popupDestroyed. destruct (popupWindow st); simpl; lia.
  - unfold createPopupWindow.
    pose proof (closeExistingPopup_frame st) as (_ & _ & Hg).
    destruct (closeExistingPopup st) as [st1 eff]; simpl in *. lia.
  - unfold closePopup.
    pose proof (closeExistingPopup_frame st) as (_ & _ & Hg).
    destruct (closeExistingPopup st) as [st1 eff]; simpl in *.
    destruct (pickerWindow st1) as [w|]; [destruct (destroyed w)|]; simpl; lia.
  - unfold shouldStopSpeech. destruct (speechShouldStop st); simpl; lia.
  - simpl; lia.
  - simpl; lia.
Qed.

Lemma run_gen_mono (tr : list Event) :
  forall st, speechPopupGen st <= speechPopupGen (run st tr).
Proof.
  induction tr as [|e tr IH]; intros st; unfold run; simpl; [lia|].
  pose proof (step_gen_mono st e). specialize (IH (step st e)).
  unfold run in IH. lia.
Qed.

(** Once a speech popup has been replaced by a later speech popup, its
    captured generation stays strictly below the counter for the rest of
    the run. *)
Lemma replaced_popup_is_stale (st : MainState) (tr1 tr2 : list Event) :
  let st1 := fst (createSpeechPopupWindow st) in
  let st2 := fst (createSpeechPopupWindow (run st1 tr1)) in
  speechPopupGen st1 < speechPopupGen (run st2 tr2).
Proof.
  intros st1 st2.
  pose proof (run_gen_mono tr1 st1).
  pose proof (run_gen_mono tr2 st2).
  pose proof (createSpeechPopupWindow_gen (run st1 tr1)) as [Hg _].
  fold st2 in Hg. lia.
Qed.

(** Only the key-release continuation raises [speechShouldStop]. *)
Lemma step_keeps_stop_clear (st : MainState) (e : Event) :
  e <> KeyReleased ->
  speechShouldStop st = false ->
  speechShouldStop (step st e) = false.
Proof.
  intros Hne Hs. destruct e; simpl; try congruence.
  - unfold handleSpeechShortcutPress.
    destruct (isSpeechRecording st); [assumption|].
    destruct (modelDownloaded env); simpl.
    + unfold createSpeechPopupWindow, closeExistingPopup.
      destruct (popupGone st); simpl;
        destruct (popupWindow st) as [w|]; [destruct (destroyed w)| |destruct (destroyed w)|];
        reflexivity.
    + destruct (popupGone st); simpl; auto.
  - destruct h as [|gen]; simpl; [assumption|].
    destruct (gen =? speechPopupGen st); simpl; auto.
  - unfold popupDestroyed. destruct (popupWindow st); simpl; auto.
  - unfold createPopupWindow.
    pose proof (closeExistingPopup_frame st) as (_ & Hk & _).
    destruct (closeExistingPopup st) as [st1 eff]; simpl in *. congruence.
  - unfold closePopup.
    destruct (closeExistingPopup st) as [st1 eff].
    destruct (pickerWindow st1) as [w|]; [destruct (destroyed w)|]; reflexivity.
  - unfold shouldStopSpeech. rewrite Hs. assumption.
Qed.

Lemma run_keeps_stop_clear (tr : list Event) :
  forall st,
    Forall (fun e => e <> KeyReleased) tr ->
    speechShouldStop st = false ->
    speechShouldStop (run st tr) = false.
Proof.
  induction tr as [|e tr IH]; intros st Hall Hs; unfold run; simpl; [assumption|].
  inversion Hall; subst.
  apply IH; [assumption|]. now apply step_keeps_stop_clear.
Qed.

(** [C5] Generation isolation: when the counter has moved past [N], the
    ['closed'] listener that captured [N] leaves both [isSpeechRecording]
    and [speechShouldStop] as they are; a listener resets them (to
    [false]) exactly when its captured generation equals the counter. *)
Theorem C5_generation_isolation (st : MainState) (N : Z) :
  N < speechPopupGen st ->
  isSpeechRecording (runClosedHandler (SpeechPopupClosed N) st)
    = isSpeechRecording st /\
  speechShouldStop (runClosedHandler (SpeechPopupClosed N) st)
    = speechShouldStop st /\
  forall g,
    isSpeechRecording (runClosedHandler (SpeechPopupClosed g) st)
      = (if g =? speechPopupGen st then false else isSpeechRecording st) /\
    speechShouldStop (runClosedHandler (SpeechPopupClosed g) st)
      = (if g =? speechPopupGen st then false else speechShouldStop st).
Proof.
  intros Hlt.
  assert (Hg : forall g,
    isSpeechRecording (runClosedHandler (SpeechPopupClosed g) st)
      = (if g =? speechPopupGen st then false else isSpeechRecording st) /\
    speechShouldStop (runClosedHandler (SpeechPopupClosed g) st)
      = (if g =? speechPopupGen st then false else speechShouldStop st)).
  { intros g. simpl. destruct (g =? speechPopupGen st); simpl; auto. }
  destruct (Hg N) as [H1 H2].
  assert (Hne : (N =? speechPopupGen st) = false) by (apply Z.eqb_neq; lia).
  rewrite Hne in H1, H2. auto.
Qed.

(** [C7] A press while recording, with the popup still there, changes
    nothing: the state (flags, popup, generation counter) is returned as it
    was and no call into Electron is made. *)
Theorem C7_press_while_recording_is_noop (env : PressEnv) (st : MainState) :
  isSpeechRecording st = true ->
  alive (popupWindow st) = true ->
  handleSpeechShortcutPress env st = (st, []).
Proof.
  intros Hrec _. unfold handleSpeechShortcutPress. now rewrite Hrec.
Qed.

(** The poll returns the flag and leaves it cleared. *)
Lemma shouldStopSpeech_reads_and_clears (st : MainState) :
  fst (shouldStopSpeech st) = speechShouldStop st /\
  speechShouldStop (snd (shouldStopSpeech st)) = false.
Proof.
  unfold shouldStopSpeech.
  destruct (speechShouldStop st) eqn:Hs; simpl; auto.
Qed.

(** [C8] [should-stop-speech] answers [true] exactly when the flag was set
    at the call, leaves the flag cleared after every call, and two calls
    in a row never both answer [true]. *)
Theorem C8_should_stop_polls_and_clears (st : MainState) :
  (fst (shouldStopSpeech st) = true <-> speechShouldStop st = true) /\
  speechShouldStop (snd (shouldStopSpeech st)) = false /\
  fst (shouldStopSpeech st)
    && fst (shouldStopSpeech (snd (shouldStopSpeech st))) = false.
Proof.
  destruct (shouldStopSpeech_reads_and_clears st) as [H1 H2].
  destruct (shouldStopSpeech_reads_and_clears (snd (shouldStopSpeech st)))
    as [H3 _].
  rewrite H3, H2, H1. repeat split; auto using andb_false_r.
Qed.

(** After a poll, the next poll answers [false] as long as no key-release
    signal came in between. *)
Lemma second_poll_false_without_release (st : MainState) (tr : list Event) :
  Forall (fun e => e <> KeyReleased) tr ->
  fst (shouldStopSpeech (run (snd (shouldStopSpeech st)) tr)) = false.
Proof.
  intros Hall.
  destruct (shouldStopSpeech_reads_and_clears
              (run (snd (shouldStopSpeech st)) tr)) as [-> _].
  apply run_keeps_stop_clear; [assumption|].
  apply shouldStopSpeech_reads_and_clears.
Qed.

(** Instance of [C5]: two recordings in a row; the first popup's listener
    (generation 1) fires while generation 2 is recording. *)
Lemma C5_generation_isolation_witness :
  1 < speechPopupGen secondSession /\
  isSpeechRecording secondSession = true /\
  isSpeechRecording (runClosedHandler (SpeechPopupClosed 1) secondSession)
    = isSpeechRecording secondSession.
Proof.
  split; [reflexivity|]. split; [reflexivity|].
  apply (C5_generation_isolation secondSession 1). reflexivity.
Defined.

(** Instance of [C7]: a repeat of the hotkey right after recording started. *)
Lemma C7_press_while_recording_is_noop_witness :
  isSpeechRecording firstSession = true /\
  alive (popupWindow firstSession) = true /\
  handleSpeechShortcutPress ready firstSession = (firstSession, []).
Proof.
  split; [reflexivity|]. split; [reflexivity|].
  apply (C7_press_while_recording_is_noop ready firstSession); reflexivity.
Defined.

(** [C6] The desynchronised state is reached in an ordinary run (an
    analyzer popup is open, the speech hotkey replaces it, and the old
    popup's ['closed'] listener then clears [popupWindow]); the next press
    returns at [if (isSpeechRecording) return] and never reaches the
    reset: the state stays as it was, still marked as recording, and
    nothing is started. *)
Theorem C6_desync_press_is_ignored :
  desynced = mkState None None true false 1 /\
  popupGone desynced = true /\
  handleSpeechShortcutPress ready desynced = (desynced, []) /\
  isSpeechRecording (fst (handleSpeechShortcutPress ready desynced)) = true.
Proof.
  repeat split.
Qed.

(** [close-popup] clears both flags and keeps the counter. *)
Lemma closePopup_flags (st : MainState) :
  isSpeechRecording (fst (closePopup st)) = false /\
  speechShouldStop (fst (closePopup st)) = false /\
  speechPopupGen (fst (closePopup st)) = speechPopupGen st.
Proof.
  unfold closePopup.
  pose proof (closeExistingPopup_frame st) as (_ & _ & Hg).
  destruct (closeExistingPopup st) as [st1 e1]; simpl in Hg.
  destruct (pickerWindow st1) as [w|]; [destruct (destroyed w)|]; simpl; auto.
Qed.

(** [C10] [close-popup] resets both flags whatever the generation counter
    is; and there is a run in which generation 2 is recording, the stale
    generation-1 ['closed'] listener would leave the flags alone, and a
    [close-popup] call clears them. *)
Theorem C10_close_popup_bypasses_generation_guard :
  (forall st,
     isSpeechRecording (fst (closePopup st)) = false /\
     speechShouldStop (fst (closePopup st)) = false /\
     speechPopupGen (fst (closePopup st)) = speechPopupGen st) /\
  exists tr,
    let st := run initial tr in
    speechPopupGen st = 2 /\
    isSpeechRecording st = true /\
    speechShouldStop st = true /\
    isSpeechRecording (runClosedHandler (SpeechPopupClosed 1) st) = true /\
    speechShouldStop (runClosedHandler (SpeechPopupClosed 1) st) = true /\
    isSpeechRecording (fst (closePopup st)) = false /\
    speechShouldStop (fst (closePopup st)) = false.
Proof.
  split; [exact closePopup_flags|].
  exists [SpeechHotkey ready; IpcTypeSpeechResult; SpeechHotkey ready;
          KeyReleased].
  repeat split.
Qed.

End SpeechFacts.

(* ================================================================== *)
(** * Properties of the selection overlay *)
(* ================================================================== *)

Section OverlayFacts.

Import Overlay.

Lemma last_cons_default {A : Type} (l : list A) :
  forall a d, last (a :: l) d = last l a.
Proof.
  induction l as [|b l IH]; intros a d; [reflexivity|].
  change (last (a :: b :: l) d) with (last (b :: l) d).
  now rewrite !IH.
Qed.

(** While the button is down, moves only replace the current point. *)
Lemma moves_track_pointer (moves : list Point) :
  forall p c,
    fold_left (fun s e => handleMouseMove e s) moves (mkState true p c)
    = mkState true p (last moves c).
Proof.
  induction moves as [|e moves IH]; intros p c; [reflexivity|].
  rewrite last_cons_default. cbn [fold_left].
  unfold handleMouseMove at 2. cbn [isSelecting startPoint].
  apply IH.
Qed.

(** Releasing the button when no drag is in progress reports nothing. *)
Lemma mouseUp_idle (st : State) :
  isSelecting st = false -> handleMouseUp st = (st, None).
Proof.
  intros H. unfold handleMouseUp. now rewrite H.
Qed.

(** [C9] A completed drag from [p] to the last pointer position reports a
    rectangle to the main process if and only if its width and its height
    are both at least 10; the rectangle reported is the one spanned by the
    two points, and otherwise nothing is reported. *)
Theorem C9_selection_reported_iff_min_size
    (st : State) (p : Point) (moves : list Point) :
  ((exists b, snd (drag st p moves) = Some b) <->
   (10 <= Qabs (clientX (last moves p) - clientX p) /\
    10 <= Qabs (clientY (last moves p) - clientY p))%Q) /\
  (snd (drag st p moves)
     = Some (getSelectionBounds (mkState true p (last moves p))) \/
   snd (drag st p moves) = None).
Proof.
  unfold drag, handleMouseDown. rewrite moves_track_pointer.
  unfold handleMouseUp, geb. cbn [isSelecting getSelectionBounds width height
                                  startPoint currentPoint].
  destruct (Qle_bool 10 (Qabs (clientX (last moves p) - clientX p))) eqn:Hw;
  destruct (Qle_bool 10 (Qabs (clientY (last moves p) - clientY p))) eqn:Hh;
  cbn [andb snd].
  - split; [|left; reflexivity].
    split; [intros _; split; now apply Qle_bool_iff | intros _; eexists; reflexivity].
  - split; [|right; reflexivity].
    split; [intros [b Hb]; discriminate|].
    intros [_ H2]; apply Qle_bool_iff in H2; congruence.
  - split; [|right; reflexivity].
    split; [intros [b Hb]; discriminate|].
    intros [H1 _]; apply Qle_bool_iff in H1; congruence.
  - split; [|right; reflexivity].
    split; [intros [b Hb]; discriminate|].
    intros [H1 _]; apply Qle_bool_iff in H1; congruence.
Qed.

End OverlayFacts.

(* ================================================================== *)
(** * Properties of the double arithmetic *)
(* ================================================================== *)

Section DoubleFacts.

Import JsNumber Crop.

(** *** Number of binary digits *)

Lemma digits2_pos_size (p : positive) : digits2_pos p = Pos.size p.
Proof. induction p; simpl; congruence. Qed.

Lemma Zdigits2_log2 (m : Z) : 0 < m -> Zdigits2 m = Z.log2 m + 1.
Proof.
  destruct m as [|p|p]; try lia. intros _. simpl Zdigits2.
  rewrite digits2_pos_size. destruct p; simpl; lia.
Qed.

Lemma Zdigits2_nonneg (m : Z) : 0 <= Zdigits2 m.
Proof. destruct m; simpl; lia. Qed.

Lemma Zdigits2_pos (m : Z) : 0 < m -> 0 < Zdigits2 m.
Proof. destruct m; simpl; lia. Qed.

(** [m] has at most [d] digits exactly when it is below [2 ^ d]. *)
Lemma Zdigits2_le_iff (m d : Z) :
  0 <= m -> 0 <= d -> (Zdigits2 m <= d <-> m < 2 ^ d).
Proof.
  intros Hm Hd. destruct (Z.eq_dec m 0) as [->|N].
  - simpl. split; intros _; [apply Z.pow_pos_nonneg|]; lia.
  - rewrite Zdigits2_log2 by lia.
    rewrite (Z.log2_lt_pow2 m d) by lia. lia.
Qed.

Lemma Zdigits2_lower (m : Z) : 0 < m -> 2 ^ (Zdigits2 m - 1) <= m.
Proof.
  intros Hm. rewrite Zdigits2_log2 by lia.
  replace (Z.log2 m + 1 - 1) with (Z.log2 m) by lia.
  apply Z.log2_spec. lia.
Qed.

Lemma Zdigits2_upper (m : Z) : 0 <= m -> m < 2 ^ Zdigits2 m.
Proof.
  intros Hm. apply Zdigits2_le_iff; try lia. apply Zdigits2_nonneg.
Qed.

Lemma Zdigits2_mono (a b : Z) : 0 <= a <= b -> Zdigits2 a <= Zdigits2 b.
Proof.
  intros H. apply Zdigits2_le_iff; try lia; [apply Zdigits2_nonneg|].
  pose proof (Zdigits2_upper b). lia.
Qed.

Lemma Zdigits2_div_pow2 (m k : Z) :
  0 <= m -> 0 <= k -> Zdigits2 (m / 2 ^ k) = Z.max 0 (Zdigits2 m - k).
Proof.
  intros Hm Hk.
  assert (Hp : 0 < 2 ^ k) by (apply Z.pow_pos_nonneg; lia).
  destruct (Z.eq_dec (m / 2 ^ k) 0) as [E|N].
  - rewrite E. simpl Zdigits2.
    apply Z.div_small_iff in E; [|lia].
    assert (Zdigits2 m <= k) by (apply Zdigits2_le_iff; lia). lia.
  - assert (Hq : 0 < m / 2 ^ k) by (pose proof (Z.div_pos m (2 ^ k)); lia).
    assert (Hm' : 0 < m) by (destruct (Z.eq_dec m 0) as [->|]; [rewrite Z.div_0_l in Hq; lia | lia]).
    rewrite !Zdigits2_log2 by lia.
    rewrite <- Z.shiftr_div_pow2 by lia.
    rewrite Z.log2_shiftr by lia.
    assert (k <= Z.log2 m).
    { apply Z.log2_le_pow2; [lia|].
      apply Z.nlt_ge. intros C. apply N. apply Z.div_small. lia. }
    lia.
Qed.

Lemma Zdigits2_succ (m : Z) :
  0 <= m ->
  Zdigits2 (m + 1) = Zdigits2 m \/
  (Zdigits2 (m + 1) = Zdigits2 m + 1 /\ m + 1 = 2 ^ Zdigits2 m).
Proof.
  intros Hm.
  pose proof (Zdigits2_upper m Hm) as Hu.
  pose proof (Zdigits2_nonneg m) as Hn.
  destruct (Z.eq_dec (m + 1) (2 ^ Zdigits2 m)) as [E|N].
  - right. split; [|exact E].
    rewrite Zdigits2_log2 by lia. rewrite E.
    rewrite Z.log2_pow2 by lia. lia.
  - left. apply Z.le_antisymm.
    + apply Zdigits2_le_iff; lia.
    + apply Zdigits2_mono. lia.
Qed.

Lemma Zdigits2_mul (a b : Z) :
  0 < a -> 0 < b -> Zdigits2 a + Zdigits2 b - 1 <= Zdigits2 (a * b).
Proof.
  intros Ha Hb.
  pose proof (Zdigits2_lower a Ha) as La.
  pose proof (Zdigits2_lower b Hb) as Lb.
  pose proof (Zdigits2_pos a Ha). pose proof (Zdigits2_pos b Hb).
  apply Z.nlt_ge. intros C.
  assert (H2 : a * b < 2 ^ (Zdigits2 a + Zdigits2 b - 2)).
  { apply Zdigits2_le_iff; nia. }
  replace (Zdigits2 a + Zdigits2 b - 2) with ((Zdigits2 a - 1) + (Zdigits2 b - 1)) in H2 by lia.
  rewrite Z.pow_add_r in H2 by lia.
  assert (0 < 2 ^ (Zdigits2 a - 1)) by (apply Z.pow_pos_nonneg; lia).
  assert (0 < 2 ^ (Zdigits2 b - 1)) by (apply Z.pow_pos_nonneg; lia).
  nia.
Qed.


(** *** Powers of two *)

Lemma pow2_pos (e : Z) : (0 < pow2 e)%Q.
Proof. apply Qpower_0_lt. reflexivity. Qed.

Lemma pow2_add (a b : Z) : (pow2 (a + b) == pow2 a * pow2 b)%Q.
Proof. apply Qpower_plus. discriminate. Qed.

Lemma pow2_le (a b : Z) : a <= b -> (pow2 a <= pow2 b)%Q.
Proof. intros H. apply Qpower_le_compat_l; [exact H | discriminate]. Qed.

Lemma pow2_inject (e : Z) : 0 <= e -> (pow2 e == inject_Z (2 ^ e))%Q.
Proof. intros H. unfold pow2. now rewrite Zpower_Qpower. Qed.

Lemma pow2_succ (e : Z) : (pow2 (e + 1) == 2 * pow2 e)%Q.
Proof. rewrite pow2_add. change (pow2 1) with (2 # 1)%Q. ring. Qed.

Lemma pow2_pred (e : Z) : (pow2 (e - 1) == (1 # 2) * pow2 e)%Q.
Proof.
  replace e with ((e - 1) + 1) at 2 by lia. rewrite pow2_succ. field.
Qed.

Lemma pow2_cancel (a b : Z) : (pow2 (a - b) * pow2 b == pow2 a)%Q.
Proof. rewrite <- pow2_add. now replace (a - b + b) with a by lia. Qed.

(** *** Shifting a mantissa to the right *)

Lemma located_ext (mrs : shr_record) (v w : Q) :
  (v == w)%Q -> located mrs v -> located mrs w.
Proof.
  intros E. unfold located. destruct (shr_r mrs), (shr_s mrs); rewrite E; auto.
Qed.

Lemma located_range (mrs : shr_record) (v : Q) :
  located mrs v -> (inject_Z (shr_m mrs) <= v /\ v < inject_Z (shr_m mrs) + 1)%Q.
Proof.
  unfold located. destruct (shr_r mrs), (shr_s mrs); intros H; lra.
Qed.

Lemma inject_Z_xI (p : positive) :
  (inject_Z (Zpos p~1) == 2 * inject_Z (Zpos p) + 1)%Q.
Proof. rewrite Pos2Z.inj_xI, inject_Z_plus, inject_Z_mult. reflexivity. Qed.

Lemma inject_Z_xO (p : positive) :
  (inject_Z (Zpos p~0) == 2 * inject_Z (Zpos p))%Q.
Proof. rewrite Pos2Z.inj_xO, inject_Z_mult. reflexivity. Qed.

Lemma shr_1_located (mrs : shr_record) (v : Q) :
  0 <= shr_m mrs -> located mrs v ->
  located (shr_1 mrs) (v * (1 # 2)) /\ shr_m (shr_1 mrs) = shr_m mrs / 2.
Proof.
  destruct mrs as [m r s]. cbn [shr_m]. intros Hm.
  destruct m as [|p|p]; [| |lia].
  - change (inject_Z 0) with 0%Q.
    unfold located. destruct r, s; cbn [shr_1 shr_r shr_s shr_m orb];
      change (inject_Z 0) with 0%Q; intros H; (split; [lra|reflexivity]).
  - destruct p as [p|p|].
    + pose proof (inject_Z_xI p) as E.
      unfold located. destruct r, s; cbn [shr_1 shr_r shr_s shr_m orb]; intros H;
        (split; [lra | rewrite Pos2Z.inj_xI; apply Z.div_unique with 1; lia]).
    + pose proof (inject_Z_xO p) as E.
      unfold located. destruct r, s; cbn [shr_1 shr_r shr_s shr_m orb]; intros H;
        (split; [lra | rewrite Pos2Z.inj_xO; apply Z.div_unique with 0; lia]).
    + unfold located. destruct r, s; cbn [shr_1 shr_r shr_s shr_m orb];
        change (inject_Z 0) with 0%Q; change (inject_Z 1) with 1%Q; intros H;
        (split; [lra|reflexivity]).
Qed.

Lemma iter_shr_1_located (p : positive) :
  forall (mrs : shr_record) (v : Q),
    0 <= shr_m mrs -> located mrs v ->
    located (iter_pos shr_1 p mrs) (v * pow2 (- Zpos p)) /\
    shr_m (iter_pos shr_1 p mrs) = shr_m mrs / 2 ^ Zpos p.
Proof.
  induction p as [p IH|p IH|]; intros mrs v Hm Hv; cbn [iter_pos].
  - destruct (shr_1_located mrs v Hm Hv) as [L1 M1].
    assert (H1 : 0 <= shr_m (shr_1 mrs)) by (rewrite M1; apply Z.div_pos; lia).
    destruct (IH _ _ H1 L1) as [L2 M2].
    assert (H2 : 0 <= shr_m (iter_pos shr_1 p (shr_1 mrs)))
      by (rewrite M2; apply Z.div_pos; [lia | apply Z.pow_pos_nonneg; lia]).
    destruct (IH _ _ H2 L2) as [L3 M3]. split.
    + eapply located_ext; [|exact L3].
      replace (- Zpos p~1) with (-1 + (- Zpos p + - Zpos p)) by lia.
      rewrite !pow2_add. change (pow2 (-1)) with (1 # 2)%Q. ring.
    + rewrite M3, M2, M1.
      rewrite !Z.div_div by (try apply Z.pow_pos_nonneg; lia).
      f_equal. rewrite Pos2Z.inj_xI.
      replace (2 * Zpos p + 1) with (1 + Zpos p + Zpos p) by lia.
      rewrite !Z.pow_add_r by lia. lia.
  - destruct (IH _ _ Hm Hv) as [L2 M2].
    assert (H2 : 0 <= shr_m (iter_pos shr_1 p mrs))
      by (rewrite M2; apply Z.div_pos; [lia | apply Z.pow_pos_nonneg; lia]).
    destruct (IH _ _ H2 L2) as [L3 M3]. split.
    + eapply located_ext; [|exact L3].
      replace (- Zpos p~0) with (- Zpos p + - Zpos p) by lia.
      rewrite !pow2_add. ring.
    + rewrite M3, M2.
      rewrite !Z.div_div by (try apply Z.pow_pos_nonneg; lia).
      f_equal. replace (Zpos p~0) with (Zpos p + Zpos p) by lia.
      rewrite !Z.pow_add_r by lia. lia.
  - destruct (shr_1_located mrs v Hm Hv) as [L1 M1]. split.
    + eapply located_ext; [|exact L1]. change (pow2 (-1)) with (1 # 2)%Q. reflexivity.
    + rewrite M1. reflexivity.
Qed.

(** [shr] by [n] places: the mantissa is divided by [2 ^ n], the exponent
    grows by [n], and the record keeps track of what was shifted out. *)
Lemma shr_located (mrs : shr_record) (e n : Z) (v : Q) :
  0 <= shr_m mrs -> located mrs v ->
  located (fst (shr mrs e n)) (v * pow2 (- Z.max 0 n)) /\
  shr_m (fst (shr mrs e n)) = shr_m mrs / 2 ^ Z.max 0 n /\
  snd (shr mrs e n) = e + Z.max 0 n.
Proof.
  intros Hm Hv. destruct n as [|p|p]; cbn [shr fst snd].
  - split; [|split].
    + eapply located_ext; [|exact Hv]. change (pow2 (- Z.max 0 0)) with 1%Q. ring.
    + change (2 ^ Z.max 0 0) with 1. now rewrite Z.div_1_r.
    + cbn. lia.
  - destruct (iter_shr_1_located p mrs v Hm Hv) as [L M].
    replace (Z.max 0 (Zpos p)) with (Zpos p) by lia. auto.
  - split; [|split].
    + eapply located_ext; [|exact Hv].
      replace (Z.max 0 (Zneg p)) with 0 by lia. change (pow2 (- 0)) with 1%Q. ring.
    + replace (Z.max 0 (Zneg p)) with 0 by lia. change (2 ^ 0) with 1.
      now rewrite Z.div_1_r.
    + lia.
Qed.

Lemma shr_record_of_loc_inv (mrs : shr_record) :
  shr_record_of_loc (shr_m mrs) (loc_of_shr_record mrs) = mrs.
Proof. destruct mrs as [m [|] [|]]; reflexivity. Qed.

Lemma shr_m_of_loc (m : Z) (l : location) : shr_m (shr_record_of_loc m l) = m.
Proof. destruct l as [|[| |]]; reflexivity. Qed.

(** Rounding to nearest, a tie going to the even mantissa. *)
Lemma round_nearest_even_spec (m : Z) (l : location) (v : Q) :
  located (shr_record_of_loc m l) v ->
  (inject_Z (round_nearest_even m l) - (1 # 2) <= v /\
   v <= inject_Z (round_nearest_even m l) + (1 # 2))%Q /\
  m <= round_nearest_even m l <= m + 1.
Proof.
  assert (E : (inject_Z (m + 1) == inject_Z m + 1)%Q)
    by (rewrite inject_Z_plus; reflexivity).
  destruct l as [|[| |]]; unfold located; cbn; intros H.
  - split; [lra|lia].
  - destruct (Z.even m); (split; [lra|lia]).
  - split; [lra|lia].
  - split; [lra|lia].
Qed.


(** *** Rounding a mantissa and an exponent to a double *)

Lemma fexp_eq (e : Z) : fexp prec emax e = Z.max (e - 53) (-1074).
Proof. reflexivity. Qed.

Lemma canonical_mantissa_eq (m : positive) (e : Z) :
  canonical_mantissa prec emax m e = true <->
  Z.max (Zdigits2 (Zpos m) + e - 53) (-1074) = e.
Proof.
  unfold canonical_mantissa. rewrite Z.eqb_eq, fexp_eq. cbn [Zdigits2]. lia.
Qed.

(** After the first shift the mantissa has at most 53 digits and the
    exponent is the canonical one; rounding adds at most a digit, which
    the second shift takes away again. *)
Lemma renormalize_cases (d ex n1 e' d' d1 n2 : Z) :
  0 <= d ->
  n1 = Z.max (d + ex - 53) (-1074) - ex -> 0 <= n1 ->
  e' = ex + n1 -> d' = Z.max 0 (d - n1) ->
  d1 = d' \/ d1 = d' + 1 ->
  n2 = Z.max (d1 + e' - 53) (-1074) - e' ->
  (n2 = 0) \/ (n2 = 1 /\ d1 = d' + 1 /\ d' = 53).
Proof. lia. Qed.

Lemma rounds_ext (R R' : Q) (s : bool) (d : double) :
  (R == R')%Q -> rounds R s d -> rounds R' s d.
Proof.
  intros E. unfold rounds. destruct d; try rewrite E; auto.
Qed.

Lemma binary_round_aux_spec (sx : bool) (mx ex : Z) (lx : location) (v : Q) :
  0 <= mx -> located (shr_record_of_loc mx lx) v ->
  ex <= fexp prec emax (Zdigits2 mx + ex) ->
  rounds (v * pow2 ex) sx (binary_round_aux prec emax sx mx ex lx).
Proof.
  intros Hm Hv Hpre. rewrite fexp_eq in Hpre.
  unfold rounds, binary_round_aux, shr_fexp. rewrite !fexp_eq.
  set (d := Zdigits2 mx) in *.
  set (n1 := Z.max (d + ex - 53) (-1074) - ex).
  assert (Hn1 : 0 <= n1) by (unfold n1; lia).
  assert (Hd : 0 <= d) by apply Zdigits2_nonneg.
  rewrite <- (shr_m_of_loc mx lx) in Hm.
  destruct (shr_located (shr_record_of_loc mx lx) ex n1 v Hm Hv) as (L1 & M1 & X1).
  rewrite shr_m_of_loc in Hm, M1.
  destruct (shr (shr_record_of_loc mx lx) ex n1) as [mrs' e'].
  cbn [fst snd] in L1, M1, X1.
  replace (Z.max 0 n1) with n1 in * by lia.
  set (m' := shr_m mrs') in *.
  assert (Hm' : 0 <= m') by (rewrite M1; apply Z.div_pos; [lia | apply Z.pow_pos_nonneg; lia]).
  assert (Hd' : Zdigits2 m' = Z.max 0 (d - n1))
    by (rewrite M1; apply Zdigits2_div_pow2; lia).
  rewrite <- (shr_record_of_loc_inv mrs') in L1. fold m' in L1.
  destruct (round_nearest_even_spec m' (loc_of_shr_record mrs') _ L1) as [R1 R2].
  set (m1 := round_nearest_even m' (loc_of_shr_record mrs')) in *.
  set (d1 := Zdigits2 m1).
  assert (Hd1 : d1 = Zdigits2 m' \/ (d1 = Zdigits2 m' + 1 /\ m1 = 2 ^ Zdigits2 m')).
  { destruct (Z.eq_dec m1 m') as [->|N]; [now left|].
    assert (E : m1 = m' + 1) by lia. unfold d1. rewrite E.
    destruct (Zdigits2_succ m' Hm') as [H|[H1 H2]]; [now left | now right]. }
  set (n2 := Z.max (d1 + e' - 53) (-1074) - e').
  change (fexp prec emax (d1 + e') - e') with n2.
  assert (Hcase : n2 = 0 \/ (n2 = 1 /\ d1 = Zdigits2 m' + 1 /\ Zdigits2 m' = 53)).
  { apply (renormalize_cases d ex n1 e' (Zdigits2 m') d1 n2); first [lia | reflexivity]. }
  assert (Hm1 : 0 <= m1) by lia.
  assert (L0 : located (shr_record_of_loc m1 loc_Exact) (inject_Z m1))
    by (unfold located; cbn; reflexivity).
  assert (Hm1' : 0 <= shr_m (shr_record_of_loc m1 loc_Exact)) by (cbn; lia).
  destruct (shr_located (shr_record_of_loc m1 loc_Exact) e' n2 _ Hm1' L0) as (L2 & M2 & X2).
  destruct (shr (shr_record_of_loc m1 loc_Exact) e' n2) as [mrs'' e''].
  cbn [fst snd] in L2, M2, X2.
  change (shr_m (shr_record_of_loc m1 loc_Exact)) with m1 in M2.
  set (m2 := shr_m mrs'') in *.
  (* the second shift loses nothing *)
  assert (Hexact : m1 = m2 * 2 ^ Z.max 0 n2).
  { destruct Hcase as [->|(-> & H1 & H2)].
    - rewrite M2. change (2 ^ Z.max 0 0) with 1. rewrite Z.div_1_r. lia.
    - rewrite M2. change (2 ^ Z.max 0 1) with 2.
      destruct Hd1 as [H|[_ H]]; [lia|].
      rewrite H, H2. reflexivity. }
  (* the result is canonical *)
  assert (Hcan : Z.max (Zdigits2 m2 + e'' - 53) (-1074) = e'').
  { destruct Hcase as [E|(E & H1 & H2)].
    - assert (m2 = m1) by (rewrite Hexact, E; change (2 ^ Z.max 0 0) with 1; lia).
      rewrite H. fold d1. lia.
    - assert (Zdigits2 m2 = Z.max 0 (d1 - 1)).
      { rewrite M2, E. change (Z.max 0 1) with 1.
        apply Zdigits2_div_pow2; lia. }
      lia. }
  (* the value is within half a unit in the last place *)
  assert (HP' : (pow2 e' == pow2 n1 * pow2 ex)%Q)
    by (rewrite X1, <- pow2_add; now replace (n1 + ex) with (ex + n1) by lia).
  assert (HV : (v * pow2 ex == v * pow2 (- n1) * pow2 e')%Q).
  { rewrite HP'. rewrite <- Qmult_assoc, (Qmult_assoc (pow2 (- n1))), <- pow2_add.
    replace (- n1 + n1) with 0 by lia. change (pow2 0) with 1%Q. ring. }
  assert (HM : (inject_Z m1 * pow2 e' == inject_Z m2 * pow2 e'')%Q).
  { rewrite Hexact, inject_Z_mult, <- pow2_inject by lia.
    rewrite X2, (Z.add_comm e'), pow2_add. ring. }
  assert (HE : (pow2 (e' - 1) <= pow2 (e'' - 1))%Q) by (apply pow2_le; lia).
  pose proof (pow2_pos e') as P1.
  pose proof (pow2_pred e') as P2.
  assert (Hlo : (inject_Z m2 * pow2 e'' - pow2 (e'' - 1) <= v * pow2 ex)%Q).
  { rewrite HV, <- HM.
    apply Qle_trans with ((inject_Z m1 - (1 # 2)) * pow2 e')%Q.
    - rewrite P2 in HE. lra.
    - apply Qmult_le_compat_r; lra. }
  assert (Hhi : (v * pow2 ex <= inject_Z m2 * pow2 e'' + pow2 (e'' - 1))%Q).
  { rewrite HV, <- HM.
    apply Qle_trans with ((inject_Z m1 + (1 # 2)) * pow2 e')%Q.
    - apply Qmult_le_compat_r; lra.
    - rewrite P2 in HE. lra. }
  assert (Hm2 : 0 <= m2)
    by (rewrite M2; apply Z.div_pos; [lia | apply Z.pow_pos_nonneg; lia]).
  clearbody m2. clear L2 M2 Hexact HM.
  destruct m2 as [|m|m].
  - split; [reflexivity|].
    assert (E : e'' = -1074) by (cbn [Zdigits2] in Hcan; lia).
    rewrite E in Hhi.
    change (inject_Z 0) with 0%Q in Hhi.
    change (-1074 - 1) with (-1075) in Hhi. lra.
  - destruct (Z.leb_spec e'' (emax - prec)) as [Le|Gt].
    + split; [reflexivity|]. split; [now apply canonical_mantissa_eq|].
      split; [exact Le|]. split; assumption.
    + split; [reflexivity|].
      change (emax - prec) with 971 in Gt.
      assert (Hdig : Zdigits2 (Zpos m) = 53) by lia.
      pose proof (Zdigits2_lower (Zpos m) eq_refl) as Hlow.
      rewrite Hdig in Hlow. change (2 ^ (53 - 1)) with 4503599627370496 in Hlow.
      assert (Hq : (inject_Z 4503599627370496 <= inject_Z (Zpos m))%Q)
        by (rewrite <- Zle_Qle; exact Hlow).
      assert (HP : (pow2 972 <= pow2 e'')%Q) by (apply pow2_le; lia).
      pose proof (pow2_pred e'') as P3. pose proof (pow2_pos 972) as P4.
      assert (H51 : (pow2 1023 == inject_Z 2251799813685248 * pow2 972)%Q).
      { replace 1023 with (51 + 972) by lia. rewrite pow2_add.
        rewrite (pow2_inject 51) by lia. reflexivity. }
      rewrite H51.
      apply Qle_trans with (inject_Z (Zpos m) * pow2 e'' - pow2 (e'' - 1))%Q; [|exact Hlo].
      rewrite P3.
      apply Qle_trans with ((inject_Z 4503599627370496 - (1 # 2)) * pow2 e'')%Q.
      * apply Qle_trans with ((inject_Z 4503599627370496 - (1 # 2)) * pow2 972)%Q.
        -- apply Qmult_le_compat_r; [|lra].
           unfold Qle; cbn. lia.
        -- rewrite !(Qmult_comm (inject_Z 4503599627370496 - (1 # 2))).
           apply Qmult_le_compat_r; [exact HP|]. unfold Qle; cbn. lia.
      * assert (inject_Z 4503599627370496 * pow2 e'' <= inject_Z (Zpos m) * pow2 e'')%Q
          by (apply Qmult_le_compat_r; [exact Hq | apply Qlt_le_weak, pow2_pos]).
        lra.
  - lia.
Qed.


(** A canonical mantissa and exponent are returned as they are. *)
Lemma binary_round_aux_exact (sx : bool) (m : positive) (e : Z) :
  canonical_mantissa prec emax m e = true -> e <= 971 ->
  binary_round_aux prec emax sx (Zpos m) e loc_Exact = S754_finite sx m e.
Proof.
  intros Hc He. apply canonical_mantissa_eq in Hc.
  unfold binary_round_aux, shr_fexp. rewrite fexp_eq.
  replace (Z.max (Zdigits2 (Zpos m) + e - 53) (-1074) - e) with 0 by lia.
  cbn [shr shr_record_of_loc loc_of_shr_record round_nearest_even shr_m].
  rewrite fexp_eq.
  replace (Z.max (Zdigits2 (Zpos m) + e - 53) (-1074) - e) with 0 by lia.
  cbn [shr shr_record_of_loc shr_m].
  destruct (Z.leb_spec e (emax - prec)) as [_|C]; [reflexivity|].
  change (emax - prec) with 971 in C. lia.
Qed.

(** *** Division *)

Lemma new_location_spec (m2 r q : Z) (v : Q) :
  0 < m2 -> 0 <= r < m2 ->
  (v * inject_Z m2 == inject_Z (m2 * q + r))%Q ->
  located (shr_record_of_loc q (new_location m2 r)) v.
Proof.
  intros Hm Hr Hv.
  rewrite inject_Z_plus, inject_Z_mult in Hv.
  assert (HM : (0 < inject_Z m2)%Q) by (rewrite Zlt_Qlt in Hm; exact Hm).
  assert (HR : (0 <= inject_Z r /\ inject_Z r < inject_Z m2)%Q)
    by (rewrite (Zle_Qle 0 r), (Zlt_Qlt r m2) in Hr; exact Hr).
  assert (Hlt : forall c : Q, (v * inject_Z m2 < c * inject_Z m2 -> v < c)%Q)
    by (intros c; apply Qmult_lt_r; exact HM).
  assert (Hgt : forall c : Q, (c * inject_Z m2 < v * inject_Z m2 -> c < v)%Q)
    by (intros c; apply Qmult_lt_r; exact HM).
  unfold new_location.
  destruct (Z.even m2) eqn:Ev; [unfold new_location_even | unfold new_location_odd];
    destruct (Z.eqb_spec r 0) as [->|Nr].
  - unfold located; cbn. apply (Qmult_inj_r _ _ (inject_Z m2)); [lra|].
    rewrite Hv. change (inject_Z 0) with 0%Q. ring.
  - assert (H0 : (0 < inject_Z r)%Q)
      by (change (inject_Z 0 < inject_Z r)%Q; rewrite <- Zlt_Qlt; lia).
    destruct (Z.compare_spec (2 * r) m2) as [E|L|G]; unfold located; cbn.
    + apply (Qmult_inj_r _ _ (inject_Z m2)); [lra|].
      rewrite Hv, <- E, inject_Z_mult. change (inject_Z 2) with 2%Q. ring.
    + rewrite Zlt_Qlt, inject_Z_mult in L. change (inject_Z 2) with 2%Q in L.
      split; [apply Hgt | apply Hlt]; rewrite Hv; lra.
    + rewrite Zlt_Qlt, inject_Z_mult in G. change (inject_Z 2) with 2%Q in G.
      split; [apply Hgt | apply Hlt]; rewrite Hv; lra.
  - unfold located; cbn. apply (Qmult_inj_r _ _ (inject_Z m2)); [lra|].
    rewrite Hv. change (inject_Z 0) with 0%Q. ring.
  - assert (H0 : (0 < inject_Z r)%Q)
      by (change (inject_Z 0 < inject_Z r)%Q; rewrite <- Zlt_Qlt; lia).
    assert (Odd : 2 * r <> m2).
    { intros E. rewrite <- E, Z.even_mul in Ev. discriminate. }
    destruct (Z.compare_spec (2 * r + 1) m2) as [E|L|G]; unfold located; cbn.
    + assert (L : 2 * r < m2) by lia.
      rewrite Zlt_Qlt, inject_Z_mult in L. change (inject_Z 2) with 2%Q in L.
      split; [apply Hgt | apply Hlt]; rewrite Hv; lra.
    + assert (L' : 2 * r < m2) by lia.
      rewrite Zlt_Qlt, inject_Z_mult in L'. change (inject_Z 2) with 2%Q in L'.
      split; [apply Hgt | apply Hlt]; rewrite Hv; lra.
    + assert (G' : m2 < 2 * r) by lia.
      rewrite Zlt_Qlt, inject_Z_mult in G'. change (inject_Z 2) with 2%Q in G'.
      split; [apply Hgt | apply Hlt]; rewrite Hv; lra.
Qed.


Lemma pow2_nonzero (e : Z) : ~ (pow2 e == 0)%Q.
Proof. pose proof (pow2_pos e). lra. Qed.

Lemma inject_Z_pos_nonzero (p : positive) : ~ (inject_Z (Zpos p) == 0)%Q.
Proof.
  assert (0 < inject_Z (Zpos p))%Q
    by (change (inject_Z 0 < inject_Z (Zpos p))%Q; rewrite <- Zlt_Qlt; lia).
  lra.
Qed.

(** The quotient of two finite doubles, whatever the size of their
    mantissas, is the exact quotient rounded once. *)
Lemma div_finite_spec (sx sy : bool) (mx my : positive) (ex ey : Z) :
  rounds ((inject_Z (Zpos mx) * pow2 ex) / (inject_Z (Zpos my) * pow2 ey))
         (xorb sx sy)
         (div (S754_finite sx mx ex) (S754_finite sy my ey)).
Proof.
  unfold div, SFdiv, SFdiv_core_binary. rewrite fexp_eq.
  set (d1 := Zdigits2 (Zpos mx)). set (d2 := Zdigits2 (Zpos my)).
  set (e' := Z.min (Z.max (d1 + ex - (d2 + ey) - 53) (-1074)) (ex - ey)).
  set (s := ex - ey - e').
  assert (Hs : 0 <= s) by (unfold s, e'; lia).
  set (m' := match s with
             | 0 => Zpos mx
             | Zpos _ => Z.shiftl (Zpos mx) s
             | Zneg _ => 0
             end).
  assert (Hm' : m' = Zpos mx * 2 ^ s).
  { unfold m'. destruct s as [|p|p]; [lia | | lia].
    apply Z.shiftl_mul_pow2. lia. }
  clearbody m'.
  assert (Hp : 0 < 2 ^ s) by (apply Z.pow_pos_nonneg; lia).
  pose proof (Z_div_mod m' (Zpos my) eq_refl) as Hdiv.
  destruct (Z.div_eucl m' (Zpos my)) as [q r]. destruct Hdiv as [Hq Hr].
  assert (Hq0 : 0 <= q) by nia.
  eapply rounds_ext;
    [|apply (binary_round_aux_spec (xorb sx sy) q e' (new_location (Zpos my) r)
               (inject_Z m' / inject_Z (Zpos my)))].
  - assert (E : (pow2 ex == pow2 s * pow2 e' * pow2 ey)%Q).
    { rewrite <- !pow2_add. unfold s. now replace (ex - ey - e' + e' + ey) with ex by lia. }
    rewrite E, Hm', inject_Z_mult, <- pow2_inject by lia.
    field. split; [apply pow2_nonzero | apply inject_Z_pos_nonzero].
  - exact Hq0.
  - apply new_location_spec; [lia | exact Hr |].
    rewrite <- Hq. field. apply inject_Z_pos_nonzero.
  - rewrite fexp_eq.
    assert (Hdig : d1 + s - d2 <= Zdigits2 q).
    { pose proof (Zdigits2_nonneg q) as Hn.
      destruct (Z_le_gt_dec (d1 + s - d2) 0) as [L|G]; [lia|].
      apply Z.nlt_ge. intros C.
      assert (Hup : q < 2 ^ (d1 + s - d2 - 1)) by (apply Zdigits2_le_iff; lia).
      pose proof (Zdigits2_lower (Zpos mx) eq_refl) as L1. fold d1 in L1.
      pose proof (Zdigits2_upper (Zpos my)) as U2. fold d2 in U2.
      pose proof (Zdigits2_pos (Zpos mx) eq_refl) as P1. fold d1 in P1.
      pose proof (Zdigits2_pos (Zpos my) eq_refl) as P2. fold d2 in P2.
      assert (E1 : 2 ^ (d1 - 1 + s) = 2 ^ (d1 + s - d2 - 1) * 2 ^ d2)
        by (rewrite <- Z.pow_add_r by lia; f_equal; lia).
      assert (E2 : 2 ^ (d1 - 1 + s) = 2 ^ (d1 - 1) * 2 ^ s)
        by (rewrite <- Z.pow_add_r by lia; reflexivity).
      assert (0 < 2 ^ (d1 + s - d2 - 1)) by (apply Z.pow_pos_nonneg; lia).
      assert (0 < 2 ^ d2) by (apply Z.pow_pos_nonneg; lia).
      nia. }
    unfold e'. lia.
Qed.


(** *** Integers *)

Lemma Pos_iter_xO (m d : positive) :
  Zpos (Pos.iter xO m d) = Zpos m * 2 ^ Zpos d.
Proof.
  induction d as [|d IH] using Pos.peano_ind.
  - cbn [Pos.iter]. lia.
  - rewrite Pos.iter_succ, Pos2Z.inj_succ, Z.pow_succ_r by lia.
    rewrite Pos2Z.inj_xO, IH. lia.
Qed.

Lemma Zdigits2_mul_pow2 (m k : Z) :
  0 < m -> 0 <= k -> Zdigits2 (m * 2 ^ k) = Zdigits2 m + k.
Proof.
  intros Hm Hk.
  assert (0 < 2 ^ k) by (apply Z.pow_pos_nonneg; lia).
  rewrite !Zdigits2_log2 by nia. rewrite Z.log2_mul_pow2 by lia. lia.
Qed.

(** An integer below [2 ^ 53] is a double. *)
Lemma ofZ_exact (z : Z) :
  0 < z <= MAX_SAFE_INTEGER ->
  exists m e,
    ofZ z = S754_finite false m e /\
    canonical_mantissa prec emax m e = true /\
    (inject_Z (Zpos m) * pow2 e == inject_Z z)%Q.
Proof.
  intros [Hz Hmax]. destruct z as [|p|p]; try lia.
  unfold ofZ, binary_normalize, binary_round, shl_align. rewrite fexp_eq.
  cbn [Zdigits2].
  assert (Hd : Zdigits2 (Zpos p) <= 53).
  { apply Zdigits2_le_iff; [lia | lia |]. unfold MAX_SAFE_INTEGER in Hmax. lia. }
  pose proof (Zdigits2_pos (Zpos p) eq_refl) as Hd0.
  cbn [Zdigits2] in Hd, Hd0.
  replace (Z.max (Zpos (digits2_pos p) + 0 - 53) (-1074) - 0)
    with (Zpos (digits2_pos p) - 53) by lia.
  destruct (Zpos (digits2_pos p) - 53) as [|k|k] eqn:E; [| lia |].
  - exists p, 0. split; [|split].
    + replace (Z.max (Zpos (digits2_pos p) + 0 - 53) (-1074)) with 0 by lia.
      apply binary_round_aux_exact; [|lia].
      apply canonical_mantissa_eq. cbn [Zdigits2]. lia.
    + apply canonical_mantissa_eq. cbn [Zdigits2]. lia.
    + change (pow2 0) with 1%Q. ring.
  - exists (Pos.iter xO p k), (Zneg k).
    assert (Hdig : Zdigits2 (Zpos (Pos.iter xO p k)) = 53).
    { rewrite Pos_iter_xO, Zdigits2_mul_pow2 by lia. cbn [Zdigits2]. lia. }
    split; [|split].
    + replace (Z.max (Zpos (digits2_pos p) + 0 - 53) (-1074)) with (Zneg k) by lia.
      apply binary_round_aux_exact; [|lia].
      apply canonical_mantissa_eq. lia.
    + apply canonical_mantissa_eq. lia.
    + rewrite Pos_iter_xO, inject_Z_mult, <- pow2_inject by lia.
      rewrite <- Qmult_assoc, <- pow2_add.
      replace (Zpos k + Zneg k) with 0 by lia. change (pow2 0) with 1%Q. ring.
Qed.

(** *** Multiplication *)

(** The product of two canonical finite doubles is the exact product
    rounded once. *)
Lemma mul_finite_spec (sx sy : bool) (mx my : positive) (ex ey : Z) :
  canonical_mantissa prec emax mx ex = true ->
  canonical_mantissa prec emax my ey = true ->
  rounds ((inject_Z (Zpos mx) * pow2 ex) * (inject_Z (Zpos my) * pow2 ey))
         (xorb sx sy)
         (mul (S754_finite sx mx ex) (S754_finite sy my ey)).
Proof.
  intros Cx Cy. apply canonical_mantissa_eq in Cx, Cy.
  unfold mul, SFmul.
  eapply rounds_ext;
    [|apply (binary_round_aux_spec (xorb sx sy) (Zpos (mx * my)) (ex + ey) loc_Exact
               (inject_Z (Zpos (mx * my))))].
  - rewrite Pos2Z.inj_mul, inject_Z_mult, pow2_add. ring.
  - lia.
  - unfold located; cbn. reflexivity.
  - rewrite fexp_eq, Pos2Z.inj_mul.
    pose proof (Zdigits2_mul (Zpos mx) (Zpos my) eq_refl eq_refl).
    pose proof (Zdigits2_pos (Zpos mx) eq_refl).
    pose proof (Zdigits2_pos (Zpos my) eq_refl).
    lia.
Qed.


(** *** Error of one rounding, and of the three roundings of a scaled
    coordinate *)

Lemma mag_nonneg (d : double) : (0 <= mag d)%Q.
Proof.
  destruct d as [s|s| |s m e]; cbn [mag]; try lra.
  pose proof (pow2_pos e).
  assert (0 < inject_Z (Zpos m))%Q
    by (change (inject_Z 0 < inject_Z (Zpos m))%Q; rewrite <- Zlt_Qlt; lia).
  apply Qmult_le_0_compat; lra.
Qed.

Lemma rounds_approx (R : Q) (s : bool) (d : double) :
  (0 <= R)%Q -> rounds R s d ->
  match d with
  | S754_zero _ | S754_finite _ _ _ => approx (pow2 (-1075)) R (mag d)
  | _ => True
  end.
Proof.
  intros HR. destruct d as [s'|s'| |s' m e]; cbn [rounds mag]; auto.
  - intros [_ H]. unfold approx. pose proof (pow2_pos (-1075)). lra.
  - intros (_ & Hc & He & Hlo & Hhi). unfold approx.
    apply canonical_mantissa_eq in Hc.
    pose proof (pow2_pos e) as Pe. pose proof (pow2_pred e) as Ph.
    destruct (Z.eq_dec e (-1074)) as [->|N].
    + change (-1074 - 1) with (-1075) in *.
      assert (0 <= (1 # 9007199254740992) * (inject_Z (Zpos m) * pow2 (-1074)))%Q.
      { apply Qmult_le_0_compat; [discriminate|].
        apply (mag_nonneg (S754_finite s' m (-1074))). }
      lra.
    + assert (Hdig : Zdigits2 (Zpos m) = 53) by lia.
      pose proof (Zdigits2_lower (Zpos m) eq_refl) as Hlow.
      rewrite Hdig in Hlow. change (2 ^ (53 - 1)) with 4503599627370496 in Hlow.
      assert (Hq : (inject_Z 4503599627370496 <= inject_Z (Zpos m))%Q)
        by (rewrite <- Zle_Qle; exact Hlow).
      assert (Hprod : (inject_Z 4503599627370496 * pow2 e
                       <= inject_Z (Zpos m) * pow2 e)%Q)
        by (apply Qmult_le_compat_r; lra).
      change (inject_Z 4503599627370496) with (4503599627370496 # 1)%Q in Hprod.
      pose proof (pow2_pos (-1075)). lra.
Qed.


Lemma Qmult_le_compat_nonneg (a a' b b' : Q) :
  (0 <= a <= a' -> 0 <= b <= b' -> a * b <= a' * b')%Q.
Proof.
  intros [Ha Haa] [Hb Hbb].
  apply Qle_trans with (a' * b)%Q.
  - apply Qmult_le_compat_r; assumption.
  - rewrite !(Qmult_comm a'). apply Qmult_le_compat_r; lra.
Qed.

(** A coordinate [A] and a scale [B], both rounded to doubles [a] and
    [b] whose product is rounded to [c]: [c] is within the relative
    error [2 ^ -50] of [A * B]. *)
Lemma scale_error (eta A B a b c : Q) :
  (0 <= eta <= 1 # 1329227995784915872903807060280344576)%Q ->
  (0 <= A)%Q ->
  ((1 # 9007199254740992) <= B <= 9007199254740992 # 1)%Q ->
  (0 <= a)%Q -> (0 <= b)%Q -> (0 <= c)%Q ->
  approx eta A a -> approx eta B b -> approx eta (a * b) c ->
  (c - A * B <= (1 # 1125899906842624) * (A * B) + (72057594037927936 # 1) * eta /\
   A * B - c <= (1 # 1125899906842624) * (A * B) + (72057594037927936 # 1) * eta)%Q.
Proof.
  intros [He0 He1] HA [HB0 HB1] Ha Hb Hc [Ha1 Ha2] [Hb1 Hb2] [Hc1 Hc2].
  assert (HP : (0 <= A * B)%Q) by (apply Qmult_le_0_compat; lra).
  assert (F1 : (A * (1 # 9007199254740992) <= A * B)%Q)
    by (rewrite !(Qmult_comm A); apply Qmult_le_compat_r; lra).
  assert (F1' : (0 <= A * eta /\ A * eta
                 <= A * (1 # 1329227995784915872903807060280344576))%Q).
  { split; [apply Qmult_le_0_compat; lra|].
    rewrite !(Qmult_comm A). apply Qmult_le_compat_r; lra. }
  assert (F2 : (0 <= eta * B /\ eta * B <= eta * (9007199254740992 # 1))%Q).
  { split; [apply Qmult_le_0_compat; lra|].
    rewrite !(Qmult_comm eta). apply Qmult_le_compat_r; lra. }
  assert (F3 : (0 <= eta * eta /\ eta * eta <= eta)%Q).
  { split; [apply Qmult_le_0_compat; lra|].
    apply Qle_trans with (1 * eta)%Q; [|lra].
    apply Qmult_le_compat_r; lra. }
  assert (Hab : (0 <= a * b)%Q) by (apply Qmult_le_0_compat; lra).
  assert (Hahi : (a <= (1 + 2 * (1 # 9007199254740992)) * (A + eta))%Q) by (lra).
  assert (Hbhi : (b <= (1 + 2 * (1 # 9007199254740992)) * (B + eta))%Q) by (lra).
  assert (Hup : (a * b <= ((1 + 2 * (1 # 9007199254740992)) * (A + eta)) * ((1 + 2 * (1 # 9007199254740992)) * (B + eta)))%Q)
    by (apply Qmult_le_compat_nonneg; lra).
  assert (Hup' : (a * b <= (1 + 2 * (1 # 9007199254740992)) * (1 + 2 * (1 # 9007199254740992))
                           * (A * B + A * eta + eta * B + eta * eta))%Q).
  { eapply Qle_trans; [exact Hup|]. apply Qle_lteq. right. ring. }
  split.
  - lra.
  - destruct (Qlt_le_dec A eta) as [Hsmall|Hbig].
    + assert (A * B <= eta * (9007199254740992 # 1))%Q.
      { apply Qle_trans with (eta * B)%Q; [|lra].
        apply Qmult_le_compat_r; lra. }
      lra.
    + assert (Halo : ((1 - (1 # 9007199254740992)) * (A - eta) <= a)%Q) by (lra).
      assert (Hblo : ((1 - (1 # 9007199254740992)) * (B - eta) <= b)%Q) by (lra).
      assert (Hlow : (((1 - (1 # 9007199254740992)) * (A - eta)) * ((1 - (1 # 9007199254740992)) * (B - eta)) <= a * b)%Q).
      { apply Qmult_le_compat_nonneg; split; try assumption.
        - apply Qmult_le_0_compat; lra.
        - apply Qmult_le_0_compat; lra. }
      assert (Hlow' : ((1 - (1 # 9007199254740992)) * (1 - (1 # 9007199254740992))
                       * (A * B - A * eta - eta * B + eta * eta) <= a * b)%Q).
      { eapply Qle_trans; [|exact Hlow]. apply Qle_lteq. right. ring. }
      lra.
Qed.


(** *** The Number value of a rational, the scale, the scaled coordinate *)

Lemma ofQ_spec (X : Q) :
  match Qnum X with
  | 0 => ofQ X = S754_zero false
  | Zpos _ => rounds X false (ofQ X)
  | Zneg _ => rounds (- X) true (ofQ X)
  end.
Proof.
  destruct X as [n d]. unfold ofQ. cbn [Qnum Qden].
  destruct n as [|n|n]; [reflexivity| |].
  - eapply rounds_ext; [|apply (div_finite_spec false false n d 0 0)].
    change (pow2 0) with 1%Q. rewrite (Qmake_Qdiv (Zpos n) d). field.
    apply inject_Z_pos_nonzero.
  - eapply rounds_ext; [|apply (div_finite_spec true false n d 0 0)].
    change (pow2 0) with 1%Q. rewrite (Qmake_Qdiv (Zneg n) d).
    change (Zneg n) with (- Zpos n). rewrite inject_Z_opp. field.
    apply inject_Z_pos_nonzero.
Qed.

Lemma eta_small :
  (0 <= pow2 (-1075) <= 1 # 1329227995784915872903807060280344576)%Q.
Proof.
  split; [apply Qlt_le_weak, pow2_pos|].
  apply Qle_trans with (pow2 (-120)); [apply pow2_le; lia|].
  apply Qle_lteq. right. reflexivity.
Qed.

Lemma ratio_bounds (W D : Z) :
  dimension W -> dimension D ->
  ((1 # 9007199254740992) <= inject_Z W / inject_Z D <= 9007199254740992 # 1)%Q.
Proof.
  unfold dimension, MAX_SAFE_INTEGER. intros HW HD.
  assert (PD : (0 < inject_Z D)%Q)
    by (change (inject_Z 0 < inject_Z D)%Q; rewrite <- Zlt_Qlt; lia).
  assert (W1 : (1 <= inject_Z W)%Q)
    by (change (inject_Z 1 <= inject_Z W)%Q; rewrite <- Zle_Qle; lia).
  assert (D1 : (1 <= inject_Z D)%Q)
    by (change (inject_Z 1 <= inject_Z D)%Q; rewrite <- Zle_Qle; lia).
  assert (W2 : (inject_Z W <= 9007199254740992 # 1)%Q)
    by (change (inject_Z W <= inject_Z 9007199254740992)%Q; rewrite <- Zle_Qle; lia).
  assert (D2 : (inject_Z D <= 9007199254740992 # 1)%Q)
    by (change (inject_Z D <= inject_Z 9007199254740992)%Q; rewrite <- Zle_Qle; lia).
  split.
  - apply Qle_shift_div_l; [exact PD | lra].
  - apply Qle_shift_div_r; [exact PD | lra].
Qed.

(** The scale of the crop mapping is a positive finite double, the
    quotient of the two dimensions rounded once. *)
Lemma scale_spec (W D : Z) :
  dimension W -> dimension D ->
  exists m e,
    div (ofZ W) (ofZ D) = S754_finite false m e /\
    canonical_mantissa prec emax m e = true /\
    approx (pow2 (-1075)) (inject_Z W / inject_Z D) (inject_Z (Zpos m) * pow2 e).
Proof.
  intros HW HD.
  destruct (ratio_bounds W D HW HD) as [B0 B1].
  destruct (ofZ_exact W HW) as (mw & ew & -> & _ & Ew).
  destruct (ofZ_exact D HD) as (md & ed & -> & _ & Ed).
  assert (H : rounds (inject_Z W / inject_Z D) false
                (div (S754_finite false mw ew) (S754_finite false md ed))).
  { eapply rounds_ext; [|apply (div_finite_spec false false mw md ew ed)].
    now rewrite Ew, Ed. }
  assert (HR : (0 <= inject_Z W / inject_Z D)%Q) by lra.
  pose proof (rounds_approx _ _ _ HR H) as Happ.
  destruct (div (S754_finite false mw ew) (S754_finite false md ed))
    as [s|s| |s m e]; cbn [rounds] in H.
  - destruct H as [_ H]. destruct eta_small as [_ E]. exfalso. lra.
  - destruct H as [_ H]. exfalso.
    assert (pow2 54 <= pow2 1023)%Q by (apply pow2_le; lia).
    assert (pow2 54 == 18014398509481984 # 1)%Q by reflexivity. lra.
  - contradiction.
  - destruct H as (-> & Hc & _). exists m, e. auto.
Qed.

(** A scaled coordinate is never [NaN]; it is infinite only when the
    product is beyond the doubles, with the sign of the coordinate; and
    otherwise it is the exact product [v * (imageDim / displayDim)] within
    the relative error [2 ^ -50]. *)
Lemma scaled_spec (X : Q) (W D : Z) :
  dimension W -> dimension D ->
  match scaled X W D with
  | S754_nan => False
  | S754_infinity s => if s then (X < 0)%Q else (0 < X)%Q
  | p =>
      (Qabs (toQ p - X * (inject_Z W / inject_Z D))
       <= (1 # 1125899906842624) * Qabs (X * (inject_Z W / inject_Z D))
          + pow2 (-1019))%Q
  end.
Proof.
  intros HW HD. unfold scaled.
  destruct (ratio_bounds W D HW HD) as [B0 B1].
  destruct (scale_spec W D HW HD) as (ms & es & Es & Cs & As).
  change (SFdiv 53 1024) with div. rewrite Es.
  set (S := (inject_Z W / inject_Z D)%Q) in *.
  set (Ms := (inject_Z (Zpos ms) * pow2 es)%Q) in *.
  assert (HMs : (0 <= Ms)%Q) by apply (mag_nonneg (S754_finite false ms es)).
  pose proof eta_small as Heta.
  assert (Htau : (pow2 (-1019) == (72057594037927936 # 1) * pow2 (-1075))%Q).
  { replace (-1019) with (56 + -1075) by lia. rewrite pow2_add.
    assert (E : (pow2 56 == 72057594037927936 # 1)%Q) by reflexivity.
    now rewrite E. }
  pose proof (ofQ_spec X) as HX.
  destruct X as [n d]. cbn [Qnum] in HX.
  destruct n as [|n|n].
  - (* the coordinate is 0 *)
    rewrite HX. cbn [SFmul xorb toQ].
    assert (E : ((0 # d) * S == 0)%Q)
      by (setoid_replace (0 # d)%Q with 0%Q by reflexivity; ring).
    rewrite E. setoid_replace (0 - 0)%Q with 0%Q by ring.
    change (Qabs 0) with 0%Q. pose proof (pow2_pos (-1019)). lra.
  - (* a positive coordinate *)
    set (X := (Zpos n # d)%Q) in *.
    assert (PX : (0 < X)%Q) by reflexivity.
    assert (PXS : (0 <= X * S)%Q) by (apply Qmult_le_0_compat; lra).
    pose proof (rounds_approx _ _ _ (Qlt_le_weak _ _ PX) HX) as AX.
    destruct (ofQ X) as [sx|sx| |sx mx ex]; cbn [rounds] in HX.
    + cbn [SFmul toQ]. cbn [mag] in AX.
      destruct (scale_error _ X S 0 Ms 0 Heta (Qlt_le_weak _ _ PX) (conj B0 B1))
        as [E1 E2]; try lra; try assumption.
      rewrite Qabs_neg by lra. rewrite (Qabs_pos (X * S)) by exact PXS.
      rewrite Htau. lra.
    + cbn [SFmul]. destruct HX as [-> _]. exact PX.
    + contradiction.
    + destruct HX as (-> & Cx & _). cbn [mag] in AX.
      set (Mx := (inject_Z (Zpos mx) * pow2 ex)%Q) in *.
      assert (HMx : (0 <= Mx)%Q) by apply (mag_nonneg (S754_finite false mx ex)).
      pose proof (mul_finite_spec false false mx ms ex es Cx Cs) as Hp.
      fold Mx Ms in Hp. cbn [xorb] in Hp.
      assert (HMM : (0 <= Mx * Ms)%Q) by (apply Qmult_le_0_compat; lra).
      pose proof (rounds_approx _ _ _ HMM Hp) as Ap.
      change (SFmul 53 1024) with mul.
      destruct (mul (S754_finite false mx ex) (S754_finite false ms es))
        as [sp|sp| |sp mp ep]; cbn [rounds] in Hp.
      * cbn [toQ]. cbn [mag] in Ap.
        destruct (scale_error _ X S Mx Ms 0 Heta (Qlt_le_weak _ _ PX) (conj B0 B1))
          as [E1 E2]; try lra; try assumption.
        rewrite Qabs_neg by lra. rewrite (Qabs_pos (X * S)) by exact PXS.
        rewrite Htau. lra.
      * destruct Hp as [-> _]. exact PX.
      * contradiction.
      * destruct Hp as (-> & _). cbn [toQ]. cbn [mag] in Ap.
        set (Mp := (inject_Z (Zpos mp) * pow2 ep)%Q) in *.
        assert (HMp : (0 <= Mp)%Q) by apply (mag_nonneg (S754_finite false mp ep)).
        destruct (scale_error _ X S Mx Ms Mp Heta (Qlt_le_weak _ _ PX) (conj B0 B1))
          as [E1 E2]; try lra; try assumption.
        rewrite (Qabs_pos (X * S)) by exact PXS. rewrite Htau.
        apply Qabs_case; intros _; lra.
  - (* a negative coordinate *)
    set (X := (Zneg n # d)%Q) in *.
    assert (NX : (X < 0)%Q) by reflexivity.
    assert (PA : (0 <= - X)%Q) by lra.
    assert (PXS : (0 <= (- X) * S)%Q) by (apply Qmult_le_0_compat; lra).
    assert (NXS : (X * S <= 0)%Q)
      by (setoid_replace (X * S)%Q with (- ((- X) * S))%Q by ring; lra).
    pose proof (rounds_approx _ _ _ PA HX) as AX.
    destruct (ofQ X) as [sx|sx| |sx mx ex]; cbn [rounds] in HX.
    + cbn [SFmul toQ]. cbn [mag] in AX.
      destruct (scale_error _ (- X) S 0 Ms 0 Heta PA (conj B0 B1))
        as [E1 E2]; try lra; try assumption.
      rewrite Qabs_pos by lra. rewrite (Qabs_neg (X * S)) by exact NXS.
      rewrite Htau. lra.
    + cbn [SFmul]. destruct HX as [-> _]. exact NX.
    + contradiction.
    + destruct HX as (-> & Cx & _). cbn [mag] in AX.
      set (Mx := (inject_Z (Zpos mx) * pow2 ex)%Q) in *.
      assert (HMx : (0 <= Mx)%Q) by apply (mag_nonneg (S754_finite true mx ex)).
      pose proof (mul_finite_spec true false mx ms ex es Cx Cs) as Hp.
      fold Mx Ms in Hp. cbn [xorb] in Hp.
      assert (HMM : (0 <= Mx * Ms)%Q) by (apply Qmult_le_0_compat; lra).
      pose proof (rounds_approx _ _ _ HMM Hp) as Ap.
      change (SFmul 53 1024) with mul.
      destruct (mul (S754_finite true mx ex) (S754_finite false ms es))
        as [sp|sp| |sp mp ep]; cbn [rounds] in Hp.
      * cbn [toQ]. cbn [mag] in Ap.
        destruct (scale_error _ (- X) S Mx Ms 0 Heta PA (conj B0 B1))
          as [E1 E2]; try lra; try assumption.
        rewrite Qabs_pos by lra. rewrite (Qabs_neg (X * S)) by exact NXS.
        rewrite Htau. lra.
      * destruct Hp as [-> _]. exact NX.
      * contradiction.
      * destruct Hp as (-> & _). cbn [toQ]. cbn [mag] in Ap.
        set (Mp := (inject_Z (Zpos mp) * pow2 ep)%Q) in *.
        assert (HMp : (0 <= Mp)%Q) by apply (mag_nonneg (S754_finite true mp ep)).
        destruct (scale_error _ (- X) S Mx Ms Mp Heta PA (conj B0 B1))
          as [E1 E2]; try lra; try assumption.
        rewrite (Qabs_neg (X * S)) by exact NXS. rewrite Htau.
        apply Qabs_case; intros _; lra.
Qed.

(** *** Subtraction *)

Lemma binary_round_spec (sx : bool) (mx : positive) (ex : Z) :
  rounds (inject_Z (Zpos mx) * pow2 ex) sx (binary_round prec emax sx mx ex).
Proof.
  unfold binary_round, shl_align. rewrite fexp_eq.
  set (d := Zpos (digits2_pos mx)).
  assert (Hd : d = Zdigits2 (Zpos mx)) by reflexivity.
  destruct (Z.max (d + ex - 53) (-1074) - ex) as [|k|k] eqn:E.
  - eapply rounds_ext;
      [|apply (binary_round_aux_spec sx (Zpos mx) ex loc_Exact (inject_Z (Zpos mx)))].
    + reflexivity.
    + lia.
    + unfold located; cbn. reflexivity.
    + rewrite fexp_eq, <- Hd. lia.
  - eapply rounds_ext;
      [|apply (binary_round_aux_spec sx (Zpos mx) ex loc_Exact (inject_Z (Zpos mx)))].
    + reflexivity.
    + lia.
    + unfold located; cbn. reflexivity.
    + rewrite fexp_eq, <- Hd. lia.
  - eapply rounds_ext;
      [|apply (binary_round_aux_spec sx (Zpos (Pos.iter xO mx k))
                 (Z.max (d + ex - 53) (-1074)) loc_Exact
                 (inject_Z (Zpos (Pos.iter xO mx k))))].
    + rewrite Pos_iter_xO, inject_Z_mult, <- pow2_inject by lia.
      rewrite <- Qmult_assoc, <- pow2_add.
      now replace (Zpos k + Z.max (d + ex - 53) (-1074)) with ex by lia.
    + lia.
    + unfold located; cbn. reflexivity.
    + rewrite fexp_eq, Pos_iter_xO, Zdigits2_mul_pow2 by lia. rewrite <- Hd. lia.
Qed.

Lemma shl_align_fst (mx : positive) (ex ez : Z) :
  ez <= ex -> Zpos (fst (shl_align mx ex ez)) = Zpos mx * 2 ^ (ex - ez).
Proof.
  intros H. unfold shl_align.
  destruct (ez - ex) as [|k|k] eqn:E; cbn [fst]; try lia.
  - replace (ex - ez) with 0 by lia. lia.
  - rewrite Pos_iter_xO. f_equal. f_equal. lia.
Qed.

(** The signed value of a finite double. *)
Lemma toQ_finite (s : bool) (m : positive) (e : Z) :
  (toQ (S754_finite s m e)
   == inject_Z (cond_Zopp s (Zpos m)) * pow2 e)%Q.
Proof.
  cbn [toQ]. destruct s; cbn [cond_Zopp]; [|reflexivity].
  change (- Zpos m) with (Zneg m).
  change (Zneg m) with (- Zpos m). rewrite inject_Z_opp. ring.
Qed.

(** The difference of two finite doubles is the exact difference rounded
    once, and [+0] when they are equal. *)
Lemma sub_finite_spec (sx sy : bool) (mx my : positive) (ex ey : Z) :
  let v := (toQ (S754_finite sx mx ex) - toQ (S754_finite sy my ey))%Q in
  ((v == 0)%Q /\ sub (S754_finite sx mx ex) (S754_finite sy my ey) = S754_zero false) \/
  ((0 < v)%Q /\ rounds v false (sub (S754_finite sx mx ex) (S754_finite sy my ey))) \/
  ((v < 0)%Q /\ rounds (- v) true (sub (S754_finite sx mx ex) (S754_finite sy my ey))).
Proof.
  intros v. unfold sub, SFsub.
  set (ez := Z.min ex ey).
  rewrite (shl_align_fst mx ex ez), (shl_align_fst my ey ez) by (unfold ez; lia).
  set (M := cond_Zopp sx (Zpos mx * 2 ^ (ex - ez))
            - cond_Zopp sy (Zpos my * 2 ^ (ey - ez))).
  assert (HM : (v == inject_Z M * pow2 ez)%Q).
  { unfold v. rewrite !toQ_finite. unfold M.
    assert (Ex : (pow2 ex == pow2 (ex - ez) * pow2 ez)%Q)
      by (now rewrite pow2_cancel).
    assert (Ey : (pow2 ey == pow2 (ey - ez) * pow2 ez)%Q)
      by (now rewrite pow2_cancel).
    rewrite Ex, Ey.
    rewrite (pow2_inject (ex - ez)), (pow2_inject (ey - ez)) by (unfold ez; lia).
    unfold Z.sub at 3. rewrite inject_Z_plus, inject_Z_opp.
    destruct sx, sy; cbn [cond_Zopp];
      rewrite ?inject_Z_opp, ?inject_Z_mult; ring. }
  pose proof (pow2_pos ez) as Pz.
  clearbody M. unfold binary_normalize. destruct M as [|m|m].
  - left. split; [|reflexivity]. rewrite HM. change (inject_Z 0) with 0%Q. ring.
  - right. left.
    assert (P : (0 < inject_Z (Zpos m))%Q)
      by (change (inject_Z 0 < inject_Z (Zpos m))%Q; rewrite <- Zlt_Qlt; lia).
    split.
    + rewrite HM. apply Qmult_lt_0_compat; assumption.
    + eapply rounds_ext; [|apply binary_round_spec]. now rewrite HM.
  - right. right.
    assert (P : (0 < inject_Z (Zpos m))%Q)
      by (change (inject_Z 0 < inject_Z (Zpos m))%Q; rewrite <- Zlt_Qlt; lia).
    assert (E : (inject_Z (Zneg m) == - inject_Z (Zpos m))%Q)
      by (change (Zneg m) with (- Zpos m); now rewrite inject_Z_opp).
    assert (PP : (0 < inject_Z (Zpos m) * pow2 ez)%Q)
      by (apply Qmult_lt_0_compat; assumption).
    split.
    + rewrite HM, E. lra.
    + eapply rounds_ext; [|apply binary_round_spec]. rewrite HM, E. ring.
Qed.

Lemma rounds_abs (R : Q) (s : bool) (d : double) :
  rounds R s d -> rounds R false (abs d).
Proof.
  destruct d as [s'|s'| |s' m e]; cbn [rounds abs SFabs]; intuition.
Qed.

(** The quotient of two dimensions is the exact quotient rounded once. *)
Lemma ratio_rounds (W D : Z) :
  dimension W -> dimension D ->
  rounds (inject_Z W / inject_Z D) false (div (ofZ W) (ofZ D)).
Proof.
  intros HW HD.
  destruct (ofZ_exact W HW) as (mw & ew & -> & _ & Ew).
  destruct (ofZ_exact D HD) as (md & ed & -> & _ & Ed).
  eapply rounds_ext; [|apply (div_finite_spec false false mw md ew ed)].
  now rewrite Ew, Ed.
Qed.

End DoubleFacts.

(* ================================================================== *)
(** * Properties of the crop mapping *)
(* ================================================================== *)

Section CropFacts.

Import JsNumber Crop.

(** [Math.round] returns the integer nearest to its argument. *)
Lemma Math_round_nearest (q : number) :
  (q - (1 # 2) < inject_Z (Math_round q) /\ inject_Z (Math_round q) <= q + (1 # 2))%Q.
Proof.
  unfold Math_round. split.
  - pose proof (Qlt_floor (q + (1 # 2))) as H.
    rewrite inject_Z_plus in H.
    apply Qplus_lt_l with (z := 1%Q).
    eapply Qle_lt_trans; [|exact H].
    ring_simplify. unfold Qle; simpl. lia.
  - apply Qfloor_le.
Qed.

Lemma Qfloor_half_nearest (v : Q) : nearestInteger v (Qfloor (v + (1 # 2))).
Proof.
  unfold nearestInteger.
  pose proof (Qfloor_le (v + (1 # 2))) as Hle.
  pose proof (Qlt_floor (v + (1 # 2))) as Hlt.
  rewrite inject_Z_plus in Hlt. change (inject_Z 1) with 1%Q in Hlt. lra.
Qed.

(** [Math.round] of a double that is not [NaN]. *)
Lemma round_roundedTo (p : double) : p <> S754_nan -> roundedTo p (round p).
Proof.
  destruct p as [s|[|]| |s m e]; cbn [roundedTo round]; intros H;
    try reflexivity; try congruence.
  - exists 0. split; [reflexivity|]. unfold nearestInteger. cbn [toQ].
    change (inject_Z 0) with 0%Q. lra.
  - eexists. split; [reflexivity|]. apply Qfloor_half_nearest.
Qed.

(** Each field of the rectangle is scaled and rounded, to an integer or
    an infinity. *)
Lemma round_scaled (v : number) (imageDim displayDim : Z) :
  dimension imageDim -> dimension displayDim ->
  scaledAndRounded v imageDim displayDim (round (scaled v imageDim displayDim)) /\
  round (scaled v imageDim displayDim) <> NotANumber /\
  ((0 <= v)%Q -> round (scaled v imageDim displayDim) <> NegInfinity).
Proof.
  intros Hi Hd. pose proof (scaled_spec v imageDim displayDim Hi Hd) as H.
  unfold scaledAndRounded.
  assert (Hnan : scaled v imageDim displayDim <> S754_nan)
    by (intros E; rewrite E in H; exact H).
  pose proof (round_roundedTo _ Hnan) as Hr.
  split; [split; [exact Hr|]|split].
  - intros n Hn.
    destruct (scaled v imageDim displayDim) as [s|[|]| |s m e] eqn:E;
      cbn [round roundedTo] in Hn, Hr; try discriminate Hn.
    + destruct Hr as (n' & Hn' & Hnear). rewrite Hn in Hn'.
      injection Hn' as <-. unfold nearestInteger in Hnear.
      apply Qabs_Qle_condition in H. apply Qabs_Qle_condition. lra.
    + destruct Hr as (n' & Hn' & Hnear). rewrite Hn in Hn'.
      injection Hn' as <-. unfold nearestInteger in Hnear.
      apply Qabs_Qle_condition in H. apply Qabs_Qle_condition. lra.
  - destruct (scaled v imageDim displayDim) as [s|[|]| |s m e];
      cbn [round]; congruence.
  - intros Hv.
    destruct (scaled v imageDim displayDim) as [s|[|]| |s m e];
      cbn [round]; try congruence. exfalso. lra.
Qed.

(** The clamp of the origin on one axis. *)
Lemma clamp_origin (c : rounded) (d : Z) :
  0 < d -> c <> NotANumber ->
  exists o,
    max (Integer 0) (min c (Integer (d - 1))) = Integer o /\
    clampedOrigin c d o /\ 0 <= o <= d - 1.
Proof.
  intros Hd Hc. destruct c as [n| | |]; [| | |congruence].
  - cbn [min leb].
    destruct (Z.leb_spec n (d - 1)) as [L|G]; cbn [max leb].
    + destruct (Z.leb_spec 0 n) as [L0|G0].
      * exists n. split; [reflexivity|]. cbn [clampedOrigin]. lia.
      * exists 0. split; [reflexivity|]. cbn [clampedOrigin]. lia.
    + destruct (Z.leb_spec 0 (d - 1)) as [L0|G0]; [|lia].
      exists (d - 1). split; [reflexivity|]. cbn [clampedOrigin]. lia.
  - cbn [min leb max].
    destruct (Z.leb_spec 0 (d - 1)) as [L0|G0]; [|lia].
    exists (d - 1). split; [reflexivity|]. cbn [clampedOrigin]. lia.
  - cbn [min leb max]. exists 0. split; [reflexivity|]. cbn [clampedOrigin]. lia.
Qed.

(** The clamp of the size on one axis, once the origin is [o]. *)
Lemma clamp_size (c : rounded) (d o : Z) :
  c <> NotANumber ->
  clampedSize c (d - o) (min c (minus (Integer d) (Integer o))) /\
  leb (min c (minus (Integer d) (Integer o))) (Integer (d - o)) = true.
Proof.
  intros Hc. destruct c as [n| | |]; [| | |congruence]; cbn [minus min leb].
  - destruct (Z.leb_spec n (d - o)) as [L|G]; cbn [clampedSize leb].
    + split; [left; split; [exact L | reflexivity] | now apply Z.leb_le].
    + split; [right; split; [exact G | reflexivity] | apply Z.leb_refl].
  - cbn [clampedSize leb]. split; [reflexivity | apply Z.leb_refl].
  - cbn [clampedSize]. split; reflexivity.
Qed.

(** With a non-empty image, [cropStoredScreenshot] is decided by the sign
    of the clamped width and height alone. *)
Lemma cropStoredScreenshot_nonempty (b : Bounds) (info : DisplayInfo) (img : Size) :
  0 < sw img -> 0 < sh img ->
  cropStoredScreenshot (Some info) img b
  = if leb (safeWidth (mapRect b (size info) img)) (Integer 0)
       || leb (safeHeight (mapRect b (size info) img)) (Integer 0)
    then FullImage else CropTo (mapRect b (size info) img).
Proof.
  intros Hw Hh. unfold cropStoredScreenshot.
  destruct (Z.eqb_spec (sw img) 0) as [E|_]; [lia|].
  destruct (Z.eqb_spec (sh img) 0) as [E|_]; [lia|]. reflexivity.
Qed.

(** On a width or a height that is not [NaN], the test [> 0] of
    [captureScreenshot] is the negation of the test [<= 0] of
    [cropStoredScreenshot]. *)
Lemma lt_0_not_leb (w : rounded) :
  w <> NotANumber -> lt (Integer 0) w = negb (leb w (Integer 0)).
Proof.
  destruct w as [n| | |]; cbn [lt leb negb]; try congruence.
  intros _. destruct (Z.ltb_spec 0 n), (Z.leb_spec n 0); cbn; lia.
Qed.

Lemma clampedSize_not_NaN (c : rounded) (room : Z) (w : rounded) :
  clampedSize c room w -> w <> NotANumber.
Proof.
  destruct c as [n| | |]; cbn [clampedSize]; intros H;
    [destruct H as [[_ ->]|[_ ->]] | subst w | subst w | contradiction];
    discriminate.
Qed.

(** What the scale / round / clamp block computes, for every rectangle. *)
Lemma mapRect_spec (b : Bounds) (ds img : Size) :
  dimension (sw ds) -> dimension (sh ds) ->
  dimension (sw img) -> dimension (sh img) ->
  exists (cropX cropY cropWidth cropHeight : rounded) (px py : Z),
    scaledAndRounded (x b) (sw img) (sw ds) cropX /\
    scaledAndRounded (y b) (sh img) (sh ds) cropY /\
    scaledAndRounded (width b) (sw img) (sw ds) cropWidth /\
    scaledAndRounded (height b) (sh img) (sh ds) cropHeight /\
    clampedOrigin cropX (sw img) px /\
    clampedOrigin cropY (sh img) py /\
    clampedSize cropWidth (sw img - px) (safeWidth (mapRect b ds img)) /\
    clampedSize cropHeight (sh img - py) (safeHeight (mapRect b ds img)) /\
    safeX (mapRect b ds img) = Integer px /\
    safeY (mapRect b ds img) = Integer py /\
    0 <= px <= sw img - 1 /\ 0 <= py <= sh img - 1 /\
    leb (safeWidth (mapRect b ds img)) (Integer (sw img - px)) = true /\
    leb (safeHeight (mapRect b ds img)) (Integer (sh img - py)) = true /\
    ((0 <= width b)%Q -> cropWidth <> NegInfinity) /\
    ((0 <= height b)%Q -> cropHeight <> NegInfinity).
Proof.
  intros Hdw Hdh Hiw Hih.
  destruct (round_scaled (x b) _ _ Hiw Hdw) as (Sx & Nx & _).
  destruct (round_scaled (y b) _ _ Hih Hdh) as (Sy & Ny & _).
  destruct (round_scaled (width b) _ _ Hiw Hdw) as (Sw & Nw & Pw).
  destruct (round_scaled (height b) _ _ Hih Hdh) as (Sh & Nh & Ph).
  unfold mapRect. cbn [safeX safeY safeWidth safeHeight].
  change (mul (ofQ (x b)) (div (ofZ (sw img)) (ofZ (sw ds))))
    with (scaled (x b) (sw img) (sw ds)).
  change (mul (ofQ (y b)) (div (ofZ (sh img)) (ofZ (sh ds))))
    with (scaled (y b) (sh img) (sh ds)).
  change (mul (ofQ (width b)) (div (ofZ (sw img)) (ofZ (sw ds))))
    with (scaled (width b) (sw img) (sw ds)).
  change (mul (ofQ (height b)) (div (ofZ (sh img)) (ofZ (sh ds))))
    with (scaled (height b) (sh img) (sh ds)).
  destruct (clamp_origin _ (sw img) (proj1 Hiw) Nx) as (px & Ex & Cx & Rx).
  destruct (clamp_origin _ (sh img) (proj1 Hih) Ny) as (py & Ey & Cy & Ry).
  rewrite Ex, Ey.
  destruct (clamp_size _ (sw img) px Nw) as [Cw Lw].
  destruct (clamp_size _ (sh img) py Nh) as [Ch Lh].
  exists (round (scaled (x b) (sw img) (sw ds))),
         (round (scaled (y b) (sh img) (sh ds))),
         (round (scaled (width b) (sw img) (sw ds))),
         (round (scaled (height b) (sh img) (sh ds))), px, py.
  repeat (split; [assumption || reflexivity || lia|]). assumption.
Qed.

(** [C1] For every rectangle, with display and thumbnail dimensions that
    are positive integers, each of x, y, width and height is multiplied by
    thumbnail dimension over display dimension and rounded to an integer
    (to an infinity when the product is beyond the doubles); the origin
    is clamped into [[0, dim - 1]] and the size cut back to
    [dim - origin], so that the rectangle lies inside the thumbnail;
    when its width or its height is zero or negative, hence when its
    area is, both [captureScreenshot] and [cropStoredScreenshot] hand
    back the whole image; the two functions agree, and when they crop it
    is to this rectangle of whole pixels, of positive width and height,
    inside the thumbnail. *)
Theorem C1_crop_mapping_clamped (b : Bounds) (info : DisplayInfo) (img : Size) :
  dimension (sw (size info)) -> dimension (sh (size info)) ->
  dimension (sw img) -> dimension (sh img) ->
  exists (cropX cropY cropWidth cropHeight : rounded) (px py : Z),
    scaledAndRounded (x b) (sw img) (sw (size info)) cropX /\
    scaledAndRounded (y b) (sh img) (sh (size info)) cropY /\
    scaledAndRounded (width b) (sw img) (sw (size info)) cropWidth /\
    scaledAndRounded (height b) (sh img) (sh (size info)) cropHeight /\
    clampedOrigin cropX (sw img) px /\
    clampedOrigin cropY (sh img) py /\
    clampedSize cropWidth (sw img - px)
      (safeWidth (mapRect b (size info) img)) /\
    clampedSize cropHeight (sh img - py)
      (safeHeight (mapRect b (size info) img)) /\
    safeX (mapRect b (size info) img) = Integer px /\
    safeY (mapRect b (size info) img) = Integer py /\
    0 <= px <= sw img - 1 /\ 0 <= py <= sh img - 1 /\
    inside (mapRect b (size info) img) img /\
    (leb (safeWidth (mapRect b (size info) img)) (Integer 0) = true \/
     leb (safeHeight (mapRect b (size info) img)) (Integer 0) = true ->
     captureScreenshot_crop (Some b) (Some info) img = FullImage /\
     cropStoredScreenshot (Some info) img b = FullImage) /\
    (forall pw ph,
       safeWidth (mapRect b (size info) img) = Integer pw ->
       safeHeight (mapRect b (size info) img) = Integer ph ->
       pw * ph <= 0 ->
       captureScreenshot_crop (Some b) (Some info) img = FullImage /\
       cropStoredScreenshot (Some info) img b = FullImage) /\
    captureScreenshot_crop (Some b) (Some info) img
      = cropStoredScreenshot (Some info) img b /\
    (cropStoredScreenshot (Some info) img b = FullImage \/
     exists pw ph,
       cropStoredScreenshot (Some info) img b = CropTo (pixels px py pw ph) /\
       mapRect b (size info) img = pixels px py pw ph /\
       0 < pw /\ 0 < ph /\ px + pw <= sw img /\ py + ph <= sh img).
Proof.
  intros Hdw Hdh Hiw Hih.
  destruct (mapRect_spec b (size info) img Hdw Hdh Hiw Hih)
    as (cx & cy & cw & ch & px & py & Sx & Sy & Sw & Sh & Cx & Cy & Cw & Ch
        & Ex & Ey & Rx & Ry & Lw & Lh & _ & _).
  exists cx, cy, cw, ch, px, py.
  repeat (split; [assumption|]).
  rewrite (cropStoredScreenshot_nonempty b info img (proj1 Hiw) (proj1 Hih)).
  unfold captureScreenshot_crop.
  pose proof (clampedSize_not_NaN _ _ _ Cw) as Nw.
  pose proof (clampedSize_not_NaN _ _ _ Ch) as Nh.
  rewrite (lt_0_not_leb _ Nw), (lt_0_not_leb _ Nh).
  revert Ex Ey Lw Lh Nw Nh. clear Cw Ch.
  generalize (mapRect b (size info) img). intros [rx ry rw rh].
  cbn [safeX safeY safeWidth safeHeight]. intros -> -> Lw Lh Nw Nh.
  split; [|split; [|split; [|split]]].
  - exists px, py. cbn [safeX safeY safeWidth safeHeight].
    repeat (split; [reflexivity || lia || assumption|]). assumption.
  - intros [H|H]; rewrite H; cbn [negb andb orb]; [auto|].
    destruct (leb rw (Integer 0)); cbn [negb andb orb]; auto.
  - intros pw ph -> -> Harea. cbn [leb].
    destruct (Z.leb_spec pw 0), (Z.leb_spec ph 0); cbn [negb andb orb];
      auto; nia.
  - destruct (leb rw (Integer 0)), (leb rh (Integer 0)); reflexivity.
  - destruct (leb rw (Integer 0)) eqn:Ew; [now left|].
    destruct (leb rh (Integer 0)) eqn:Eh; [now left|]. right.
    destruct rw as [pw| | |]; cbn [leb] in Ew, Lw; try discriminate; try congruence.
    destruct rh as [ph| | |]; cbn [leb] in Eh, Lh; try discriminate; try congruence.
    exists pw, ph. cbn [orb].
    apply Z.leb_gt in Ew, Eh. apply Z.leb_le in Lw, Lh.
    repeat split; lia.
Qed.

(** Instance of [C1]: a 1920x1080 display whose thumbnail is
    4096x2305. *)
Lemma C1_crop_mapping_clamped_witness :
  dimension (sw (size fullHD)) /\ dimension (sh (size fullHD)) /\
  dimension (sw thumb4096) /\ dimension (sh thumb4096) /\
  exists (cropX cropY cropWidth cropHeight : rounded) (px py : Z),
    scaledAndRounded (x tieRect) (sw thumb4096) (sw (size fullHD)) cropX /\
    scaledAndRounded (y tieRect) (sh thumb4096) (sh (size fullHD)) cropY /\
    scaledAndRounded (width tieRect) (sw thumb4096) (sw (size fullHD)) cropWidth /\
    scaledAndRounded (height tieRect) (sh thumb4096) (sh (size fullHD)) cropHeight /\
    clampedOrigin cropX (sw thumb4096) px /\
    clampedOrigin cropY (sh thumb4096) py /\
    clampedSize cropWidth (sw thumb4096 - px)
      (safeWidth (mapRect tieRect (size fullHD) thumb4096)) /\
    clampedSize cropHeight (sh thumb4096 - py)
      (safeHeight (mapRect tieRect (size fullHD) thumb4096)) /\
    safeX (mapRect tieRect (size fullHD) thumb4096) = Integer px /\
    safeY (mapRect tieRect (size fullHD) thumb4096) = Integer py /\
    0 <= px <= sw thumb4096 - 1 /\ 0 <= py <= sh thumb4096 - 1 /\
    inside (mapRect tieRect (size fullHD) thumb4096) thumb4096 /\
    (leb (safeWidth (mapRect tieRect (size fullHD) thumb4096)) (Integer 0) = true \/
     leb (safeHeight (mapRect tieRect (size fullHD) thumb4096)) (Integer 0) = true ->
     captureScreenshot_crop (Some tieRect) (Some fullHD) thumb4096 = FullImage /\
     cropStoredScreenshot (Some fullHD) thumb4096 tieRect = FullImage) /\
    (forall pw ph,
       safeWidth (mapRect tieRect (size fullHD) thumb4096) = Integer pw ->
       safeHeight (mapRect tieRect (size fullHD) thumb4096) = Integer ph ->
       pw * ph <= 0 ->
       captureScreenshot_crop (Some tieRect) (Some fullHD) thumb4096 = FullImage /\
       cropStoredScreenshot (Some fullHD) thumb4096 tieRect = FullImage) /\
    captureScreenshot_crop (Some tieRect) (Some fullHD) thumb4096
      = cropStoredScreenshot (Some fullHD) thumb4096 tieRect /\
    (cropStoredScreenshot (Some fullHD) thumb4096 tieRect = FullImage \/
     exists pw ph,
       cropStoredScreenshot (Some fullHD) thumb4096 tieRect
       = CropTo (pixels px py pw ph) /\
       mapRect tieRect (size fullHD) thumb4096 = pixels px py pw ph /\
       0 < pw /\ 0 < ph /\
       px + pw <= sw thumb4096 /\ py + ph <= sh thumb4096).
Proof.
  assert (D : forall n, 0 < n <= 4096 -> dimension n)
    by (unfold dimension, MAX_SAFE_INTEGER; cbn; lia).
  split; [apply D; cbn; lia|]. split; [apply D; cbn; lia|].
  split; [apply D; cbn; lia|]. split; [apply D; cbn; lia|].
  apply (C1_crop_mapping_clamped tieRect fullHD thumb4096);
    apply D; cbn; lia.
Defined.

(** Region crop at 2x: CSS [{100,100,200,150}] maps to pixels
    [{200,200,400,300}]. *)
Example region_crop_at_2x :
  cropStoredScreenshot (Some fullHD) bitmap4K regionRect
  = CropTo (pixels 200 200 400 300).
Proof. vm_compute. reflexivity. Qed.

(** Out-of-bounds crop: the size is cut back to what is left of the
    bitmap to the right of and below the origin. *)
Example overhang_crop_is_cut :
  cropStoredScreenshot (Some fullHD) bitmap4K overhangRect
  = CropTo (pixels 3800 2000 40 160).
Proof. vm_compute. reflexivity. Qed.

(** A rectangle of negative width is not cropped to. *)
Example negative_width_gives_full_image :
  captureScreenshot_crop (Some (mkBounds 10%Q 10%Q (-5)%Q 20%Q)) (Some fullHD) bitmap4K
  = FullImage.
Proof. vm_compute. reflexivity. Qed.

(** The rounding of doubles shows: [108 * (2305 / 1080)] is exactly
    [230.5], which would round to 231, but the double quotient is a
    little below [2305 / 1080] and the double product a little below
    [230.5]: the code crops at [y = 230]. *)
Example double_product_below_the_tie :
  cropStoredScreenshot (Some fullHD) thumb4096 tieRect
  = CropTo (pixels 213 230 427 320) /\
  (108 * (2305 # 1080) == 461 # 2)%Q /\
  (toQ (scaled 108%Q 2305 1080) < 461 # 2)%Q.
Proof. split; [vm_compute; reflexivity | split; [reflexivity | vm_compute; reflexivity]]. Qed.

(** The same on an 822-pixel-high display with a 1715-pixel-high
    thumbnail: [411 * (1715 / 822)] is [857.5], the code gets 857. *)
Example double_product_below_the_tie_822 :
  safeY (mapRect (mkBounds 0%Q 411%Q 100%Q 100%Q) (mkSize 1440 822) (mkSize 3004 1715))
  = Integer 857.
Proof. vm_compute. reflexivity. Qed.

(** A display of width 0 is outside the theorem: [0 * (w / 0)] is
    [NaN], which passes the test [<= 0] of [cropStoredScreenshot] and not
    the test [> 0] of [captureScreenshot]. *)
Example zero_display_width_gives_NaN :
  cropStoredScreenshot (Some (mkDisplayInfo 1%Q 0 0 (mkSize 0 1080) 1)) bitmap4K
    (mkBounds 0%Q 10%Q 50%Q 50%Q)
  = CropTo (mkPixelRect NotANumber (Integer 20) NotANumber (Integer 100)) /\
  captureScreenshot_crop (Some (mkBounds 0%Q 10%Q 50%Q 50%Q))
    (Some (mkDisplayInfo 1%Q 0 0 (mkSize 0 1080) 1)) bitmap4K
  = FullImage.
Proof. split; vm_compute; reflexivity. Qed.

End CropFacts.

(* ================================================================== *)
(** * Properties of the capture-source matching chain *)
(* ================================================================== *)

Section CaptureFacts.

Import Crop Capture.

Lemma findIndex_range {A : Type} (p : A -> bool) (l : list A) :
  -1 <= findIndex p l < Z.of_nat (List.length l).
Proof.
  induction l as [|a l IH]; simpl List.length; simpl findIndex; [lia|].
  destruct (p a); [lia|].
  destruct (Z.ltb_spec (findIndex p l) 0); lia.
Qed.

Lemma findIndex_nonneg {A : Type} (p : A -> bool) (l : list A) (a : A) :
  In a l -> p a = true -> 0 <= findIndex p l.
Proof.
  induction l as [|b l IH]; intros Hin Hp; [contradiction|].
  simpl findIndex. destruct (p b) eqn:Eb; [lia|].
  destruct Hin as [->|Hin]; [congruence|].
  specialize (IH Hin Hp).
  destruct (Z.ltb_spec (findIndex p l) 0); lia.
Qed.

Lemma item_in_range {A : Type} (l : list A) (i : Z) :
  0 <= i < Z.of_nat (List.length l) -> exists a, item l i = Some a /\ In a l.
Proof.
  intros [H0 H1]. unfold item.
  destruct (Z.ltb_spec i 0); [lia|].
  destruct (nth_error l (Z.to_nat i)) as [a|] eqn:E.
  - exists a. split; [reflexivity|]. eapply nth_error_In; eassumption.
  - apply nth_error_None in E. lia.
Qed.

(** The aspect-ratio loop always ends on the start value or on a source of
    the list. *)
Lemma aspectLoop_member (da : JsNumber.double) (sources : list Source) :
  forall acc,
    fst (fold_left (aspectStep da) sources acc) = fst acc \/
    In (fst (fold_left (aspectStep da) sources acc)) sources.
Proof.
  induction sources as [|s sources IH]; intros acc; simpl; [now left|].
  destruct (IH (aspectStep da acc s)) as [H|H]; [|now right; right].
  rewrite H. unfold aspectStep.
  destruct (JsNumber.ltb _ (snd acc)); [right; left; reflexivity | now left].
Qed.

(** *** The order of doubles *)

Ltac fold_compare :=
  repeat match goal with
  | |- context [PosDef.Pos.compare_cont Eq ?a ?b] =>
      change (PosDef.Pos.compare_cont Eq a b) with (Pos.compare a b)
  | H : context [PosDef.Pos.compare_cont Eq ?a ?b] |- _ =>
      change (PosDef.Pos.compare_cont Eq a b) with (Pos.compare a b) in H
  end.

Ltac order_cases :=
  fold_compare;
  repeat match goal with
  | |- context [Z.compare ?a ?b] =>
      let H := fresh in destruct (Z.compare_spec a b) as [H|H|H]; try subst
  | H : context [Z.compare ?a ?b] |- _ =>
      let H' := fresh in destruct (Z.compare_spec a b) as [H'|H'|H']; try subst
  end;
  repeat match goal with
  | |- context [Pos.compare ?a ?b] =>
      let H := fresh in destruct (Pos.compare_spec a b) as [H|H|H]; try subst
  | H : context [Pos.compare ?a ?b] |- _ =>
      let H' := fresh in destruct (Pos.compare_spec a b) as [H'|H'|H']; try subst
  end;
  cbn in *; try discriminate; try reflexivity; try lia.

Lemma SFltb_trans (a b c : spec_float) :
  SFltb a b = true -> SFltb b c = true -> SFltb a c = true.
Proof.
  unfold SFltb, SFcompare.
  destruct a as [[|]|[|]| |[|] ma ea], b as [[|]|[|]| |[|] mb eb],
           c as [[|]|[|]| |[|] mc ec];
    try discriminate; try reflexivity;
    intros H1 H2; order_cases.
Qed.

Lemma SFltb_irrefl (a : spec_float) : SFltb a a = false.
Proof.
  unfold SFltb, SFcompare.
  destruct a as [[|]|[|]| |[|] ma ea]; try reflexivity;
    fold_compare; rewrite Z.compare_refl, Pos.compare_refl; reflexivity.
Qed.

(** [a <= b < c] on doubles, [a] not being [NaN]. *)
Lemma SFltb_le_lt (a b c : spec_float) :
  a <> S754_nan -> SFltb b a = false -> SFltb b c = true -> SFltb a c = true.
Proof.
  unfold SFltb, SFcompare.
  destruct a as [[|]|[|]| |[|] ma ea], b as [[|]|[|]| |[|] mb eb],
           c as [[|]|[|]| |[|] mc ec];
    try discriminate; try reflexivity; try congruence;
    intros Hn H1 H2; order_cases.
Qed.

Lemma SFltb_not_nan (a b : spec_float) : SFltb a b = true -> a <> S754_nan.
Proof. intros H E. subst a. discriminate H. Qed.

(** What the aspect-ratio loop maintains: [bestDiff] is not [NaN], no
    source seen so far is nearer than [bestDiff], and [bestDiff] is
    either the initial [Infinity] or the distance of [bestMatch], a source
    seen. *)
Lemma aspectLoop_invariant (activeDisplay : Display) (sources : list Source) :
  forall (seen : list Source) (acc : Source * JsNumber.double),
    snd acc <> S754_nan ->
    (forall s, In s seen ->
       JsNumber.ltb (aspectDistance activeDisplay s) (snd acc) = false) ->
    (snd acc = JsNumber.Infinity \/
     In (fst acc) seen /\ snd acc = aspectDistance activeDisplay (fst acc)) ->
    let r := fold_left (aspectStep (aspect (d_size activeDisplay))) sources acc in
    snd r <> S754_nan /\
    (forall s, In s (seen ++ sources) ->
       JsNumber.ltb (aspectDistance activeDisplay s) (snd r) = false) /\
    (snd r = JsNumber.Infinity \/
     In (fst r) (seen ++ sources) /\ snd r = aspectDistance activeDisplay (fst r)).
Proof.
  induction sources as [|s sources IH]; intros seen acc Hnan Hseen Hbest.
  - cbn [fold_left]. rewrite app_nil_r. auto.
  - cbn [fold_left].
    replace (seen ++ s :: sources) with ((seen ++ [s]) ++ sources)
      by (rewrite <- app_assoc; reflexivity).
    apply IH; unfold aspectStep;
      change (aspectDiff (aspect (thumbnail s)) (aspect (d_size activeDisplay)))
        with (aspectDistance activeDisplay s);
      destruct (JsNumber.ltb (aspectDistance activeDisplay s) (snd acc)) eqn:E;
      cbn [fst snd].
    + exact (SFltb_not_nan _ _ E).
    + exact Hnan.
    + intros s' Hin. apply in_app_or in Hin as [Hin|[<-|[]]].
      * destruct (JsNumber.ltb (aspectDistance activeDisplay s')
                               (aspectDistance activeDisplay s)) eqn:E'; [|reflexivity].
        rewrite <- (Hseen s' Hin). symmetry. exact (SFltb_trans _ _ _ E' E).
      * apply SFltb_irrefl.
    + intros s' Hin. apply in_app_or in Hin as [Hin|[<-|[]]]; [auto | exact E].
    + right. split; [apply in_or_app; right; now left | reflexivity].
    + destruct Hbest as [H|[H1 H2]]; [now left | right].
      split; [apply in_or_app; now left | exact H2].
Qed.

(** The distance the loop compares is the distance of the two aspect
    ratios, for thumbnails and displays of positive dimensions. *)
Lemma aspectDistance_spec (activeDisplay : Display) (s : Source) :
  dimension (sw (thumbnail s)) -> dimension (sh (thumbnail s)) ->
  dimension (sw (d_size activeDisplay)) -> dimension (sh (d_size activeDisplay)) ->
  distanceOfRatios (thumbnail s) (d_size activeDisplay)
    (aspectDistance activeDisplay s).
Proof.
  intros Htw Hth Hdw Hdh.
  pose proof (ratio_rounds _ _ Htw Hth) as Ra.
  pose proof (ratio_rounds _ _ Hdw Hdh) as Rb.
  destruct (scale_spec _ _ Htw Hth) as (ma & ea & Ea & _).
  destruct (scale_spec _ _ Hdw Hdh) as (mb & eb & Eb & _).
  unfold distanceOfRatios, aspectDistance, aspectDiff, aspect.
  exists (JsNumber.div (JsNumber.ofZ (sw (thumbnail s))) (JsNumber.ofZ (sh (thumbnail s)))),
         (JsNumber.div (JsNumber.ofZ (sw (d_size activeDisplay)))
                       (JsNumber.ofZ (sh (d_size activeDisplay)))).
  split; [exact Ra|]. split; [exact Rb|].
  rewrite Ea, Eb.
  destruct (sub_finite_spec false false ma mb ea eb) as [[Hv ->]|[[Hv Hr]|[Hv Hr]]].
  - left. split; [lra | reflexivity].
  - right. apply rounds_abs in Hr.
    refine (rounds_ext _ _ _ _ _ Hr). symmetry. apply Qabs_pos. lra.
  - right. apply rounds_abs in Hr.
    refine (rounds_ext _ _ _ _ _ Hr). symmetry. apply Qabs_neg. lra.
Qed.

(** The literal [0.1] is the double nearest to one tenth. *)
Lemma oneTenth_rounds : JsNumber.rounds (1 # 10) false JsNumber.oneTenth.
Proof.
  unfold JsNumber.rounds, JsNumber.oneTenth.
  repeat split; try (vm_compute; reflexivity); vm_compute; discriminate.
Qed.

(** The aspect-ratio step picks a nearest source when one is less than
    0.1 away, and only then. *)
Lemma byAspectRatio_nearest (first : Source) (rest : list Source)
    (activeDisplay : Display) :
  nearestWithinTolerance (first :: rest) activeDisplay JsNumber.oneTenth
    (byAspectRatio (first :: rest) activeDisplay).
Proof.
  unfold byAspectRatio. cbn [item Z.ltb Z.compare Z.to_nat nth_error].
  unfold aspectLoop.
  destruct (aspectLoop_invariant activeDisplay (first :: rest) []
              (first, JsNumber.Infinity)) as (Hnan & Hall & Hbest).
  { discriminate. }
  { intros s []. }
  { now left. }
  cbn [app] in Hall, Hbest.
  destruct (fold_left (aspectStep (aspect (d_size activeDisplay))) (first :: rest)
                      (first, JsNumber.Infinity)) as [bestMatch bestDiff].
  cbn [fst snd] in Hnan, Hall, Hbest. unfold withinTolerance.
  destruct (JsNumber.ltb bestDiff JsNumber.oneTenth) eqn:E;
    cbn [nearestWithinTolerance].
  - destruct Hbest as [->|[Hin ->]]; [discriminate E|].
    split; [exact Hin|]. split; [exact E | exact Hall].
  - intros s' Hin.
    destruct (JsNumber.ltb (aspectDistance activeDisplay s') JsNumber.oneTenth) eqn:E';
      [|reflexivity].
    rewrite <- E. symmetry.
    exact (SFltb_le_lt _ _ _ Hnan (Hall s' Hin) E').
Qed.

Section Chain.

Variable first : Source.
Variable rest : list Source.
Variable allDisplays : list Display.
Variable activeDisplay : Display.
Variable primaryDisplayId : Z.

Let sources := first :: rest.

Lemma sources_not_empty : (Z.of_nat (List.length sources) =? 0) = false.
Proof. apply Z.eqb_neq. subst sources. simpl List.length. lia. Qed.

Lemma byPosition_defined :
  (Z.of_nat (List.length sources) =? Z.of_nat (List.length allDisplays))
    && (0 <=? activeDisplayIndex allDisplays activeDisplay) = true ->
  exists s, item sources (activeDisplayIndex allDisplays activeDisplay) = Some s
            /\ In s sources.
Proof.
  intros H. apply andb_true_iff in H as [Hlen Hidx].
  apply Z.eqb_eq in Hlen. apply Z.leb_le in Hidx.
  apply item_in_range. rewrite Hlen.
  pose proof (findIndex_range (fun d => d_id d =? d_id activeDisplay) allDisplays).
  unfold activeDisplayIndex in *. lia.
Qed.

(** The active display, when it is one of the displays, has an index. *)
Lemma activeDisplayIndex_found :
  In activeDisplay allDisplays ->
  0 <= activeDisplayIndex allDisplays activeDisplay.
Proof.
  intros Hin. unfold activeDisplayIndex.
  apply (findIndex_nonneg _ _ activeDisplay Hin). apply Z.eqb_refl.
Qed.

(** Then the guard [activeDisplayIndex >= 0] of method 3 always holds,
    and the positional step is decided by the two counts alone. *)
Lemma byPosition_byEqualCount :
  In activeDisplay allDisplays ->
  byPosition sources allDisplays activeDisplay
  = byEqualCount sources allDisplays activeDisplay.
Proof.
  intros Hin. unfold byPosition, byEqualCount.
  pose proof (activeDisplayIndex_found Hin) as H.
  apply Z.leb_le in H. rewrite H. now rewrite andb_true_r.
Qed.

Lemma byAspectRatio_single :
  rest = [] ->
  byAspectRatio sources activeDisplay = Some first \/
  byAspectRatio sources activeDisplay = None.
Proof.
  intros ->. unfold byAspectRatio, aspectLoop, sources.
  cbn [item Z.ltb Z.compare Z.to_nat nth_error fold_left].
  unfold aspectStep. cbn [snd].
  destruct (JsNumber.ltb _ JsNumber.Infinity);
    match goal with |- context [withinTolerance ?d] =>
      destruct (withinTolerance d) end; auto.
Qed.

(** The matching code computes the first success of the five heuristics as
    main.ts implements them, and the first source when all of them fail. *)
Lemma captureScreenshot_targetSource_codeChain :
  captureScreenshot_targetSource sources allDisplays activeDisplay primaryDisplayId
  = codeChain sources allDisplays activeDisplay primaryDisplayId.
Proof.
  unfold captureScreenshot_targetSource, codeChain. rewrite sources_not_empty.
  unfold method1, byDisplayId.
  destruct (find (displayIdMatches activeDisplay) sources) as [s1|] eqn:E1;
    [reflexivity|].
  cbn [firstSuccess].
  unfold method2, byEmbeddedOrdinal. cbn [matchMethod startsWithDefault].
  destruct (find (screenNumberMatches (activeDisplayIndex allDisplays activeDisplay))
                 sources) as [s2|] eqn:E2; [reflexivity|].
  unfold method3, byPosition. cbn [matchMethod startsWithDefault andb].
  destruct ((Z.of_nat (List.length sources) =? Z.of_nat (List.length allDisplays))
            && (0 <=? activeDisplayIndex allDisplays activeDisplay)) eqn:E3.
  { destruct (byPosition_defined E3) as (s3 & -> & _). reflexivity. }
  unfold method4, byNameOrFirst. cbn [matchMethod startsWithDefault].
  destruct (d_id activeDisplay =? primaryDisplayId).
  { destruct (find primaryName sources) as [s4|]; reflexivity. }
  destruct (find (secondaryName (activeDisplayIndex allDisplays activeDisplay + 1))
                 sources) as [s4|]; [reflexivity|].
  unfold method5. cbn [matchMethod startsWithDefault andb].
  destruct (Z.ltb_spec 1 (Z.of_nat (List.length sources))) as [Hlen|Hlen].
  - unfold byAspectRatio. cbn [item sources Z.ltb Z.compare Z.to_nat nth_error].
    change (item sources 0) with (Some first).
    destruct (aspectLoop activeDisplay first sources) as [bestMatch bestDiff].
    destruct (withinTolerance bestDiff); reflexivity.
  - assert (Hrest : rest = []).
    { subst sources. simpl List.length in Hlen. destruct rest; [reflexivity|].
      simpl List.length in Hlen. lia. }
    destruct (byAspectRatio_single Hrest) as [-> | ->]; reflexivity.
Qed.

(** Whatever the chain picks is one of the enumerated sources. *)
Lemma codeChain_member :
  exists s, codeChain sources allDisplays activeDisplay primaryDisplayId = Some s
            /\ In s sources.
Proof.
  unfold codeChain. cbn [firstSuccess].
  unfold byDisplayId.
  destruct (find (displayIdMatches activeDisplay) sources) as [s1|] eqn:E1.
  { exists s1. split; [reflexivity|]. now apply find_some in E1. }
  unfold byEmbeddedOrdinal.
  destruct (find (screenNumberMatches _) sources) as [s2|] eqn:E2.
  { exists s2. split; [reflexivity|]. now apply find_some in E2. }
  unfold byPosition.
  destruct ((Z.of_nat (List.length sources) =? Z.of_nat (List.length allDisplays))
            && (0 <=? activeDisplayIndex allDisplays activeDisplay)) eqn:E3.
  { destruct (byPosition_defined E3) as (s3 & -> & Hin). now exists s3. }
  assert (Hfirst : exists s, item sources 0 = Some s /\ In s sources)
    by (exists first; split; [reflexivity | now left]).
  unfold byNameOrFirst.
  destruct (d_id activeDisplay =? primaryDisplayId).
  { destruct (find primaryName sources) as [s4|] eqn:E4.
    - exists s4. split; [reflexivity|]. now apply find_some in E4.
    - destruct Hfirst as (s & -> & Hin). now exists s. }
  destruct (find (secondaryName _) sources) as [s4|] eqn:E4.
  { exists s4. split; [reflexivity|]. now apply find_some in E4. }
  unfold byAspectRatio. change (item sources 0) with (Some first).
  pose proof (aspectLoop_member (aspect (d_size activeDisplay)) sources
                (first, JsNumber.Infinity)) as Hmem.
  unfold aspectLoop.
  destruct (fold_left (aspectStep (aspect (d_size activeDisplay))) sources
                      (first, JsNumber.Infinity))
    as [bestMatch bestDiff].
  destruct (withinTolerance bestDiff).
  - exists bestMatch. split; [reflexivity|].
    simpl in Hmem. destruct Hmem as [-> | H]; [now left | exact H].
  - exists first. split; [reflexivity | now left].
Qed.

End Chain.

(** [C2] For a non-empty enumeration [first :: rest] and a list of
    displays that contains the active display, [captureScreenshot]
    selects exactly one of the enumerated sources: the result of the
    first heuristic that succeeds among display-id equality, ordinal
    embedded in the source id, positional index under equal counts, the
    primary / secondary name step of main.ts (which on the primary
    display falls back to the first source and therefore always succeeds
    there), nearest aspect ratio within 0.1, and else the first
    enumerated source; the aspect-ratio heuristic yields a source whose
    aspect ratio is less than 0.1 (the double nearest to one tenth) from
    the display's and than which no source is nearer, and fails only
    when no source is less than 0.1 away, the distance being that of
    the two quotients width / height as doubles give it. *)
Theorem C2_source_matching_first_success
    (first : Source) (rest : list Source) (allDisplays : list Display)
    (activeDisplay : Display) (primaryDisplayId : Z) :
  In activeDisplay allDisplays ->
  captureScreenshot_targetSource (first :: rest) allDisplays activeDisplay primaryDisplayId
  = firstSuccess
      [ byDisplayId (first :: rest) activeDisplay;
        byEmbeddedOrdinal (first :: rest) allDisplays activeDisplay;
        byEqualCount (first :: rest) allDisplays activeDisplay;
        byNameOrFirst (first :: rest) allDisplays activeDisplay primaryDisplayId;
        byAspectRatio (first :: rest) activeDisplay ]
      (Some first) /\
  JsNumber.rounds (1 # 10) false JsNumber.oneTenth /\
  nearestWithinTolerance (first :: rest) activeDisplay JsNumber.oneTenth
    (byAspectRatio (first :: rest) activeDisplay) /\
  (forall s,
     dimension (sw (thumbnail s)) -> dimension (sh (thumbnail s)) ->
     dimension (sw (d_size activeDisplay)) ->
     dimension (sh (d_size activeDisplay)) ->
     distanceOfRatios (thumbnail s) (d_size activeDisplay)
       (aspectDistance activeDisplay s)) /\
  exists s,
    captureScreenshot_targetSource (first :: rest) allDisplays activeDisplay primaryDisplayId = Some s
    /\ In s (first :: rest).
Proof.
  intros Hin. split; [|split; [|split; [|split]]].
  - rewrite captureScreenshot_targetSource_codeChain. unfold codeChain.
    now rewrite (byPosition_byEqualCount first rest allDisplays activeDisplay Hin).
  - exact oneTenth_rounds.
  - apply byAspectRatio_nearest.
  - intros s. apply aspectDistance_spec.
  - rewrite captureScreenshot_targetSource_codeChain. apply codeChain_member.
Qed.

(** Instance of [C2]: the aspect-ratio step decides, on a difference of
    doubles that is below [0.1] where the difference of the exact ratios,
    [17 / 10 - 16 / 10], is not. *)
Lemma C2_source_matching_first_success_witness :
  In sideDisplay [mainDisplay; sideDisplay; thirdDisplay] /\
  captureScreenshot_targetSource [sourceC; sourceD]
    [mainDisplay; sideDisplay; thirdDisplay] sideDisplay 1
  = firstSuccess
      [ byDisplayId [sourceC; sourceD] sideDisplay;
        byEmbeddedOrdinal [sourceC; sourceD]
          [mainDisplay; sideDisplay; thirdDisplay] sideDisplay;
        byEqualCount [sourceC; sourceD]
          [mainDisplay; sideDisplay; thirdDisplay] sideDisplay;
        byNameOrFirst [sourceC; sourceD]
          [mainDisplay; sideDisplay; thirdDisplay] sideDisplay 1;
        byAspectRatio [sourceC; sourceD] sideDisplay ]
      (Some sourceC) /\
  JsNumber.rounds (1 # 10) false JsNumber.oneTenth /\
  nearestWithinTolerance [sourceC; sourceD] sideDisplay JsNumber.oneTenth
    (byAspectRatio [sourceC; sourceD] sideDisplay) /\
  (forall s,
     dimension (sw (thumbnail s)) -> dimension (sh (thumbnail s)) ->
     dimension (sw (d_size sideDisplay)) ->
     dimension (sh (d_size sideDisplay)) ->
     distanceOfRatios (thumbnail s) (d_size sideDisplay)
       (aspectDistance sideDisplay s)) /\
  exists s,
    captureScreenshot_targetSource [sourceC; sourceD]
      [mainDisplay; sideDisplay; thirdDisplay] sideDisplay 1 = Some s
    /\ In s [sourceC; sourceD].
Proof.
  assert (Hin : In sideDisplay [mainDisplay; sideDisplay; thirdDisplay])
    by (right; left; reflexivity).
  split; [exact Hin|].
  apply (C2_source_matching_first_success sourceC [sourceD]
           [mainDisplay; sideDisplay; thirdDisplay] sideDisplay 1 Hin).
Defined.

(** [C2] with name matching that fails when no name matches: on a primary
    display whose sources match no name pattern, the chain goes on to the
    aspect-ratio heuristic and picks the 16:9 source, while main.ts has
    already settled on the first source in its name step. *)
Lemma C2_name_step_counterexample :
  In onlyDisplay [onlyDisplay] /\
  byDisplayId [sourceA; sourceB] onlyDisplay = None /\
  byEmbeddedOrdinal [sourceA; sourceB] [onlyDisplay] onlyDisplay = None /\
  byPosition [sourceA; sourceB] [onlyDisplay] onlyDisplay = None /\
  byEqualCount [sourceA; sourceB] [onlyDisplay] onlyDisplay = None /\
  byNameOnly [sourceA; sourceB] [onlyDisplay] onlyDisplay 1 = None /\
  byAspectRatio [sourceA; sourceB] onlyDisplay = Some sourceB /\
  specChain [sourceA; sourceB] [onlyDisplay] onlyDisplay 1 = Some sourceB /\
  captureScreenshot_targetSource [sourceA; sourceB] [onlyDisplay] onlyDisplay 1 = Some sourceA /\
  captureScreenshot_targetSource [sourceA; sourceB] [onlyDisplay] onlyDisplay 1
    <> specChain [sourceA; sourceB] [onlyDisplay] onlyDisplay 1.
Proof.
  repeat split; try (vm_compute; reflexivity); try (now left).
  vm_compute. discriminate.
Qed.

(** The display id wins over the ordinal in the source id. *)
Example display_id_has_priority :
  captureScreenshot_targetSource [hintedRight; hintedLeft]
    [leftDisplay; rightDisplay] leftDisplay 2528732444
  = Some hintedLeft.
Proof. vm_compute. reflexivity. Qed.

(** Without a display id, the ordinal wins over position and name. *)
Example ordinal_has_priority :
  captureScreenshot_targetSource [plainRight; plainLeft]
    [leftDisplay; rightDisplay] leftDisplay 2528732444
  = Some plainLeft.
Proof. vm_compute. reflexivity. Qed.

(** The literal [0.1] is the quotient [1 / 10] of doubles, a little
    above the rational. *)
Example oneTenth_is_the_quotient :
  JsNumber.oneTenth = JsNumber.div (JsNumber.ofZ 1) (JsNumber.ofZ 10) /\
  (1 # 10 < JsNumber.toQ JsNumber.oneTenth)%Q.
Proof. split; vm_compute; reflexivity. Qed.

(** A 4096x2560 thumbnail is accepted for a 1360x800 display: the exact
    ratios differ by one tenth, which is not below [0.1], but the
    difference of the two double quotients is [0.09999999999999987]. *)
Example aspect_ratio_accepts_on_doubles :
  captureScreenshot_targetSource [sourceC; sourceD]
    [mainDisplay; sideDisplay; thirdDisplay] sideDisplay 1
  = Some sourceD /\
  byAspectRatio [sourceC; sourceD] sideDisplay = Some sourceD /\
  (Qabs ((4096 # 2560) - (1360 # 800)) == 1 # 10)%Q /\
  (JsNumber.toQ (aspectDiff (aspect (thumbnail sourceD)) (aspect (d_size sideDisplay)))
   < 1 # 10)%Q.
Proof. repeat split; vm_compute; reflexivity. Qed.

End CaptureFacts.

(* ================================================================== *)
(** * Properties of the prompt analyzer *)
(* ================================================================== *)

Section AnalyzerFacts.

Import Analyzer.
Local Open Scope string_scope.

Variable JSON_parse : string -> option jsval.
Variable DEFAULT_OPENROUTER_API_KEY : string.

Local Abbreviation analyze := (analyzeScreenshotWithVision JSON_parse).
Local Abbreviation handler :=
  (analyzePrompt JSON_parse DEFAULT_OPENROUTER_API_KEY).

(** The handler never lets an exception through: it answers with one of
    the two envelopes, and with [Failure] whenever the analyzer throws. *)
Lemma handler_catches (custom : option string) (st : SelectionState)
    (shot : Result string) (resp : FetchOutcome) (e : JsError) :
  analyze resp = Throw e ->
  exists msg, fst (handler custom st shot resp) = Failure msg.
Proof.
  intros H. unfold analyzePrompt.
  destruct (noApiKey _); [eexists; reflexivity|].
  destruct shot as [url|e']; simpl; [|eexists; reflexivity].
  rewrite H. simpl. eexists; reflexivity.
Qed.

(** A rejected [fetch] (network error) is answered with its message. *)
Lemma fetch_rejection_envelope (custom : option string) (st : SelectionState)
    (shot : Result string) (e : JsError) :
  exists msg, fst (handler custom st shot (FetchRejected e)) = Failure msg.
Proof. eapply handler_catches. reflexivity. Qed.

(** An HTTP error status makes the analyzer throw, with the status and
    the body in the message. *)
Lemma analyze_http_error (status : Z) (body : string) :
  analyze (Response false status body)
  = Throw (Error ("OpenRouter API error: " ++ JsString.toString status
                    ++ " - " ++ body)).
Proof. reflexivity. Qed.

(** A body that is not JSON makes [response.json()] throw. *)
Lemma analyze_invalid_json (status : Z) (body : string) :
  JSON_parse body = None ->
  exists e, analyze (Response true status body) = Throw e.
Proof.
  intros H. simpl. unfold parseJSON. rewrite H. eexists; reflexivity.
Qed.

(** A JSON body in which the content path is missing makes the analyzer
    throw: a [TypeError] from the property access, or
    ['No response from AI']. *)
Lemma analyze_missing_content (status : Z) (body : string) (data : jsval) :
  JSON_parse body = Some data ->
  missingContent data ->
  exists e, analyze (Response true status body) = Throw e.
Proof.
  intros Hp Hm. simpl. unfold parseJSON. rewrite Hp. simpl.
  destruct (contentOf data) as [v|e] eqn:Hc; simpl; [|eexists; reflexivity].
  rewrite (Hm v Hc). simpl. eexists; reflexivity.
Qed.

(** An absent, [null] or empty content is reported as
    ['No response from AI']. *)
Lemma analyze_falsy_content (status : Z) (body : string) (data v : jsval) :
  JSON_parse body = Some data ->
  contentOf data = Ok v ->
  truthy v = false ->
  analyze (Response true status body) = Throw (Error "No response from AI").
Proof.
  intros Hp Hc Ht. simpl. unfold parseJSON. rewrite Hp. simpl.
  rewrite Hc. simpl. now rewrite Ht.
Qed.

(** [C3] For a backend answer with an HTTP error status, with a body that
    is not JSON, or with a JSON body that lacks
    [choices[0].message.content], the [analyze-prompt] handler returns the
    envelope [{ success: false, error }] with a string [error]; no
    exception leaves the handler. *)
Theorem C3_malformed_answer_gives_failure_envelope
    (custom : option string) (st : SelectionState)
    (shot : Result string) (resp : FetchOutcome) :
  malformed JSON_parse resp ->
  exists msg : string, fst (handler custom st shot resp) = Failure msg.
Proof.
  destruct resp as [e|ok status body]; simpl; [tauto|].
  intros [Hok | [Hbad | (data & Hp & Hm)]].
  - subst ok. eapply handler_catches. apply analyze_http_error.
  - destruct ok.
    + destruct (analyze_invalid_json status body Hbad) as [e He].
      eapply handler_catches; eassumption.
    + eapply handler_catches. apply analyze_http_error.
  - destruct ok.
    + destruct (analyze_missing_content status body data Hp Hm) as [e He].
      eapply handler_catches; eassumption.
    + eapply handler_catches. apply analyze_http_error.
Qed.

(** With string content whose extracted span does not parse, the analyzer
    returns the fallback object. *)
Lemma analyze_fallback (status : Z) (body : string) (data : jsval) (text : string) :
  JSON_parse body = Some data ->
  contentOf data = Ok (VStr text) ->
  text <> EmptyString ->
  spanUnparsable JSON_parse text ->
  analyze (Response true status body) = Ok (fallbackAnalysis text).
Proof.
  intros Hp Hc Hne Hspan. simpl. unfold parseJSON at 1. rewrite Hp. simpl.
  rewrite Hc. simpl.
  destruct (String.eqb_spec text EmptyString) as [E|_]; [contradiction|].
  simpl. destruct (jsonMatch text) as [m|] eqn:Hm; [|reflexivity].
  unfold parseJSON. now rewrite (Hspan m Hm).
Qed.

(** When the extracted span parses to an object, that object is passed
    on as it is: the analyzer does not look for [score], [feedback] or
    any other field in it. *)
Lemma parsed_span_is_not_validated
    (custom : option string) (st : SelectionState) (dataUrl : string)
    (status : Z) (body : string) (data : jsval) (text m : string)
    (props : list (string * jsval)) :
  noApiKey (apiKey DEFAULT_OPENROUTER_API_KEY custom) = false ->
  JSON_parse body = Some data ->
  contentOf data = Ok (VStr text) ->
  jsonMatch text = Some m ->
  JSON_parse m = Some (VObj props) ->
  fst (handler custom st (Ok dataUrl) (Response true status body))
  = Success (VObj (setProp "screenText" (lookup "prompt" props) props)).
Proof.
  intros Hkey Hp Hc Hm Hpm. unfold analyzePrompt. rewrite Hkey.
  cbn [bind analyzeScreenshotWithVision negb].
  unfold parseJSON at 1. rewrite Hp. cbn [bind]. rewrite Hc. cbn [bind].
  assert (Ht : truthy (VStr text) = true).
  { destruct text; [discriminate Hm | reflexivity]. }
  rewrite Ht. cbn [negb tryParse]. rewrite Hm. unfold parseJSON. rewrite Hpm.
  reflexivity.
Qed.

(** The span extracted by the regular expression is a substring of the
    content. *)
Lemma toLastBrace_prefix (s : string) :
  forall p, toLastBrace s = Some p -> substring 0 (String.length p) s = p.
Proof.
  induction s as [|c s IH]; intros p H; simpl in H; [discriminate|].
  destruct (toLastBrace s) as [p'|].
  - injection H as <-. simpl. now rewrite IH.
  - destruct (Ascii.eqb c "}"); [|discriminate].
    injection H as <-. simpl. destruct s; reflexivity.
Qed.

Lemma fromFirstBrace_suffix (s : string) :
  forall t, fromFirstBrace s = Some t ->
  exists i, forall n, substring i n s = substring 0 n t.
Proof.
  induction s as [|c s IH]; intros t H; simpl in H; [discriminate|].
  destruct (Ascii.eqb c "{").
  - injection H as <-. now exists 0%nat.
  - destruct (IH t H) as [i Hi]. exists (S i). intros n. simpl. apply Hi.
Qed.

Lemma jsonMatch_substring (text m : string) :
  jsonMatch text = Some m -> exists i n, substring i n text = m.
Proof.
  unfold jsonMatch. intros H.
  destruct (fromFirstBrace text) as [[|c rest]|] eqn:Hf; try discriminate.
  destruct (toLastBrace rest) as [p|] eqn:Hl; [|discriminate].
  injection H as <-.
  destruct (fromFirstBrace_suffix text _ Hf) as [i Hi].
  exists i, (S (String.length p)). rewrite Hi. simpl.
  now rewrite (toLastBrace_prefix rest _ Hl).
Qed.

(** A text without any parsable JSON substring is one whose extracted
    span does not parse. *)
Lemma noParsableJSON_span (text : string) :
  noParsableJSON JSON_parse text -> spanUnparsable JSON_parse text.
Proof.
  intros H m Hm. destruct (jsonMatch_substring text m Hm) as (i & n & <-).
  apply H.
Qed.

(** [C4] When the backend's message content is non-empty free text from
    which no JSON object can be parsed, the handler answers
    [{ success: true, data }] where [data] has [score] 50, [refinedScore]
    50, an empty [improvedPrompt] and the first 200 characters of the text
    as [feedback] (next to the placeholder [prompt] and [screenText]). *)
Theorem C4_unparsable_text_gives_default_scores
    (custom : option string) (st : SelectionState) (dataUrl : string)
    (status : Z) (body : string) (data : jsval) (text : string) :
  noApiKey (apiKey DEFAULT_OPENROUTER_API_KEY custom) = false ->
  JSON_parse body = Some data ->
  contentOf data = Ok (VStr text) ->
  text <> EmptyString ->
  spanUnparsable JSON_parse text ->
  fst (handler custom st (Ok dataUrl) (Response true status body))
  = Success
      (VObj [ ("prompt", VStr "Could not identify prompt");
              ("score", VNum 50%Q);
              ("feedback", VStr (substring 0 200 text));
              ("improvedPrompt", VStr EmptyString);
              ("refinedScore", VNum 50%Q);
              ("screenText", VStr "Could not identify prompt") ]).
Proof.
  intros Hkey Hp Hc Hne Hspan. unfold analyzePrompt. rewrite Hkey.
  cbn [bind]. rewrite (analyze_fallback status body data text Hp Hc Hne Hspan).
  reflexivity.
Qed.

End AnalyzerFacts.

Section AnalyzerSamples.

Local Open Scope string_scope.

(** Instance of [C3]: HTTP 500 with a plain-text body. *)
Lemma C3_malformed_answer_gives_failure_envelope_witness :
  Analyzer.malformed Analyzer.sampleParse
    (Analyzer.Response false 500 "Internal Server Error") /\
  exists msg : string,
    fst (Analyzer.analyzePrompt Analyzer.sampleParse "sk-or-v1-sample" None
           Analyzer.cleared (Analyzer.Ok "data:image/jpeg;base64,AAAA")
           (Analyzer.Response false 500 "Internal Server Error"))
    = Analyzer.Failure msg.
Proof.
  split; [left; reflexivity|].
  apply (C3_malformed_answer_gives_failure_envelope
           Analyzer.sampleParse "sk-or-v1-sample" None Analyzer.cleared
           (Analyzer.Ok "data:image/jpeg;base64,AAAA")
           (Analyzer.Response false 500 "Internal Server Error")).
  left; reflexivity.
Defined.

(** The three malformed answers on sample data, with the error text the
    user gets. *)
Example http_error_envelope :
  fst (Analyzer.analyzePrompt Analyzer.sampleParse "sk-or-v1-sample" None
         Analyzer.cleared (Analyzer.Ok "data:image/jpeg;base64,AAAA")
         (Analyzer.Response false 500 "Internal Server Error"))
  = Analyzer.Failure "OpenRouter API error: 500 - Internal Server Error".
Proof. reflexivity. Qed.

(** A body that is not JSON, and a JSON body without [choices]: the
    envelope carries the message of the engine's [SyntaxError] or
    [TypeError], whose wording is the engine's. *)
Example invalid_json_envelope :
  exists msg,
    fst (Analyzer.analyzePrompt Analyzer.sampleParse "sk-or-v1-sample" None
           Analyzer.cleared (Analyzer.Ok "data:image/jpeg;base64,AAAA")
           (Analyzer.Response true 200 "<html>Bad gateway</html>"))
    = Analyzer.Failure msg.
Proof. eexists. reflexivity. Qed.

Example missing_choices_envelope :
  exists msg,
    fst (Analyzer.analyzePrompt Analyzer.sampleParse "sk-or-v1-sample" None
           Analyzer.cleared (Analyzer.Ok "data:image/jpeg;base64,AAAA")
           (Analyzer.Response true 200 Analyzer.emptyObjectBody))
    = Analyzer.Failure msg.
Proof. eexists. reflexivity. Qed.

(** Instance of [C4]: the backend answers in prose. *)
Lemma C4_unparsable_text_gives_default_scores_witness :
  fst (Analyzer.analyzePrompt Analyzer.sampleParse "sk-or-v1-sample" None
         Analyzer.cleared (Analyzer.Ok "data:image/jpeg;base64,AAAA")
         (Analyzer.Response true 200 Analyzer.proseBody))
  = Analyzer.Success
      (Analyzer.VObj
         [ ("prompt", Analyzer.VStr "Could not identify prompt");
           ("score", Analyzer.VNum 50%Q);
           ("feedback", Analyzer.VStr (substring 0 200 Analyzer.proseAnswer));
           ("improvedPrompt", Analyzer.VStr EmptyString);
           ("refinedScore", Analyzer.VNum 50%Q);
           ("screenText", Analyzer.VStr "Could not identify prompt") ]).
Proof.
  apply (C4_unparsable_text_gives_default_scores
           Analyzer.sampleParse "sk-or-v1-sample" None Analyzer.cleared
           "data:image/jpeg;base64,AAAA" 200 Analyzer.proseBody
           Analyzer.proseData Analyzer.proseAnswer).
  - reflexivity.
  - reflexivity.
  - reflexivity.
  - discriminate.
  - intros m H. discriminate H.
Defined.

End AnalyzerSamples.

(* ================================================================== *)
(** * Runs of the speech controller *)
(* ================================================================== *)

Section SpeechRunFacts.

Import Speech SpeechRun.

Lemma closeExistingPopup_popup (st : MainState) :
  popupWindow (fst (closeExistingPopup st)) = None \/
  popupWindow (fst (closeExistingPopup st)) = popupWindow st.
Proof.
  unfold closeExistingPopup.
  destruct (popupWindow st) as [w|] eqn:E; [destruct (destroyed w)|];
    simpl; auto.
Qed.

(** What a press does when no recording is marked as running. *)
Lemma press_when_idle (env : PressEnv) (st : MainState) :
  isSpeechRecording st = false ->
  (modelDownloaded env = true ->
   isSpeechRecording (fst (handleSpeechShortcutPress env st)) = true /\
   speechShouldStop (fst (handleSpeechShortcutPress env st)) = false /\
   speechPopupGen (fst (handleSpeechShortcutPress env st)) = speechPopupGen st + 1 /\
   popupWindow (fst (handleSpeechShortcutPress env st))
     = Some (mkWin false (SpeechPopupClosed (speechPopupGen st + 1))) /\
   In (NewSpeechPopup (speechPopupGen st + 1))
      (snd (handleSpeechShortcutPress env st))) /\
  (modelDownloaded env = false ->
   isSpeechRecording (fst (handleSpeechShortcutPress env st)) = false /\
   speechPopupGen (fst (handleSpeechShortcutPress env st)) = speechPopupGen st /\
   popupWindow (fst (handleSpeechShortcutPress env st)) = popupWindow st /\
   snd (handleSpeechShortcutPress env st) = [ShowModelMissingDialog]).
Proof.
  intros Hidle. unfold handleSpeechShortcutPress. rewrite Hidle.
  split; intros Hd; rewrite Hd; cbn [negb].
  - unfold createSpeechPopupWindow.
    match goal with
    | |- context [closeExistingPopup ?s] =>
        pose proof (closeExistingPopup_frame s) as (Hr & Hs & Hg);
        destruct (closeExistingPopup s) as [st1 eff] eqn:E
    end.
    cbn [fst snd] in Hr, Hs, Hg.
    assert (Hgen : speechPopupGen st1 = speechPopupGen st).
    { rewrite Hg. destruct (popupGone st); reflexivity. }
    cbn [fst snd isSpeechRecording speechShouldStop speechPopupGen popupWindow
         set_popupWindow set_speechPopupGen].
    rewrite Hgen, Hr, Hs. cbn. repeat split.
    apply in_or_app. left. apply in_or_app. right. now left.
  - destruct (popupGone st) eqn:Hp; cbn; auto.
Qed.

(** While a recording is marked as running, a press returns at once. *)
Lemma press_when_recording (env : PressEnv) (st : MainState) :
  isSpeechRecording st = true -> handleSpeechShortcutPress env st = (st, []).
Proof.
  intros H. unfold handleSpeechShortcutPress. now rewrite H.
Qed.

Lemma step_keeps_latest (st : MainState) (e : Event) :
  currentPopupIsLatest st -> currentPopupIsLatest (step st e).
Proof.
  intros I. destruct e; cbn [step].
  - destruct (isSpeechRecording st) eqn:Hrec.
    + now rewrite press_when_recording.
    + destruct (press_when_idle env st Hrec) as [Hyes Hno].
      destruct (modelDownloaded env).
      * destruct (Hyes eq_refl) as (_ & _ & Hg & Hp & _).
        intros w g Hw Hc. rewrite Hp in Hw. injection Hw as <-.
        cbn in Hc. injection Hc as <-. now rewrite Hg.
      * destruct (Hno eq_refl) as (_ & Hg & Hp & _).
        intros w g Hw Hc. rewrite Hp in Hw. rewrite Hg. eauto.
  - unfold onKeyReleased.
    destruct (isSpeechRecording st && negb (speechShouldStop st)); exact I.
  - intros w g Hw. destruct h as [|gen]; cbn in Hw.
    + discriminate.
    + destruct (gen =? speechPopupGen st); discriminate.
  - unfold popupDestroyed. destruct (popupWindow st) as [w0|] eqn:E; [|exact I].
    intros w g Hw Hc. cbn in Hw. injection Hw as <-. cbn in Hc.
    cbn. eapply I; eassumption.
  - unfold createPopupWindow.
    destruct (closeExistingPopup st) as [st1 eff].
    intros w g Hw Hc. cbn in Hw. injection Hw as <-. discriminate.
  - unfold closePopup.
    pose proof (closeExistingPopup_frame st) as (_ & _ & Hg).
    pose proof (closeExistingPopup_popup st) as Hp.
    destruct (closeExistingPopup st) as [st1 e1]. cbn [fst] in *.
    assert (I1 : currentPopupIsLatest st1).
    { intros w g Hw Hc. rewrite Hg. destruct Hp as [Hp|Hp];
        rewrite Hp in Hw; [discriminate | eauto]. }
    destruct (pickerWindow st1) as [w0|]; [destruct (destroyed w0)|];
      cbn; exact I1.
  - unfold shouldStopSpeech. destruct (speechShouldStop st); exact I.
  - exact I.
  - exact I.
Qed.

Lemma run_keeps_latest (tr : list Event) :
  forall st, currentPopupIsLatest st -> currentPopupIsLatest (run st tr).
Proof.
  induction tr as [|e tr IH]; intros st I; [exact I|].
  unfold run. cbn [fold_left]. apply IH. now apply step_keeps_latest.
Qed.

(** In every run from program start, the speech popup that [popupWindow]
    refers to is the one of the latest generation, so its own ['closed']
    event passes the generation guard and resets both flags. *)
Theorem current_popup_has_current_generation
    (tr : list Event) (w : Win) (g : Z) :
  popupWindow (run initial tr) = Some w ->
  onClosed w = SpeechPopupClosed g ->
  g = speechPopupGen (run initial tr) /\
  isSpeechRecording (runClosedHandler (onClosed w) (run initial tr)) = false /\
  speechShouldStop (runClosedHandler (onClosed w) (run initial tr)) = false.
Proof.
  intros Hw Hc.
  assert (I : currentPopupIsLatest (run initial tr)).
  { apply run_keeps_latest. intros w0 g0 H. discriminate H. }
  pose proof (I w g Hw Hc) as Hg. split; [exact Hg|].
  rewrite Hc. cbn. rewrite Hg, Z.eqb_refl. split; reflexivity.
Qed.

Lemma current_popup_has_current_generation_witness :
  1 = speechPopupGen (run initial [SpeechHotkey ready]) /\
  isSpeechRecording
    (runClosedHandler (onClosed (mkWin false (SpeechPopupClosed 1)))
                      (run initial [SpeechHotkey ready])) = false /\
  speechShouldStop
    (runClosedHandler (onClosed (mkWin false (SpeechPopupClosed 1)))
                      (run initial [SpeechHotkey ready])) = false.
Proof.
  apply (current_popup_has_current_generation
           [SpeechHotkey ready] (mkWin false (SpeechPopupClosed 1)) 1);
    reflexivity.
Defined.

(** After [type-speech-result], [close-popup] or
    [unregister-speech-shortcut], the next press with the model downloaded
    starts a recording of the next generation at once, without waiting
    for any window to finish closing. *)
Theorem press_after_reset_starts_recording
    (st : MainState) (e : Event) (env : PressEnv) :
  endsRecording e = true ->
  modelDownloaded env = true ->
  isSpeechRecording (fst (handleSpeechShortcutPress env (step st e))) = true /\
  speechShouldStop (fst (handleSpeechShortcutPress env (step st e))) = false /\
  speechPopupGen (fst (handleSpeechShortcutPress env (step st e)))
    = speechPopupGen st + 1.
Proof.
  intros He Hd.
  assert (Hidle : isSpeechRecording (step st e) = false /\
                  speechPopupGen (step st e) = speechPopupGen st).
  { destruct e; try discriminate He; cbn [step].
    - pose proof (closePopup_flags st) as (H1 & _ & H3). auto.
    - split; reflexivity.
    - split; reflexivity. }
  destruct Hidle as [Hidle Hgen].
  destruct (press_when_idle env (step st e) Hidle) as [Hyes _].
  destruct (Hyes Hd) as (H1 & H2 & H3 & _). rewrite <- Hgen. auto.
Qed.

Lemma press_after_reset_starts_recording_witness :
  isSpeechRecording
    (fst (handleSpeechShortcutPress ready (step firstSession IpcTypeSpeechResult)))
    = true /\
  speechShouldStop
    (fst (handleSpeechShortcutPress ready (step firstSession IpcTypeSpeechResult)))
    = false /\
  speechPopupGen
    (fst (handleSpeechShortcutPress ready (step firstSession IpcTypeSpeechResult)))
    = speechPopupGen firstSession + 1.
Proof.
  apply (press_after_reset_starts_recording firstSession IpcTypeSpeechResult ready);
    reflexivity.
Defined.

(** When the speech hotkey replaces an open popup and the replaced
    popup's ['closed'] event arrives afterwards, the recording stays
    marked as running but [popupWindow] is cleared, and from then on
    every press of the hotkey is ignored. *)
Theorem replaced_popup_close_leaves_hotkey_dead
    (tr : list Event) (env : PressEnv) (w : Win) :
  isSpeechRecording (run initial tr) = false ->
  modelDownloaded env = true ->
  popupWindow (run initial tr) = Some w ->
  isSpeechRecording (replacedThenClosed env w (run initial tr)) = true /\
  popupWindow (replacedThenClosed env w (run initial tr)) = None /\
  forall env',
    handleSpeechShortcutPress env' (replacedThenClosed env w (run initial tr))
    = (replacedThenClosed env w (run initial tr), []).
Proof.
  intros Hidle Hd Hw.
  destruct (press_when_idle env (run initial tr) Hidle) as [Hyes _].
  destruct (Hyes Hd) as (Hrec & _ & Hgen & _).
  assert (I : currentPopupIsLatest (run initial tr)).
  { apply run_keeps_latest. intros w0 g0 H. discriminate H. }
  assert (Hst : isSpeechRecording (replacedThenClosed env w (run initial tr)) = true /\
                popupWindow (replacedThenClosed env w (run initial tr)) = None).
  { unfold replacedThenClosed.
    destruct (onClosed w) as [|g] eqn:Hc; cbn [runClosedHandler].
    - split; [exact Hrec | reflexivity].
    - pose proof (I w g Hw Hc) as Hg.
      cbn [speechPopupGen set_popupWindow].
      assert (Hne : (g =? speechPopupGen
                             (fst (handleSpeechShortcutPress env (run initial tr))))
                    = false)
        by (apply Z.eqb_neq; lia).
      rewrite Hne. split; [exact Hrec | reflexivity]. }
  destruct Hst as [H1 H2]. repeat split; try assumption.
  intros env'. now apply press_when_recording.
Qed.

Lemma replaced_popup_close_leaves_hotkey_dead_witness :
  isSpeechRecording
    (replacedThenClosed ready (mkWin false PlainPopupClosed)
                        (run initial [AnalyzerPopupOpened])) = true /\
  popupWindow
    (replacedThenClosed ready (mkWin false PlainPopupClosed)
                        (run initial [AnalyzerPopupOpened])) = None.
Proof.
  split;
    apply (replaced_popup_close_leaves_hotkey_dead
             [AnalyzerPopupOpened] ready (mkWin false PlainPopupClosed));
    reflexivity.
Defined.

(** Hotkey repeats change nothing while a recording is marked as running. *)
Lemma repeats_are_ignored (envs : list PressEnv) :
  forall st,
    isSpeechRecording st = true ->
    run st (map SpeechHotkey envs) = st.
Proof.
  induction envs as [|env envs IH]; intros st H; [reflexivity|].
  unfold run. cbn [map fold_left step].
  rewrite (press_when_recording env st H). cbn [fst]. now apply IH.
Qed.

(** The stop signal is delivered exactly once: after the key watcher
    reports the release during a recording, and whatever number of hotkey
    repeats arrive meanwhile, the next poll answers [true] and the poll
    after it answers [false]. *)
Theorem release_is_polled_exactly_once (st : MainState) (envs : list PressEnv) :
  isSpeechRecording st = true ->
  fst (shouldStopSpeech (run (onKeyReleased st) (map SpeechHotkey envs))) = true /\
  fst (shouldStopSpeech
         (snd (shouldStopSpeech (run (onKeyReleased st) (map SpeechHotkey envs)))))
    = false.
Proof.
  intros Hrec.
  assert (Hk : isSpeechRecording (onKeyReleased st) = true /\
               speechShouldStop (onKeyReleased st) = true).
  { unfold onKeyReleased. rewrite Hrec.
    destruct (speechShouldStop st) eqn:Hs; cbn; auto. }
  destruct Hk as [Hk1 Hk2].
  rewrite (repeats_are_ignored envs _ Hk1).
  destruct (shouldStopSpeech_reads_and_clears (onKeyReleased st)) as [H1 H2].
  destruct (shouldStopSpeech_reads_and_clears
              (snd (shouldStopSpeech (onKeyReleased st)))) as [H3 _].
  rewrite H1, H3, H2. auto.
Qed.

Lemma release_is_polled_exactly_once_witness :
  fst (shouldStopSpeech
         (run (onKeyReleased firstSession) (map SpeechHotkey [ready; ready])))
  = true.
Proof.
  apply (release_is_polled_exactly_once firstSession [ready; ready]).
  reflexivity.
Defined.

End SpeechRunFacts.

(* ================================================================== *)
(** * Properties of the shortcut parser *)
(* ================================================================== *)

Section KeysFacts.

Import JsText Keys.
Local Open Scope string_scope.

Lemma toLowerCase_app (a b : string) :
  JsString.toLowerCase (a ++ b)
  = JsString.toLowerCase a ++ JsString.toLowerCase b.
Proof.
  induction a as [|c a IH]; simpl; [reflexivity|]. now rewrite IH.
Qed.

Lemma lowerChar_keeps_plus (c : ascii) :
  Ascii.eqb (JsString.lowerChar c) "+" = Ascii.eqb c "+".
Proof.
  destruct c as [[] [] [] [] [] [] [] []]; reflexivity.
Qed.

Lemma toLowerCase_lacks_plus (s : string) :
  lacks "+" (JsString.toLowerCase s) = lacks "+" s.
Proof.
  induction s as [|c s IH]; simpl; [reflexivity|].
  now rewrite lowerChar_keeps_plus, IH.
Qed.

Lemma toLowerCase_join (parts : list string) :
  JsString.toLowerCase (join "+" parts)
  = join "+" (map JsString.toLowerCase parts).
Proof.
  induction parts as [|a parts IH]; [reflexivity|].
  destruct parts as [|b parts]; [reflexivity|].
  change (join "+" (a :: b :: parts))
    with (a ++ String "+" (join "+" (b :: parts)))%string.
  rewrite toLowerCase_app.
  change (JsString.toLowerCase (String "+" (join "+" (b :: parts))))
    with (String "+" (JsString.toLowerCase (join "+" (b :: parts)))).
  rewrite IH. reflexivity.
Qed.

Lemma split_lacking (sep : ascii) (s : string) :
  lacks sep s = true -> split sep s = [s].
Proof.
  induction s as [|c s IH]; simpl; [reflexivity|].
  intros H. apply andb_true_iff in H as [Hc Hs].
  apply negb_true_iff in Hc. rewrite Hc, (IH Hs). reflexivity.
Qed.

Lemma split_app_sep (sep : ascii) (a r : string) :
  lacks sep a = true ->
  split sep (a ++ String sep r) = a :: split sep r.
Proof.
  induction a as [|c a IH]; simpl; intros H.
  - now rewrite Ascii.eqb_refl.
  - apply andb_true_iff in H as [Hc Ha].
    apply negb_true_iff in Hc. rewrite Hc, (IH Ha). reflexivity.
Qed.

(** Splitting undoes joining when no part contains the separator. *)
Lemma split_join (sep : ascii) (parts : list string) :
  parts <> [] ->
  Forall (fun p => lacks sep p = true) parts ->
  split sep (join sep parts) = parts.
Proof.
  induction parts as [|a parts IH]; intros Hne Hall; [contradiction|].
  inversion Hall as [|? ? Ha Hrest]; subst.
  destruct parts as [|b parts]; [now apply split_lacking|].
  change (join sep (a :: b :: parts))
    with (a ++ String sep (join sep (b :: parts)))%string.
  rewrite (split_app_sep _ _ _ Ha), IH; [reflexivity|discriminate|assumption].
Qed.

(** The parts the parser sees in a shortcut written as [p1+p2+...]. *)
Lemma shortcutParts_join (parts : list string) :
  parts <> [] ->
  Forall (fun p => lacks "+" p = true) parts ->
  shortcutParts (join "+" parts) = map normalized parts.
Proof.
  intros Hne Hall. unfold shortcutParts.
  rewrite toLowerCase_join, split_join.
  - now rewrite map_map.
  - destruct parts; [contradiction | discriminate].
  - apply Forall_map. eapply Forall_impl; [|exact Hall].
    intros p Hp. cbn beta. now rewrite toLowerCase_lacks_plus.
Qed.

Lemma find_skips_modifiers (mods rest : list string) :
  Forall (fun p => isModifier (normalized p) = true) mods ->
  find (fun p => negb (isModifier p)) (map normalized (mods ++ rest)%list)
  = find (fun p => negb (isModifier p)) (map normalized rest).
Proof.
  induction 1 as [|m mods Hm _ IH]; [reflexivity|].
  cbn [app map find]. now rewrite Hm.
Qed.

(** A shortcut made of modifier names only (in any letter case, with any
    white space around the names) has no main key: [shortcutMainVK]
    returns [null]. *)
Theorem modifiers_only_shortcut_has_no_key (mods : list string) :
  Forall (fun p => lacks "+" p = true) mods ->
  Forall (fun p => isModifier (normalized p) = true) mods ->
  shortcutMainVK (join "+" mods) = Null.
Proof.
  intros Hl Hm. destruct mods as [|m mods]; [reflexivity|].
  unfold shortcutMainVK. rewrite shortcutParts_join by (discriminate || assumption).
  rewrite <- (app_nil_r (m :: mods)), (find_skips_modifiers _ [] Hm).
  reflexivity.
Qed.

Lemma modifiers_only_shortcut_has_no_key_witness :
  shortcutMainVK (join "+" ["Ctrl"; " Shift "; "ALT"]) = Null.
Proof.
  apply (modifiers_only_shortcut_has_no_key ["Ctrl"; " Shift "; "ALT"]);
    repeat constructor.
Defined.

(** The first part that is not a modifier name decides: after any
    modifiers, the key [VK] has for the trimmed lower-case part is
    returned ([null] when the part is blank or unknown), and whatever
    follows that part is ignored. *)
Theorem first_non_modifier_part_is_the_key
    (mods : list string) (key : string) (rest : list string) :
  Forall (fun p => lacks "+" p = true) (mods ++ key :: rest)%list ->
  Forall (fun p => isModifier (normalized p) = true) mods ->
  isModifier (normalized key) = false ->
  shortcutMainVK (join "+" (mods ++ key :: rest)%list)
  = if String.eqb (normalized key) EmptyString then Null
    else lookupVK (normalized key).
Proof.
  intros Hl Hm Hk. unfold shortcutMainVK.
  rewrite shortcutParts_join; [|destruct mods; discriminate|assumption].
  rewrite (find_skips_modifiers _ _ Hm). cbn [map find]. now rewrite Hk.
Qed.

Lemma first_non_modifier_part_is_the_key_witness :
  shortcutMainVK (join "+" (["CommandOrControl"; "Shift"] ++ "F5" :: ["x"])%list)
  = Code 0x74.
Proof.
  apply (first_non_modifier_part_is_the_key
           ["CommandOrControl"; "Shift"] "F5" ["x"]);
    repeat constructor.
Defined.

(** From idle with the model downloaded, a press starts the recording,
    and spawns the watcher exactly when the environment allows it. *)
Lemma press_spawns_watcher_iff (st : Speech.MainState) (env : Speech.PressEnv) :
  Speech.isSpeechRecording st = false ->
  Speech.modelDownloaded env = true ->
  Speech.isSpeechRecording (fst (Speech.handleSpeechShortcutPress env st)) = true /\
  (In Speech.SpawnKeyWatcher (snd (Speech.handleSpeechShortcutPress env st))
   <-> Speech.canWatchKey env = true).
Proof.
  intros Hidle Hd. unfold Speech.handleSpeechShortcutPress. rewrite Hidle, Hd.
  cbn [negb].
  unfold Speech.createSpeechPopupWindow.
  match goal with
  | |- context [Speech.closeExistingPopup ?s] =>
      pose proof (closeExistingPopup_frame s) as (Hr & _ & _);
      assert (Hc : forall e, In e (snd (Speech.closeExistingPopup s)) ->
                             exists w, e = Speech.CloseWindow w);
      [ unfold Speech.closeExistingPopup;
        destruct (Speech.popupWindow s) as [w|];
        [destruct (Speech.destroyed w)|]; cbn; intros e He;
        try contradiction;
        destruct He as [<-|[]]; eexists; reflexivity
      | destruct (Speech.closeExistingPopup s) as [st1 eff] ]
  end.
  cbn [fst snd] in *. split; [cbn; exact Hr|].
  destruct (Speech.canWatchKey env); split; intros H; try reflexivity.
  - apply in_or_app. right. now left.
  - apply in_app_or in H as [H|[]]. apply in_app_or in H as [H|[H|[]]].
    + destruct (Hc _ H) as [w Hw]. discriminate.
    + discriminate.
  - discriminate.
Qed.

(** From idle with the model downloaded, a press starts the recording
    whatever the shortcut is, but the key-release watcher is spawned only
    on Windows and only when [shortcutMainVK] finds a key for the
    registered shortcut: with a shortcut on a key that [VK] does not
    know, nothing will ever signal the release. *)
Theorem watcher_needs_known_key
    (st : Speech.MainState) (win32 : bool) (shortcut : string) :
  Speech.isSpeechRecording st = false ->
  Speech.isSpeechRecording
    (fst (Speech.handleSpeechShortcutPress (pressEnv true win32 (Some shortcut)) st))
  = true /\
  (In Speech.SpawnKeyWatcher
      (snd (Speech.handleSpeechShortcutPress (pressEnv true win32 (Some shortcut)) st))
   <-> win32 = true /\ shortcutMainVK shortcut <> Null).
Proof.
  intros Hidle.
  destruct (press_spawns_watcher_iff st (pressEnv true win32 (Some shortcut))
              Hidle eq_refl) as [Hrec Hw].
  split; [exact Hrec|]. rewrite Hw. cbn [pressEnv Speech.canWatchKey].
  destruct (shortcutMainVK shortcut), win32; cbn; split;
    try (intros [? ?]); try intros ?; try split; congruence.
Qed.

Lemma watcher_needs_known_key_witness :
  In Speech.SpawnKeyWatcher
     (snd (Speech.handleSpeechShortcutPress
             (pressEnv true true (Some "Ctrl+Shift+Plus")) Speech.initial))
  <-> true = true /\ shortcutMainVK "Ctrl+Shift+Plus" <> Null.
Proof.
  apply (watcher_needs_known_key Speech.initial true "Ctrl+Shift+Plus").
  reflexivity.
Defined.

(** A shortcut on the plus key or on a key name outside [VK] has no key
    code. *)
Example plus_key_is_not_recognised :
  shortcutMainVK "Ctrl+Plus" = Null /\ shortcutMainVK "Ctrl++" = Null /\
  shortcutMainVK "Alt+MediaPlayPause" = Null.
Proof. repeat split. Qed.

End KeysFacts.

(* ================================================================== *)
(** * Properties of popup placement *)
(* ================================================================== *)

Section PlacementFacts.

Import Placement.

Lemma keepOnAxis_inside (lo extent size v : Z) :
  size + 10 <= extent ->
  lo <= keepOnAxis lo extent size v /\
  keepOnAxis lo extent size v + size <= lo + extent.
Proof.
  intros H. unfold keepOnAxis.
  destruct (Z.ltb_spec v lo);
    match goal with |- context [?a <? ?b] => destruct (Z.ltb_spec a b) end; lia.
Qed.

Lemma keepOnAxis_fits (lo extent size v : Z) :
  lo <= v -> v + size <= lo + extent -> keepOnAxis lo extent size v = v.
Proof.
  intros H1 H2. unfold keepOnAxis.
  destruct (Z.ltb_spec v lo); [lia|].
  destruct (Z.ltb_spec (lo + extent) (v + size)); lia.
Qed.

(** The centred coordinate lies within half a pixel of the exact centre. *)
Lemma centredX_spec (bounds : Rectangle) (width : Z) :
  0 <= 2 * centredX bounds width + width - (2 * rx bounds + rwidth bounds) <= 1.
Proof.
  unfold centredX.
  destruct (Math_round_nearest
              (inject_Z (rx bounds) + (inject_Z (rwidth bounds) - inject_Z width) / 2)%Q)
    as [Hlo Hhi].
  set (r := Math_round _) in *. clearbody r.
  unfold Qlt, Qle, Qminus, Qplus, Qdiv, Qmult, Qopp, Qinv, inject_Z in Hlo, Hhi.
  simpl in Hlo, Hhi. lia.
Qed.

(** A popup opened near the cursor lies entirely on the display as soon
    as the display is at least 10 pixels wider and higher than the popup,
    wherever the cursor is; and when the position centred on the cursor
    already fits, it is used unchanged. *)
Theorem popup_near_cursor_stays_on_display
    (popupWidth popupHeight : Z) (above : number)
    (cursorPoint : Point) (bounds : Rectangle) :
  popupWidth + 10 <= rwidth bounds ->
  popupHeight + 10 <= rheight bounds ->
  onDisplay (nearCursor popupWidth popupHeight above cursorPoint bounds)
            popupWidth popupHeight bounds /\
  (onDisplay (mkPoint (Math_round (inject_Z (px cursorPoint) - inject_Z popupWidth / 2)%Q)
                      (Math_round (inject_Z (py cursorPoint) - above)%Q))
             popupWidth popupHeight bounds ->
   nearCursor popupWidth popupHeight above cursorPoint bounds
   = mkPoint (Math_round (inject_Z (px cursorPoint) - inject_Z popupWidth / 2)%Q)
             (Math_round (inject_Z (py cursorPoint) - above)%Q)).
Proof.
  intros Hw Hh. unfold onDisplay, nearCursor. cbn [px py]. split.
  - pose proof (keepOnAxis_inside (rx bounds) (rwidth bounds) popupWidth
                  (Math_round (inject_Z (px cursorPoint) - inject_Z popupWidth / 2)%Q) Hw).
    pose proof (keepOnAxis_inside (ry bounds) (rheight bounds) popupHeight
                  (Math_round (inject_Z (py cursorPoint) - above)%Q) Hh).
    tauto.
  - intros (H1 & H2 & H3 & H4).
    now rewrite !keepOnAxis_fits.
Qed.

Lemma popup_near_cursor_stays_on_display_witness :
  onDisplay (createPopupWindow_position (mkPoint 1900 1070) (mkRect 0 0 1920 1080))
            450 520 (mkRect 0 0 1920 1080).
Proof.
  apply (popup_near_cursor_stays_on_display 450 520 20%Q
           (mkPoint 1900 1070) (mkRect 0 0 1920 1080)); cbn; lia.
Defined.

(** The prompt popup at the lower right corner of a 1920 x 1080 display. *)
Example prompt_popup_in_corner :
  createPopupWindow_position (mkPoint 1900 1070) (mkRect 0 0 1920 1080)
  = mkPoint 1460 550.
Proof. reflexivity. Qed.

(** The analyzer picker is centred on the cursor in both directions. *)
Example picker_centred_on_cursor :
  createAnalyzerPickerWindow_position (mkPoint 800 500) (mkRect 0 0 1920 1080)
  = mkPoint 630 350.
Proof. reflexivity. Qed.

(** The speech indicator, at creation and after every resize to a width
    that the display can hold, lies between the left and right edge of
    the display, is centred to within half a pixel, and keeps its bottom
    edge 28 (at creation) or 40 (after a resize) pixels above the bottom
    of the work area. *)
Theorem speech_popup_is_centred_at_bottom
    (bounds workArea : Rectangle) (width height : Z) :
  200 <= rwidth bounds ->
  width <= rwidth bounds ->
  (rx bounds <= px (createSpeechPopupWindow_position bounds workArea) /\
   px (createSpeechPopupWindow_position bounds workArea) + 200
     <= rx bounds + rwidth bounds /\
   py (createSpeechPopupWindow_position bounds workArea) + 28 + 28
     = ry workArea + rheight workArea) /\
  (rx bounds <= rx (resizeSpeechPopup_bounds bounds workArea width height) /\
   rx (resizeSpeechPopup_bounds bounds workArea width height) + width
     <= rx bounds + rwidth bounds /\
   ry (resizeSpeechPopup_bounds bounds workArea width height) + height + 40
     = ry workArea + rheight workArea /\
   0 <= 2 * rx (resizeSpeechPopup_bounds bounds workArea width height) + width
          - (2 * rx bounds + rwidth bounds) <= 1).
Proof.
  intros H200 Hw.
  pose proof (centredX_spec bounds 200).
  pose proof (centredX_spec bounds width).
  unfold createSpeechPopupWindow_position, resizeSpeechPopup_bounds.
  cbn [px py rx ry]. lia.
Qed.

Lemma speech_popup_is_centred_at_bottom_witness :
  px (createSpeechPopupWindow_position (mkRect 1920 0 2560 1440)
                                       (mkRect 1920 0 2560 1400)) = 3100 /\
  rx (resizeSpeechPopup_bounds (mkRect 1920 0 2560 1440)
                               (mkRect 1920 0 2560 1400) 321 120) + 321
    <= 1920 + 2560.
Proof.
  split; [reflexivity|].
  apply (speech_popup_is_centred_at_bottom
           (mkRect 1920 0 2560 1440) (mkRect 1920 0 2560 1400) 321 120);
    cbn; lia.
Defined.

End PlacementFacts.

(* ================================================================== *)
(** * Properties of the score history *)
(* ================================================================== *)

Section ScoresFacts.

Import Scores.

Lemma sliceLast_spec {A : Type} (n : nat) (l : list A) :
  firstn (List.length l - n) l ++ sliceLast n l = l /\
  List.length (sliceLast n l) = Nat.min (List.length l) n.
Proof.
  unfold sliceLast. split; [apply firstn_skipn|].
  rewrite length_skipn. lia.
Qed.

Lemma last_app_nonempty {A : Type} (l t : list A) (d : A) :
  t <> [] -> last (l ++ t) d = last t d.
Proof.
  intros Ht. induction l as [|a l IH]; [reflexivity|].
  cbn [app]. rewrite <- IH.
  destruct (l ++ t) eqn:E; [|reflexivity].
  apply app_eq_nil in E as [_ E]. contradiction.
Qed.

(** After [saveScore] has written the file, it holds at most 1000
    entries; they are the most recent ones in their order, ending with
    the entry just added; nothing is dropped while the history has fewer
    than 1000 entries; and a missing, unreadable or non-array file is
    replaced by a history of this one entry. *)
Theorem saveScore_keeps_last_1000
    (now : string) (file : ScoresFile) (userScore refinedScore : number) :
  (List.length (loadScores (saveScore Written now file userScore refinedScore))
   = Nat.min (List.length (loadScores file) + 1) 1000)%nat /\
  last (loadScores (saveScore Written now file userScore refinedScore))
       (mkEntry now userScore refinedScore)
  = mkEntry now userScore refinedScore /\
  (exists dropped,
     dropped ++ loadScores (saveScore Written now file userScore refinedScore)
     = loadScores file ++ [mkEntry now userScore refinedScore] /\
     List.length dropped = (List.length (loadScores file) + 1 - 1000)%nat).
Proof.
  unfold saveScore. cbn [loadScores].
  set (new := mkEntry now userScore refinedScore).
  destruct (sliceLast_spec 1000 (loadScores file ++ [new])) as [Hsplit Hlen].
  rewrite length_app in Hlen, Hsplit. cbn [List.length] in Hlen, Hsplit.
  split; [exact Hlen|]. split.
  - destruct (sliceLast 1000 (loadScores file ++ [new])) as [|a t] eqn:E.
    + reflexivity.
    + assert (Hl : last (firstn (List.length (loadScores file) + 1 - 1000)
                                (loadScores file ++ [new]) ++ a :: t) new = new)
        by (rewrite Hsplit; apply last_last).
      rewrite last_app_nonempty in Hl by discriminate. exact Hl.
  - exists (firstn (List.length (loadScores file) + 1 - 1000) (loadScores file ++ [new])).
    split; [exact Hsplit|].
    rewrite length_firstn, length_app. cbn [List.length]. lia.
Qed.

End ScoresFacts.

(* ================================================================== *)
(** * Properties of white-space trimming *)
(* ================================================================== *)

Section TrimFacts.

Import JsText.

Lemma trimStart_head (s : string) :
  trimStart s = EmptyString \/
  exists c t, trimStart s = String c t /\ isWhiteSpace c = false.
Proof.
  induction s as [|c s IH]; simpl; [now left|].
  destruct (isWhiteSpace c) eqn:E; [exact IH|].
  right. now exists c, s.
Qed.

Lemma trimEnd_head (c : ascii) (s : string) :
  isWhiteSpace c = false -> exists t, trimEnd (String c s) = String c t.
Proof.
  intros H. simpl. destruct (trimEnd s); rewrite ?H; eexists; reflexivity.
Qed.

Lemma trimEnd_idempotent (s : string) : trimEnd (trimEnd s) = trimEnd s.
Proof.
  induction s as [|c s IH]; [reflexivity|]. simpl.
  destruct (trimEnd s) as [|a t] eqn:E.
  - destruct (isWhiteSpace c) eqn:W; [reflexivity|]. simpl. now rewrite W.
  - change (trimEnd (String c (String a t)))
      with (match trimEnd (String a t) with
            | EmptyString => if isWhiteSpace c then EmptyString else String c EmptyString
            | u => String c u
            end).
    now rewrite IH.
Qed.

(** Trimming a trimmed string changes nothing. *)
Lemma trim_idempotent (s : string) : trim (trim s) = trim s.
Proof.
  unfold trim.
  destruct (trimStart_head s) as [-> | (c & t & -> & W)]; [reflexivity|].
  destruct (trimEnd_head c t W) as [u Hu]. rewrite Hu.
  simpl trimStart. rewrite W. rewrite <- Hu. apply trimEnd_idempotent.
Qed.

End TrimFacts.

(* ================================================================== *)
(** * Properties of the API-key, OCR and chat-completion handlers *)
(* ================================================================== *)

Section HandlersFacts.

Import Analyzer Handlers.
Local Open Scope string_scope.

Variable JSON_parse : string -> option jsval.
Variable DEFAULT_OPENROUTER_API_KEY : string.

(** [get-api-key] after [set-api-key] returns the key without its
    surrounding white space; storing what was read back changes nothing;
    and the analyzers use the trimmed key, or the built-in key when the
    given one is blank. *)
Theorem api_key_round_trip (key : string) :
  get_api_key (set_api_key key) = JsText.trim key /\
  set_api_key (get_api_key (set_api_key key)) = set_api_key key /\
  apiKey DEFAULT_OPENROUTER_API_KEY (set_api_key key)
  = if String.eqb (JsText.trim key) EmptyString
    then DEFAULT_OPENROUTER_API_KEY else JsText.trim key.
Proof.
  unfold set_api_key.
  destruct (String.eqb_spec (JsText.trim key) EmptyString) as [E|N].
  - cbn. rewrite E. repeat split.
  - cbn [get_api_key apiKey]. split; [reflexivity|]. split.
    + rewrite trim_idempotent.
      destruct (String.eqb_spec (JsText.trim key) EmptyString); congruence.
    + destruct (String.eqb_spec (JsText.trim key) EmptyString); congruence.
Qed.

(** [extract-text] answers with a failure envelope or with a text that
    is never empty: the trimmed OCR output, or ['[No text found]'] when
    that is blank; it succeeds exactly when the screenshot and the OCR
    run both succeeded, and it always leaves the selection cleared. *)
Theorem extract_text_is_never_empty
    (st : SelectionState) (screenshot ocr : Result string) :
  ((exists text,
      fst (extract_text st screenshot ocr) = Success (VObj [("text", VStr text)]) /\
      text <> EmptyString /\
      exists url recognized,
        screenshot = Ok url /\ ocr = Ok recognized /\
        (text = JsText.trim recognized \/
         JsText.trim recognized = EmptyString /\ text = "[No text found]"))
   \/
   (exists msg e,
      fst (extract_text st screenshot ocr) = Failure msg /\
      (screenshot = Throw e \/ ocr = Throw e))) /\
  snd (extract_text st screenshot ocr) = cleared.
Proof.
  unfold extract_text.
  destruct screenshot as [url|e]; cbn [bind].
  - destruct ocr as [recognized|e]; cbn [extractTextFromImage bind].
    + destruct (String.eqb_spec (JsText.trim recognized) EmptyString) as [E|N];
        (split; [left|reflexivity]).
      * exists "[No text found]". split; [reflexivity|]. split; [discriminate|].
        exists url, recognized. auto.
      * exists (JsText.trim recognized). split; [reflexivity|]. split; [exact N|].
        exists url, recognized. auto.
    + split; [right|reflexivity]. exists (message e), e. auto.
  - split; [right|reflexivity]. exists (message e), e. auto.
Qed.

(** When [completionContent] returns, the backend has answered with
    that content. *)
Lemma completionContent_Ok (resp : FetchOutcome) (content : jsval) :
  completionContent JSON_parse resp = Ok content <->
  answers JSON_parse resp content.
Proof.
  unfold answers. split.
  - destruct resp as [e|ok status body]; cbn; [discriminate|].
    destruct ok; cbn; [|discriminate].
    unfold parseJSON. destruct (JSON_parse body) as [data|] eqn:Hp; cbn;
      [|discriminate].
    destruct (contentOf data) as [c|e] eqn:Hc; cbn; [|discriminate].
    destruct (truthy c) eqn:Ht; cbn; [|discriminate].
    intros H. injection H as <-. exists status, body, data. auto.
  - intros (status & body & data & -> & Hp & Hc & Ht). cbn.
    unfold parseJSON. rewrite Hp. cbn. rewrite Hc. cbn. now rewrite Ht.
Qed.

(** With an API key configured, [refine-image-description] and
    [generate-ai-context] (given at least one prompt) succeed exactly
    when the backend answers with status ok and a JSON body carrying a
    truthy [choices[0].message.content], which they hand back unchanged;
    in every other case, and for [generate-ai-context] without prompts
    whatever the backend says, they answer with a failure envelope. *)
Theorem completion_handlers_succeed_iff_content
    (custom : option string) (resp : FetchOutcome) (content : jsval) (n : nat) :
  noApiKey (apiKey DEFAULT_OPENROUTER_API_KEY custom) = false ->
  (refine_image_description JSON_parse DEFAULT_OPENROUTER_API_KEY custom resp
   = Success (VObj [("description", content)])
   <-> answers JSON_parse resp content) /\
  (generate_ai_context JSON_parse DEFAULT_OPENROUTER_API_KEY custom (Some (S n)) resp
   = Success content
   <-> answers JSON_parse resp content) /\
  generate_ai_context JSON_parse DEFAULT_OPENROUTER_API_KEY custom (Some O) resp
  = Failure "No prompts in this session." /\
  generate_ai_context JSON_parse DEFAULT_OPENROUTER_API_KEY custom None resp
  = Failure "No prompts in this session.".
Proof.
  intros Hkey. unfold refine_image_description, generate_ai_context.
  rewrite Hkey. rewrite <- completionContent_Ok.
  repeat split; try reflexivity.
  all: destruct (completionContent JSON_parse resp); intros H;
       try discriminate H; congruence.
Qed.

End HandlersFacts.

Section HandlersSamples.

Local Open Scope string_scope.

Lemma completion_handlers_succeed_iff_content_witness :
  Handlers.refine_image_description Analyzer.sampleParse "sk-or-v1-sample" None
    (Analyzer.Response true 200 Analyzer.proseBody)
  = Analyzer.Success
      (Analyzer.VObj [("description", Analyzer.VStr Analyzer.proseAnswer)])
  <-> Handlers.answers Analyzer.sampleParse
        (Analyzer.Response true 200 Analyzer.proseBody)
        (Analyzer.VStr Analyzer.proseAnswer).
Proof.
  apply (completion_handlers_succeed_iff_content
           Analyzer.sampleParse "sk-or-v1-sample" None
           (Analyzer.Response true 200 Analyzer.proseBody)
           (Analyzer.VStr Analyzer.proseAnswer) 0).
  reflexivity.
Defined.

(** A key padded with no-break spaces (U+00A0) is stored without them,
    and a key made of no-break spaces alone is no key. *)
Example no_break_spaces_are_trimmed :
  Handlers.get_api_key
    (Handlers.set_api_key
       (String (ascii_of_nat 160) ("sk-mine" ++ String (ascii_of_nat 160) EmptyString)))
  = "sk-mine" /\
  Handlers.set_api_key
    (String (ascii_of_nat 160) (String (ascii_of_nat 160) EmptyString))
  = None.
Proof. split; reflexivity. Qed.

(** OCR output made of no-break spaces counts as no text. *)
Example no_break_spaces_are_no_text :
  fst (Handlers.extract_text Analyzer.cleared
         (Analyzer.Ok "data:image/jpeg;base64,AAAA")
         (Analyzer.Ok (String (ascii_of_nat 160) (String (ascii_of_nat 160) EmptyString))))
  = Analyzer.Success (Analyzer.VObj [("text", Analyzer.VStr "[No text found]")]).
Proof. reflexivity. Qed.

(** A selection that has its stored screenshot is served from it. *)
Example stored_screenshot_is_used_first :
  Handlers.screenshotSource
    (Analyzer.mkSelection (Some Crop.regionRect) (Some Crop.fullHD)
                          (Some "data:image/jpeg;base64,AAAA")
                          (Some Crop.bitmap4K))
  = Handlers.CropStored "data:image/jpeg;base64,AAAA" Crop.regionRect.
Proof. reflexivity. Qed.

End HandlersSamples.

(* ================================================================== *)
(** * Properties of the blocked-host entries *)
(* ================================================================== *)

Section VibeFacts.

Import JsText Vibe.
Local Open Scope string_scope.

Lemma lowerChar_idempotent (c : ascii) :
  JsString.lowerChar (JsString.lowerChar c) = JsString.lowerChar c.
Proof.
  destruct c as [[] [] [] [] [] [] [] []]; reflexivity.
Qed.

Lemma toLowerCase_idempotent (s : string) :
  JsString.toLowerCase (JsString.toLowerCase s) = JsString.toLowerCase s.
Proof.
  induction s as [|c s IH]; simpl; [reflexivity|].
  now rewrite lowerChar_idempotent, IH.
Qed.

Lemma stripPrefix_Some (p : string) :
  forall s rest, JsString.stripPrefix p s = Some rest -> s = p ++ rest.
Proof.
  induction p as [|a p IH]; intros s rest H; simpl in H.
  - now injection H as ->.
  - destruct s as [|b s]; [discriminate|].
    destruct (Ascii.eqb_spec a b) as [->|]; [|discriminate].
    simpl. now rewrite (IH s rest H).
Qed.

Lemma stripPrefix_None (p : string) :
  forall s, prefix p s = false -> JsString.stripPrefix p s = None.
Proof.
  induction p as [|a p IH]; intros s H; simpl in *.
  - destruct s; discriminate.
  - destruct s as [|b s]; [reflexivity|].
    destruct (Ascii.eqb_spec a b) as [->|N].
    + apply IH. simpl in H. destruct (ascii_dec b b); [assumption|contradiction].
    + reflexivity.
Qed.

Lemma lacks_app (c : ascii) (a b : string) :
  lacks c (a ++ b) = lacks c a && lacks c b.
Proof.
  induction a as [|x a IH]; simpl; [reflexivity|].
  now rewrite IH, andb_assoc.
Qed.

(** A string without ['/'] starts with neither scheme. *)
Lemma no_scheme_without_slash (d : string) :
  lacks "/" d = true ->
  JsString.stripPrefix "https://" d = None /\
  JsString.stripPrefix "http://" d = None.
Proof.
  intros H. split.
  - destruct (JsString.stripPrefix "https://" d) as [r|] eqn:E; [|reflexivity].
    apply stripPrefix_Some in E. subst d. rewrite lacks_app in H. discriminate.
  - destruct (JsString.stripPrefix "http://" d) as [r|] eqn:E; [|reflexivity].
    apply stripPrefix_Some in E. subst d. rewrite lacks_app in H. discriminate.
Qed.

Lemma cutPath_without_slash (d : string) :
  lacks "/" d = true -> cutPath d = d.
Proof.
  induction d as [|c d IH]; simpl; [reflexivity|].
  intros H. apply andb_true_iff in H as [Hc Hd].
  apply negb_true_iff in Hc. rewrite Hc, (IH Hd). reflexivity.
Qed.

Lemma cutPath_cuts_path (d path : string) :
  lacks "/" d = true -> singleLine path = true ->
  cutPath (d ++ String "/" path) = d.
Proof.
  intros Hd Hp. induction d as [|c d IH]; simpl.
  - now rewrite Hp.
  - simpl in Hd. apply andb_true_iff in Hd as [Hc Hd].
    apply negb_true_iff in Hc. rewrite Hc, (IH Hd). reflexivity.
Qed.

(** The entries of a plain domain. *)
Lemma entriesFor_domain (site d : string) :
  plainDomain d ->
  cutPath (stripSchemeAndWww site) = d ->
  entriesFor site = ["0.0.0.0 " ++ d; "0.0.0.0 www." ++ d].
Proof.
  intros (Hne & _ & Ht & Hl & Hw) Hc.
  unfold entriesFor, domainOf. rewrite Hc, Ht, Hl, Hw.
  destruct (String.eqb_spec d EmptyString); [contradiction | reflexivity].
Qed.

(** Every entry built has the form [0.0.0.0 <domain>] with a non-empty
    lower-case domain, and a site contributes at most two entries. *)
Theorem host_entries_are_well_formed (sites : list string) :
  Forall (fun e => exists d,
            e = "0.0.0.0 " ++ d /\ d <> EmptyString /\
            JsString.toLowerCase d = d)
         (buildHostEntries sites) /\
  (List.length (buildHostEntries sites) <= 2 * List.length sites)%nat.
Proof.
  unfold buildHostEntries.
  induction sites as [|site sites [IHf IHl]]; [split; [constructor | simpl; lia]|].
  cbn [flat_map]. rewrite length_app.
  assert (H : Forall (fun e => exists d,
                        e = "0.0.0.0 " ++ d /\ d <> EmptyString /\
                        JsString.toLowerCase d = d) (entriesFor site) /\
              (List.length (entriesFor site) <= 2)%nat).
  { unfold entriesFor.
    assert (Hlow : JsString.toLowerCase (domainOf site) = domainOf site)
      by apply toLowerCase_idempotent.
    destruct (String.eqb_spec (domainOf site) EmptyString) as [E|N];
      [split; [constructor | simpl; lia]|].
    split.
    - constructor; [exists (domainOf site); auto|].
      destruct (prefix "www." (domainOf site)); constructor; [|constructor].
      exists ("www." ++ domainOf site). split; [reflexivity|].
      split; [discriminate|]. simpl. now rewrite Hlow.
    - destruct (prefix "www." (domainOf site)); simpl; lia. }
  destruct H as [Hf Hl]. split; [now apply Forall_app | cbn [List.length]; lia].
Qed.

(** A site can be given as a bare domain, with [www.], with [http://] or
    [https://], and with a path after the domain: each form yields the
    same two entries, for the domain and for its [www.] name. *)
Theorem site_forms_give_the_same_entries (d path : string) :
  plainDomain d ->
  singleLine path = true ->
  buildHostEntries [d] = ["0.0.0.0 " ++ d; "0.0.0.0 www." ++ d] /\
  buildHostEntries ["www." ++ d] = buildHostEntries [d] /\
  buildHostEntries ["http://" ++ d] = buildHostEntries [d] /\
  buildHostEntries ["https://www." ++ d ++ String "/" path] = buildHostEntries [d].
Proof.
  intros Hd Hp. pose proof Hd as (_ & Hs & _ & _ & Hw).
  destruct (no_scheme_without_slash d Hs) as [Hhttps Hhttp].
  assert (Hplain : entriesFor d = ["0.0.0.0 " ++ d; "0.0.0.0 www." ++ d]).
  { apply entriesFor_domain; [assumption|].
    unfold stripSchemeAndWww, stripOptional.
    rewrite Hhttps, Hhttp, (stripPrefix_None _ _ Hw).
    now apply cutPath_without_slash. }
  unfold buildHostEntries. cbn [flat_map]. rewrite !app_nil_r, Hplain.
  split; [reflexivity|]. split; [|split].
  - apply entriesFor_domain; [assumption|].
    now apply cutPath_without_slash.
  - apply entriesFor_domain; [assumption|].
    change (stripSchemeAndWww ("http://" ++ d)) with (stripOptional "www." d).
    unfold stripOptional.
    rewrite (stripPrefix_None _ _ Hw). now apply cutPath_without_slash.
  - apply entriesFor_domain; [assumption|].
    now apply cutPath_cuts_path.
Qed.

Lemma site_forms_give_the_same_entries_witness :
  buildHostEntries ["https://www." ++ "youtube.com" ++ String "/" "watch?v=1"]
  = buildHostEntries ["youtube.com"].
Proof.
  apply (site_forms_give_the_same_entries "youtube.com" "watch?v=1").
  - repeat split. discriminate.
  - reflexivity.
Defined.

(** The prefixes are matched as written: an upper-case scheme or [WWW.]
    is not removed. *)
Example upper_case_prefixes_are_kept :
  buildHostEntries ["WWW.Example.com"] = ["0.0.0.0 www.example.com"] /\
  buildHostEntries ["HTTP://example.com"] = ["0.0.0.0 http:"; "0.0.0.0 www.http:"].
Proof. split; reflexivity. Qed.

(** A capital letter of the Latin-1 block is put in lower case like the
    others (U+00DC to U+00FC), and a no-break space around the domain is
    trimmed. *)
Example latin1_capitals_are_lowered :
  buildHostEntries [String (ascii_of_nat 220) "ber.de"]
  = ["0.0.0.0 " ++ String (ascii_of_nat 252) "ber.de";
     "0.0.0.0 www." ++ String (ascii_of_nat 252) "ber.de"] /\
  buildHostEntries [String (ascii_of_nat 160) "example.com"]
  = ["0.0.0.0 example.com"; "0.0.0.0 www.example.com"].
Proof. split; reflexivity. Qed.

End VibeFacts.

(* ================================================================== *)
(** * More properties of capture-source matching *)
(* ================================================================== *)

Section MatchingFacts.

Import Crop Capture ActiveDisplay.

(** With a target id and at least one display, the capture is taken from
    an enumerated display: the first one with that id, and the first
    display of the enumeration when none has it. *)
Theorem target_display_is_always_resolved
    (wanted : Z) (first : Display) (rest : list Display) (nearest : Display) :
  exists d,
    resolveActiveDisplay (Some wanted) (first :: rest) nearest = Some d /\
    In d (first :: rest) /\
    ((exists d', In d' (first :: rest) /\ d_id d' = wanted) -> d_id d = wanted) /\
    ((forall d', In d' (first :: rest) -> d_id d' <> wanted) -> d = first).
Proof.
  unfold resolveActiveDisplay.
  destruct (find (fun d => d_id d =? wanted) (first :: rest)) as [d|] eqn:E.
  - apply find_some in E as [Hin Hid]. apply Z.eqb_eq in Hid.
    exists d. repeat split; auto.
    intros Hnone. exfalso. exact (Hnone d Hin Hid).
  - exists first. split; [reflexivity|]. split; [now left|]. split; [|reflexivity].
    intros (d' & Hin & Hid).
    pose proof (find_none _ _ E d' Hin) as Hn. cbn in Hn.
    apply Z.eqb_neq in Hn. contradiction.
Qed.

Lemma target_display_is_always_resolved_witness :
  exists d,
    resolveActiveDisplay (Some 7) (leftDisplay :: [rightDisplay]) leftDisplay = Some d /\
    In d (leftDisplay :: [rightDisplay]) /\
    ((exists d', In d' (leftDisplay :: [rightDisplay]) /\ d_id d' = 7) -> d_id d = 7) /\
    ((forall d', In d' (leftDisplay :: [rightDisplay]) -> d_id d' <> 7) -> d = leftDisplay).
Proof.
  exact (target_display_is_always_resolved 7 leftDisplay [rightDisplay] leftDisplay).
Defined.

(** When some source carries the active display's id as its
    [display_id], the source chosen is the first such source: its
    [display_id] is non-empty and is the decimal form of that id,
    whatever the ids, names, counts and thumbnails say. *)
Theorem display_id_hint_always_wins
    (sources : list Source) (allDisplays : list Display)
    (activeDisplay : Display) (primaryDisplayId : Z) (hinted : Source) :
  In hinted sources ->
  displayIdMatches activeDisplay hinted = true ->
  exists s,
    captureScreenshot_targetSource sources allDisplays activeDisplay primaryDisplayId
    = Some s /\
    find (displayIdMatches activeDisplay) sources = Some s /\
    In s sources /\
    display_id s = JsString.toString (d_id activeDisplay) /\
    display_id s <> EmptyString.
Proof.
  intros Hin Hm.
  destruct (find (displayIdMatches activeDisplay) sources) as [s|] eqn:E.
  2:{ pose proof (find_none _ _ E hinted Hin). congruence. }
  exists s. pose proof (find_some _ _ E) as [Hs Hp].
  unfold displayIdMatches in Hp. apply andb_true_iff in Hp as [Hne Heq].
  apply String.eqb_eq in Heq.
  split; [|repeat split; auto].
  - unfold captureScreenshot_targetSource.
    destruct sources as [|s0 rest]; [contradiction|].
    assert (Hlen : (Z.of_nat (List.length (s0 :: rest)) =? 0) = false)
      by (apply Z.eqb_neq; simpl List.length; lia).
    rewrite Hlen. unfold method1. rewrite E. reflexivity.
  - unfold nonEmpty in Hne. apply negb_true_iff in Hne.
    now apply String.eqb_neq in Hne.
Qed.

Lemma display_id_hint_always_wins_witness :
  exists s,
    captureScreenshot_targetSource [hintedRight; hintedLeft]
      [leftDisplay; rightDisplay] leftDisplay 2528732444 = Some s /\
    find (displayIdMatches leftDisplay) [hintedRight; hintedLeft] = Some s /\
    In s [hintedRight; hintedLeft] /\
    display_id s = JsString.toString (d_id leftDisplay) /\
    display_id s <> EmptyString.
Proof.
  apply (display_id_hint_always_wins [hintedRight; hintedLeft]
           [leftDisplay; rightDisplay] leftDisplay 2528732444 hintedLeft).
  - right; left; reflexivity.
  - reflexivity.
Defined.

(** With a single capture source, that source is chosen whatever the
    displays are. *)
Theorem single_source_is_always_chosen
    (only : Source) (allDisplays : list Display)
    (activeDisplay : Display) (primaryDisplayId : Z) :
  captureScreenshot_targetSource [only] allDisplays activeDisplay primaryDisplayId
  = Some only.
Proof.
  rewrite captureScreenshot_targetSource_codeChain.
  destruct (codeChain_member only [] allDisplays activeDisplay primaryDisplayId)
    as (s & -> & [<-|[]]).
  reflexivity.
Qed.

Lemma findIndex_found {A : Type} (p : A -> bool) (l : list A) (a : A) :
  In a l -> p a = true ->
  0 <= findIndex p l /\
  exists b, nth_error l (Z.to_nat (findIndex p l)) = Some b /\ p b = true.
Proof.
  induction l as [|x l IH]; intros Hin Hp; [contradiction|].
  cbn [findIndex]. destruct (p x) eqn:Hx.
  - split; [lia|]. exists x. auto.
  - destruct Hin as [->|Hin]; [congruence|].
    destruct (IH Hin Hp) as (H0 & b & Hb & Hpb).
    destruct (Z.ltb_spec (findIndex p l) 0); [lia|].
    split; [lia|]. exists b. split; [|exact Hpb].
    replace (Z.to_nat (findIndex p l + 1)) with (S (Z.to_nat (findIndex p l))) by lia.
    exact Hb.
Qed.

(** When the active display is among the enumerated displays, there are
    as many sources as displays, and neither a [display_id] nor an
    ordinal in a source id matches, the source chosen is the one at the
    position of the first display with the active display's id. *)
Theorem same_count_pairs_by_position
    (first : Source) (rest : list Source) (allDisplays : list Display)
    (activeDisplay : Display) (primaryDisplayId : Z) :
  In activeDisplay allDisplays ->
  List.length (first :: rest) = List.length allDisplays ->
  byDisplayId (first :: rest) activeDisplay = None ->
  byEmbeddedOrdinal (first :: rest) allDisplays activeDisplay = None ->
  exists i d s,
    nth_error allDisplays i = Some d /\ d_id d = d_id activeDisplay /\
    nth_error (first :: rest) i = Some s /\
    captureScreenshot_targetSource (first :: rest) allDisplays activeDisplay
      primaryDisplayId = Some s.
Proof.
  intros Hin Hlen H1 H2.
  destruct (findIndex_found (fun d => d_id d =? d_id activeDisplay)
              allDisplays activeDisplay Hin (Z.eqb_refl _))
    as (H0 & d & Hd & Hid).
  apply Z.eqb_eq in Hid.
  fold (activeDisplayIndex allDisplays activeDisplay) in H0, Hd.
  assert (E3 : (Z.of_nat (List.length (first :: rest))
                  =? Z.of_nat (List.length allDisplays))
               && (0 <=? activeDisplayIndex allDisplays activeDisplay) = true).
  { apply andb_true_iff. split; [apply Z.eqb_eq; now rewrite Hlen | now apply Z.leb_le]. }
  destruct (byPosition_defined first rest allDisplays activeDisplay E3)
    as (s & Hs & _).
  exists (Z.to_nat (activeDisplayIndex allDisplays activeDisplay)), d, s.
  split; [exact Hd|]. split; [exact Hid|]. split.
  - unfold item in Hs.
    destruct (Z.ltb_spec (activeDisplayIndex allDisplays activeDisplay) 0); [lia|].
    exact Hs.
  - rewrite captureScreenshot_targetSource_codeChain. unfold codeChain.
    rewrite H1, H2. cbn [firstSuccess]. unfold byPosition. rewrite E3, Hs.
    reflexivity.
Qed.

Lemma same_count_pairs_by_position_witness :
  exists i d s,
    nth_error [leftDisplay; rightDisplay] i = Some d /\
    d_id d = d_id rightDisplay /\
    nth_error (sourceA :: [sourceB]) i = Some s /\
    captureScreenshot_targetSource (sourceA :: [sourceB])
      [leftDisplay; rightDisplay] rightDisplay 2528732444 = Some s.
Proof.
  apply (same_count_pairs_by_position sourceA [sourceB]
           [leftDisplay; rightDisplay] rightDisplay 2528732444).
  - right; left; reflexivity.
  - reflexivity.
  - reflexivity.
  - reflexivity.
Defined.

End MatchingFacts.

(* ================================================================== *)
(** * From the overlay's selection to the crop *)
(* ================================================================== *)

Section SelectionFacts.

Import JsNumber Overlay Crop.

(** The interval spanned by two coordinates. *)
Lemma span_of_two (a c : number) :
  (0 <= Qabs (c - a) /\ Qmin a c <= a /\ Qmin a c <= c /\
   Qmin a c + Qabs (c - a) == Qmax a c /\
   Qmin a c == Qmin c a /\ Qabs (c - a) == Qabs (a - c))%Q.
Proof.
  assert (Hsym : (Qabs (c - a) == Qabs (a - c))%Q).
  { rewrite <- (Qabs_opp (a - c)). apply Qabs_wd. ring. }
  repeat split; try exact Hsym.
  - apply Qabs_nonneg.
  - apply Q.le_min_l.
  - apply Q.le_min_r.
  - destruct (Qlt_le_dec c a) as [H|H].
    + apply Qlt_le_weak in H.
      rewrite (Q.min_r a c H), (Q.max_l a c H), Hsym.
      rewrite Qabs_pos; [ring|].
      unfold Qminus. rewrite <- Qle_minus_iff. exact H.
    + rewrite (Q.min_l a c H), (Q.max_r a c H).
      rewrite Qabs_pos; [ring|].
      unfold Qminus. rewrite <- Qle_minus_iff. exact H.
  - apply Q.min_comm.
Qed.

(** The rectangle of [getSelectionBounds] has non-negative width and
    height, its origin is the upper left of the two points and its far
    corner the lower right, and it is the same rectangle in whichever
    direction the pointer was dragged. *)
Theorem selection_bounds_span_both_points (sel : bool) (p q : Point) :
  (0 <= width (getSelectionBounds (mkState sel p q)) /\
   0 <= height (getSelectionBounds (mkState sel p q)) /\
   x (getSelectionBounds (mkState sel p q))
     + width (getSelectionBounds (mkState sel p q))
     == Qmax (clientX p) (clientX q) /\
   y (getSelectionBounds (mkState sel p q))
     + height (getSelectionBounds (mkState sel p q))
     == Qmax (clientY p) (clientY q) /\
   x (getSelectionBounds (mkState sel p q)) == Qmin (clientX p) (clientX q) /\
   y (getSelectionBounds (mkState sel p q)) == Qmin (clientY p) (clientY q) /\
   x (getSelectionBounds (mkState sel q p)) == x (getSelectionBounds (mkState sel p q)) /\
   y (getSelectionBounds (mkState sel q p)) == y (getSelectionBounds (mkState sel p q)) /\
   width (getSelectionBounds (mkState sel q p))
     == width (getSelectionBounds (mkState sel p q)) /\
   height (getSelectionBounds (mkState sel q p))
     == height (getSelectionBounds (mkState sel p q)))%Q.
Proof.
  cbn [getSelectionBounds x y width height startPoint currentPoint].
  destruct (span_of_two (clientX p) (clientX q)) as (X1 & _ & _ & X4 & X5 & X6).
  destruct (span_of_two (clientY p) (clientY q)) as (Y1 & _ & _ & Y4 & Y5 & Y6).
  repeat split; auto; try reflexivity; symmetry; assumption.
Qed.





End SelectionFacts.

Section SelectionSamples.

Import Overlay Crop.


End SelectionSamples.

(* ================================================================== *)
(** * The span the analyzer parses, and the session around it *)
(* ================================================================== *)

Section SpanFacts.

Import JsText Analyzer Handlers Session.
Local Open Scope string_scope.

Lemma fromFirstBrace_app (pre r : string) :
  lacks "{" pre = true ->
  fromFirstBrace (pre ++ String "{" r) = Some (String "{" r).
Proof.
  induction pre as [|c pre IH]; simpl; intros H; [reflexivity|].
  apply andb_true_iff in H as [Hc Hp]. apply negb_true_iff in Hc.
  rewrite Hc. now apply IH.
Qed.

Lemma fromFirstBrace_none (s : string) :
  lacks "{" s = true -> fromFirstBrace s = None.
Proof.
  induction s as [|c s IH]; simpl; intros H; [reflexivity|].
  apply andb_true_iff in H as [Hc Hp]. apply negb_true_iff in Hc.
  rewrite Hc. now apply IH.
Qed.

Lemma toLastBrace_none (s : string) :
  lacks "}" s = true -> toLastBrace s = None.
Proof.
  induction s as [|c s IH]; simpl; intros H; [reflexivity|].
  apply andb_true_iff in H as [Hc Hp]. apply negb_true_iff in Hc.
  now rewrite (IH Hp), Hc.
Qed.

Lemma toLastBrace_app (mid post : string) :
  lacks "}" post = true ->
  toLastBrace (mid ++ String "}" post) = Some (mid ++ String "}" EmptyString).
Proof.
  intros Hp. induction mid as [|c mid IH]; simpl.
  - now rewrite (toLastBrace_none _ Hp).
  - now rewrite IH.
Qed.

(** The span handed to [JSON.parse] runs from the first ['{'] of the
    reply to its last ['}']: everything between them is included, so a
    reply holding two objects yields one span covering both; and there is
    no span when the reply has no ['{'] or no ['}'] after the first
    ['{']. *)
Theorem jsonMatch_is_first_to_last_brace (pre mid post : string) :
  lacks "{" pre = true ->
  lacks "}" post = true ->
  jsonMatch (pre ++ String "{" (mid ++ String "}" post))
  = Some (String "{" (mid ++ String "}" EmptyString)) /\
  jsonMatch pre = None /\
  jsonMatch (pre ++ String "{" post) = None.
Proof.
  intros Hpre Hpost. unfold jsonMatch. repeat split.
  - now rewrite (fromFirstBrace_app _ _ Hpre), (toLastBrace_app _ _ Hpost).
  - now rewrite (fromFirstBrace_none _ Hpre).
  - now rewrite (fromFirstBrace_app _ _ Hpre), (toLastBrace_none _ Hpost).
Qed.

Lemma jsonMatch_is_first_to_last_brace_witness :
  jsonMatch ("Either " ++ String "{" ("a:1} or {b:2" ++ String "}" " works"))
  = Some (String "{" ("a:1} or {b:2" ++ String "}" EmptyString)).
Proof.
  apply (jsonMatch_is_first_to_last_brace "Either " "a:1} or {b:2" " works");
    reflexivity.
Defined.

(** Instance of [parsed_span_is_not_validated]: a reply that wraps [{}]
    in prose is a success with no score at all. *)
Lemma parsed_span_is_not_validated_witness :
  fst (analyzePrompt wrappedParse "sk-or-v1-sample" None cleared
         (Ok "data:image/jpeg;base64,AAAA") (Response true 200 wrappedBody))
  = Success (VObj [("screenText", VUndefined)]).
Proof.
  apply (parsed_span_is_not_validated wrappedParse "sk-or-v1-sample" None cleared
           "data:image/jpeg;base64,AAAA" 200 wrappedBody wrappedData
           wrappedAnswer "{}" []); reflexivity.
Defined.

(** After the overlay has been opened and a selection reported, the
    analysis works on the stored screenshot exactly when the pre-capture
    returned a data URL of more than 100 characters, and then the decoded
    thumbnail is stored beside it; in every other case, the pre-capture
    having failed, it takes a fresh capture of the same display with the
    same bounds. *)
Theorem selection_after_overlay
    (activeDisplay : ElectronDisplay) (capture : PreCapture)
    (st : SelectionState) (b : Bounds) :
  (forall url thumb,
     capture = Captured url thumb -> (100 < String.length url)%nat ->
     screenshotSource (selection_made b (createSelectionOverlay activeDisplay capture st))
     = CropStored url b /\
     selectionNativeImage (selection_made b (createSelectionOverlay activeDisplay capture st))
     = Some thumb) /\
  ((capture = CaptureThrew \/
    exists url thumb, capture = Captured url thumb /\ (String.length url <= 100)%nat) ->
   screenshotSource (selection_made b (createSelectionOverlay activeDisplay capture st))
   = FreshCapture (Some b) (Some (id activeDisplay))).
Proof.
  split.
  - intros url thumb -> Hlen. unfold createSelectionOverlay.
    destruct (Nat.ltb_spec 100 (String.length url)) as [_|]; [|lia].
    cbn. destruct url; [simpl in Hlen; lia | split; reflexivity].
  - intros [-> | (url & thumb & -> & Hlen)]; unfold createSelectionOverlay.
    + reflexivity.
    + destruct (Nat.ltb_spec 100 (String.length url)); [lia | reflexivity].
Qed.

End SpanFacts.

(* ================================================================== *)
(** * Properties of the image analyzer *)
(* ================================================================== *)

Section ImageAnalyzerFacts.

Import Analyzer Handlers ImageAnalyzer.
Local Open Scope string_scope.

Variable JSON_parse : string -> option jsval.
Variable DEFAULT_OPENROUTER_API_KEY : string.

(** With an API key configured, [analyze-image-with-selection] succeeds
    exactly when a screenshot was obtained and the backend answers with
    status ok and a JSON body carrying a truthy
    [choices[0].message.content]; the content becomes the description as
    it is, prose included, with no parsing, truncation or default value;
    and whatever the outcome the selection is cleared. *)
Theorem image_analysis_returns_content_as_description
    (custom : option string) (st : SelectionState)
    (screenshot : Result string) (resp : FetchOutcome) (content : jsval) :
  noApiKey (apiKey DEFAULT_OPENROUTER_API_KEY custom) = false ->
  (fst (analyze_image_with_selection JSON_parse DEFAULT_OPENROUTER_API_KEY
          custom st screenshot resp)
   = Success (VObj [("description", content)])
   <-> (exists url, screenshot = Ok url) /\ answers JSON_parse resp content) /\
  snd (analyze_image_with_selection JSON_parse DEFAULT_OPENROUTER_API_KEY
         custom st screenshot resp) = cleared.
Proof.
  intros Hkey. unfold analyze_image_with_selection. rewrite Hkey.
  assert (Himg : analyzeImageWithAI JSON_parse resp
                 = match completionContent JSON_parse resp with
                   | Ok c => Ok (VObj [("description", c)])
                   | Throw e => analyzeImageWithAI JSON_parse resp
                   end).
  { destruct resp as [e|ok status body]; [reflexivity|]. cbn.
    destruct ok; cbn; [|reflexivity].
    destruct (parseJSON JSON_parse body) as [data|e]; cbn; [|reflexivity].
    destruct (contentOf data) as [c|e]; cbn; [|reflexivity].
    destruct (truthy c); reflexivity. }
  assert (Hthrow : forall e, completionContent JSON_parse resp = Throw e ->
                             exists e', analyzeImageWithAI JSON_parse resp = Throw e').
  { intros e. destruct resp as [e0|ok status body]; cbn; [eauto|].
    destruct ok; cbn; [|eauto].
    destruct (parseJSON JSON_parse body) as [data|e1]; cbn; [|eauto].
    destruct (contentOf data) as [c|e1]; cbn; [|eauto].
    destruct (truthy c); cbn; [discriminate | eauto]. }
  rewrite <- completionContent_Ok.
  destruct screenshot as [url|e]; cbn [bind].
  - rewrite Himg.
    destruct (completionContent JSON_parse resp) as [c|e] eqn:Hc.
    + split; [|reflexivity]. cbn [fst]. split.
      * intros H. injection H as ->. split; [eauto | reflexivity].
      * intros [_ H]. injection H as ->. reflexivity.
    + destruct (Hthrow e eq_refl) as [e' ->]. split; [|reflexivity].
      cbn [fst]. split; [discriminate | intros [_ H]; discriminate].
  - split; [|reflexivity]. cbn [fst].
    split; [discriminate | intros [[url H] _]; discriminate].
Qed.

End ImageAnalyzerFacts.

Section ImageAnalyzerSamples.

Import Analyzer Handlers ImageAnalyzer Session.
Local Open Scope string_scope.

Lemma image_analysis_returns_content_as_description_witness :
  fst (analyze_image_with_selection sampleParse "sk-or-v1-sample" None cleared
         (Ok sampleDataUrl) (Response true 200 proseBody))
  = Success (VObj [("description", VStr proseAnswer)])
  <-> (exists url, Ok sampleDataUrl = Ok url) /\
      answers sampleParse (Response true 200 proseBody) (VStr proseAnswer).
Proof.
  apply (image_analysis_returns_content_as_description
           sampleParse "sk-or-v1-sample" None cleared
           (Ok sampleDataUrl) (Response true 200 proseBody) (VStr proseAnswer)).
  reflexivity.
Defined.

(** The same prose reply that the prompt analyzer turns into default
    scores is a plain success for the image analyzer. *)
Example prose_reply_is_a_description :
  fst (analyze_image_with_selection sampleParse "sk-or-v1-sample" None cleared
         (Ok sampleDataUrl) (Response true 200 proseBody))
  = Success (VObj [("description", VStr proseAnswer)]).
Proof. reflexivity. Qed.

(** Instance of [selection_after_overlay]: the pre-capture succeeded. *)
Lemma selection_after_overlay_witness :
  screenshotSource
    (selection_made Crop.regionRect
       (createSelectionOverlay
          (mkElectronDisplay 1 (Placement.mkRect 0 0 1920 1080) 2%Q)
          (Captured sampleDataUrl Crop.bitmap4K) cleared))
  = CropStored sampleDataUrl Crop.regionRect.
Proof.
  destruct (selection_after_overlay
              (mkElectronDisplay 1 (Placement.mkRect 0 0 1920 1080) 2%Q)
              (Captured sampleDataUrl Crop.bitmap4K) cleared Crop.regionRect)
    as [H _].
  apply (H sampleDataUrl Crop.bitmap4K).
  - reflexivity.
  - vm_compute. lia.
Defined.

End ImageAnalyzerSamples.

(* ================================================================== *)
(** * [analyze-prompt] and what runs while it waits *)
(* ================================================================== *)

Section AwaitsFacts.

Import Analyzer Handlers Session Awaits.

Variable JSON_parse : string -> option jsval.
Variable DEFAULT_OPENROUTER_API_KEY : string.

(** None of the writers but [selection-made] and [cancel-selection]
    touches [pendingSelectionBounds]. *)
Lemma meanwhile_bounds (st : SelectionState) (ev : Meanwhile) :
  pendingSelectionBounds (meanwhile st ev)
  = match ev with
    | SelectionMade bounds => Some bounds
    | SelectionCancelled => None
    | _ => pendingSelectionBounds st
    end.
Proof.
  destruct ev as [bounds|activeDisplay capture| |thumbnail]; try reflexivity.
  unfold meanwhile, createSelectionOverlay.
  destruct capture as [|screenshot thumbnail]; [reflexivity|].
  destruct (Nat.ltb 100 (String.length screenshot)); reflexivity.
Qed.

Lemma fold_meanwhile_bounds (events : list Meanwhile) :
  forall st,
    pendingSelectionBounds (fold_left meanwhile events st)
    = boundsAfter events (pendingSelectionBounds st).
Proof.
  induction events as [|ev events IH]; intros st; [reflexivity|].
  cbn [fold_left]. rewrite IH, meanwhile_bounds.
  destruct ev; reflexivity.
Qed.

Lemma boundsAfter_last (events : list Meanwhile) (bounds : Bounds)
    (before : option Bounds) :
  boundsAfter (events ++ [SelectionMade bounds]) before = Some bounds.
Proof.
  revert before. induction events as [|ev events IH]; intros before;
    [reflexivity|].
  cbn [app boundsAfter]. destruct ev; apply IH.
Qed.

(** With a key configured and nothing running in between, the two halves
    of [analyze-prompt] make up the handler; it leaves no selection.
    When the analysis succeeds while other writers ran, the stored
    screenshot, display info and image are cleared but the bounds are
    those the writers left: a selection reported during the wait
    outlives the analysis without its screenshot, and the next analysis
    takes a fresh capture with these bounds and no display id, which
    [captureScreenshot] does not crop.  When the analysis fails, nothing
    is left whatever ran. *)
Theorem selection_made_during_analysis_outlives_it
    (custom : option string) (st : SelectionState)
    (screenshot : Result string) (resp : FetchOutcome)
    (events : list Meanwhile) (bounds : Bounds)
    (analysis data : jsval) (e : JsError) (img : Crop.Size) :
  noApiKey (apiKey DEFAULT_OPENROUTER_API_KEY custom) = false ->
  withScreenText analysis = Ok data ->
  analyzePrompt_interleaved []
    (_ <- screenshot ;; analyzeScreenshotWithVision JSON_parse resp) st
  = analyzePrompt JSON_parse DEFAULT_OPENROUTER_API_KEY custom st screenshot resp /\
  snd (analyzePrompt_interleaved [] (Ok analysis) st) = cleared /\
  snd (analyzePrompt_interleaved events (Ok analysis) st)
  = mkSelection (boundsAfter events None) None None None /\
  snd (analyzePrompt_interleaved (events ++ [SelectionMade bounds]) (Ok analysis) st)
  = mkSelection (Some bounds) None None None /\
  screenshotSource
    (snd (analyzePrompt_interleaved (events ++ [SelectionMade bounds])
            (Ok analysis) st))
  = FreshCapture (Some bounds) None /\
  Crop.captureScreenshot_crop (Some bounds) None img = Crop.FullImage /\
  snd (analyzePrompt_interleaved events (Throw e) st) = cleared.
Proof.
  intros Hkey Hdata.
  assert (Hrun : forall evs,
            snd (analyzePrompt_interleaved evs (Ok analysis) st)
            = mkSelection (boundsAfter evs None) None None None).
  { intros evs. unfold analyzePrompt_interleaved, analyzePrompt_end.
    rewrite Hdata. cbn [snd]. now rewrite fold_meanwhile_bounds. }
  split; [|split; [|split; [|split; [|split; [|split]]]]].
  - unfold analyzePrompt_interleaved, analyzePrompt_end, analyzePrompt.
    rewrite Hkey. cbn [fold_left analyzePrompt_begin snd pendingSelectionBounds].
    destruct screenshot as [url|err]; cbn [bind]; [|reflexivity].
    destruct (analyzeScreenshotWithVision JSON_parse resp) as [a|err];
      cbn [bind]; [|reflexivity].
    destruct (withScreenText a); reflexivity.
  - rewrite Hrun. reflexivity.
  - apply Hrun.
  - rewrite Hrun, boundsAfter_last. reflexivity.
  - rewrite Hrun, boundsAfter_last. reflexivity.
  - reflexivity.
  - reflexivity.
Qed.

End AwaitsFacts.

Section AwaitsSamples.

Local Open Scope string_scope.

(** A second selection, overlay and all, made while the first analysis
    waits for the backend. *)
Lemma selection_made_during_analysis_outlives_it_witness :
  Handlers.screenshotSource
    (snd (Awaits.analyzePrompt_interleaved
            ([Awaits.OverlayCreated
                (Session.mkElectronDisplay 1
                   (Placement.mkRect 0 0 1920 1080) 2%Q)
                (Session.Captured ImageAnalyzer.sampleDataUrl Crop.bitmap4K)]
             ++ [Awaits.SelectionMade Crop.overhangRect])
            (Analyzer.Ok (Analyzer.VObj [("prompt", Analyzer.VStr "hello")]))
            (Analyzer.mkSelection (Some Crop.regionRect) (Some Crop.fullHD)
                                  (Some ImageAnalyzer.sampleDataUrl)
                                  (Some Crop.bitmap4K))))
  = Handlers.FreshCapture (Some Crop.overhangRect) None.
Proof.
  apply (selection_made_during_analysis_outlives_it
           Analyzer.sampleParse "sk-or-v1-sample" None
           (Analyzer.mkSelection (Some Crop.regionRect) (Some Crop.fullHD)
                                 (Some ImageAnalyzer.sampleDataUrl)
                                 (Some Crop.bitmap4K))
           (Analyzer.Ok ImageAnalyzer.sampleDataUrl)
           (Analyzer.Response true 200 Analyzer.proseBody)
           [Awaits.OverlayCreated
              (Session.mkElectronDisplay 1
                 (Placement.mkRect 0 0 1920 1080) 2%Q)
              (Session.Captured ImageAnalyzer.sampleDataUrl Crop.bitmap4K)]
           Crop.overhangRect
           (Analyzer.VObj [("prompt", Analyzer.VStr "hello")])
           (Analyzer.VObj [("prompt", Analyzer.VStr "hello");
                           ("screenText", Analyzer.VStr "hello")])
           (Analyzer.Error "failed") Crop.bitmap4K);
    reflexivity.
Defined.

End AwaitsSamples.
